(** * A shallow embedding of fontra's [FontHandler]

    Source: [src/fontra/core/fonthandler.py].

    The handler is an [asyncio] object: every method runs on one cooperative
    scheduler, so each stretch of code between two [await]s is atomic.  The
    embedding below turns every method into a function on an explicit
    handler state in a state-and-exception monad.  Python objects that the
    handler shares between the cache, the root object of an edit and the
    write queue live in an explicit store, so that aliasing is visible. *)

From stdpp Require Import gmap strings list fin_maps.
From Stdlib Require Import ZArith.

Set Warnings "-clear-no-such-hyp".

Open Scope string_scope.
Open Scope list_scope.

(** ** Python runtime: exceptions, insertion-ordered dicts, [sorted] *)

Inductive exn :=
| KeyError (key : string)
| TypeError
| ValueError
| IndexError
| AttributeError
| AssertionError
| StopIteration
| SystemError
| RecursionError
| ConnectionError
| BackendError (code : nat).

#[global] Instance exn_eq_dec : EqDecision exn.
Proof. solve_decision. Defined.

(** [repr(s)] of a [str].  A string is a sequence of characters with code
    points below 256.  Python quotes with ['], or with the double quote
    when the string has a ['] and no double quote; it escapes the quote
    and the backslash, writes tab, newline and carriage return as [\t],
    [\n] and [\r], and every other character that is not printable as
    [\x] and two hexadecimal digits. *)
Definition doubleQuote : Ascii.ascii := Ascii.ascii_of_nat 34.
Definition singleQuote : Ascii.ascii := Ascii.ascii_of_nat 39.
Definition backslash : Ascii.ascii := Ascii.ascii_of_nat 92.

Fixpoint occurs (c : Ascii.ascii) (s : string) : bool :=
  match s with
  | EmptyString => false
  | String c' s' => Ascii.eqb c c' || occurs c s'
  end.

Definition quoteOf (s : string) : Ascii.ascii :=
  if occurs singleQuote s && negb (occurs doubleQuote s)
  then doubleQuote else singleQuote.

Definition hexDigit (n : nat) : Ascii.ascii :=
  default (Ascii.ascii_of_nat 48) (String.get n "0123456789abcdef").

Definition escapeChar (quote ch : Ascii.ascii) : string :=
  let n := Ascii.nat_of_ascii ch in
  if Ascii.eqb ch quote || Ascii.eqb ch backslash
  then String backslash (String ch "")
  else if Nat.eqb n 9 then "\t"
  else if Nat.eqb n 10 then "\n"
  else if Nat.eqb n 13 then "\r"
  else if Nat.ltb n 32 || Nat.eqb n 127 || (Nat.ltb 127 n && Nat.leb n 160)
          || Nat.eqb n 173
  then "\x" ++ String (hexDigit (n / 16)) (String (hexDigit (n mod 16)) "")
  else String ch "".

Fixpoint escape (quote : Ascii.ascii) (s : string) : string :=
  match s with
  | EmptyString => ""
  | String ch s' => escapeChar quote ch ++ escape quote s'
  end.

Definition reprStr (s : string) : string :=
  let quote := quoteOf s in
  String quote (escape quote s ++ String quote "").

(** [repr(e)], as interpolated by [f"{e!r}"]. *)
Definition repr (e : exn) : string :=
  match e with
  | KeyError k => "KeyError(" ++ reprStr k ++ ")"
  | TypeError => "TypeError()"
  | ValueError => "ValueError()"
  | IndexError => "IndexError()"
  | AttributeError => "AttributeError()"
  | AssertionError => "AssertionError()"
  | StopIteration => "StopIteration()"
  | SystemError => "SystemError()"
  | RecursionError => "RecursionError()"
  | ConnectionError => "ConnectionError()"
  | BackendError _ => "BackendError()"
  end.

(** A Python [dict] keeps its keys in insertion order; assigning to a key
    that is present overwrites the value where it stands. *)
Module PyDict.
Section ops.
Context {K V : Type} `{EqDecision K}.

Definition t := list (K * V).

Definition keys (d : t) : list K := d.*1.

Fixpoint get (k : K) (d : t) : option V :=
  match d with
  | [] => None
  | (k', v) :: d' => if decide (k = k') then Some v else get k d'
  end.

(** [d[k] = v] *)
Fixpoint set (k : K) (v : V) (d : t) : t :=
  match d with
  | [] => [(k, v)]
  | (k', v') :: d' =>
      if decide (k = k') then (k, v) :: d' else (k', v') :: set k v d'
  end.

(** [d.pop(k, None)], the dict that is left *)
Fixpoint remove (k : K) (d : t) : t :=
  match d with
  | [] => []
  | (k', v') :: d' =>
      if decide (k = k') then d' else (k', v') :: remove k d'
  end.

Definition mem (k : K) (d : t) : bool := bool_decide (is_Some (get k d)).
End ops.
Arguments t : clear implicits.
End PyDict.

(** [sorted] on strings: insertion sort on the code-point order. *)
Fixpoint insert_sorted (x : string) (l : list string) : list string :=
  match l with
  | [] => [x]
  | y :: l' => if String.leb x y then x :: l else y :: insert_sorted x l'
  end.

Definition sorted (l : list string) : list string :=
  foldr insert_sorted [] l.

(** ** Patterns and the change algebra ([fontra.core.changes]) *)

(** A pattern is a nested dict whose leaves are [None]. *)
#[warnings="-register-all"]
Inductive pattern := PDict (items : list (string * option pattern)).

Definition items (p : pattern) : list (string * option pattern) :=
  let 'PDict l := p in l.

Definition emptyPattern : pattern := PDict [].

(** Truth value of a dict: non-empty. *)
Definition truthy (p : pattern) : bool :=
  match items p with [] => false | _ => true end.

(** Modelled from the spec: [patternFromPath] of [fontra/core/changes.py],
    which is not part of the sources at hand.  The path [k1, ..., kn] becomes
    the one-branch pattern [{k1: {... {kn: None}}}]. *)
Fixpoint patternFromPath (path : list string) : pattern :=
  match path with
  | [] => PDict []
  | k :: rest =>
      PDict [(k, match rest with
                 | [] => None
                 | _ => Some (patternFromPath rest)
                 end)]
  end.

(** Modelled from the spec: [patternUnion] of [fontra/core/changes.py]
    (absent here); the union of the two path sets.  A key present on both
    sides is a whole subtree as soon as one side has the sentinel. *)
Fixpoint patternUnion (a b : pattern) : pattern :=
  PDict
    (map (λ '(k, va),
            (k, match PyDict.get k (items b) with
                | None => va
                | Some vb =>
                    match va, vb with
                    | Some pa, Some pb => Some (patternUnion pa pb)
                    | _, _ => None
                    end
                end)) (items a)
     ++ filter (λ kv, PyDict.get kv.1 (items a) = None) (items b)).

(** Modelled from the spec: [patternDifference] of [fontra/core/changes.py]
    (absent here); the paths of [a] that are not in [b].  A branch that
    becomes empty disappears; a sub-pattern cannot be carved out of a whole
    subtree, which therefore stays. *)
Fixpoint patternDifference (a b : pattern) : pattern :=
  PDict
    (omap (λ '(k, va),
             match PyDict.get k (items b) with
             | None => Some (k, va)
             | Some None => None
             | Some (Some pb) =>
                 match va with
                 | None => Some (k, None)
                 | Some pa =>
                     let d := patternDifference pa pb in
                     if truthy d then Some (k, Some d) else None
                 end
             end) (items a)).

(** Modelled from the spec: [patternIntersect] of [fontra/core/changes.py]
    (absent here); the paths common to [a] and [b]. *)
Fixpoint patternIntersect (a b : pattern) : pattern :=
  PDict
    (omap (λ '(k, va),
             match PyDict.get k (items b) with
             | None => None
             | Some vb =>
                 match va, vb with
                 | None, _ => Some (k, vb)
                 | Some pa, None => Some (k, Some pa)
                 | Some pa, Some pb =>
                     let i := patternIntersect pa pb in
                     if truthy i then Some (k, Some i) else None
                 end
             end) (items a)).

(** What [patternUnion] and [patternDifference] make of one entry of
    their first argument. *)
Definition unionEntry (b : pattern) (kv : string * option pattern)
    : string * option pattern :=
  (kv.1, match PyDict.get kv.1 (items b) with
         | None => kv.2
         | Some vb =>
             match kv.2, vb with
             | Some pa, Some pb => Some (patternUnion pa pb)
             | _, _ => None
             end
         end).

Definition differenceEntry (b : pattern) (kv : string * option pattern)
    : option (string * option pattern) :=
  match PyDict.get kv.1 (items b) with
  | None => Some (kv.1, kv.2)
  | Some None => None
  | Some (Some pb) =>
      match kv.2 with
      | None => Some (kv.1, None)
      | Some pa =>
          let d := patternDifference pa pb in
          if truthy d then Some (kv.1, Some d) else None
      end
  end.

(** The spec's reading of a pattern as a set of paths: walking the path
    through the pattern ends at a sentinel or at an empty mapping. *)
Fixpoint patternContains (path : list string) (p : pattern) : bool :=
  match items p with
  | [] => true
  | _ =>
      match path with
      | [] => false
      | k :: rest =>
          match PyDict.get k (items p) with
          | None => false
          | Some None => true
          | Some (Some sub) => patternContains rest sub
          end
      end
  end.

(** ** The font classes ([fontra.core.classes]), as far as the handler
    looks into them: a glyph has layers, a layer has a static glyph with
    components, a component names another glyph. *)

Record Component := { name : string }.
Record StaticGlyph := { components : list Component }.
Record Layer := { glyph : StaticGlyph }.
Record VariableGlyph := { layers : list (string * Layer) }.

(** Plain data (axes, custom data, units per em). *)
#[warnings="-register-all"]
Inductive data :=
| DInt (n : Z)
| DStr (s : string)
| DList (l : list data)
| DDict (l : list (string * data)).

(** [_iterAllComponentNames] *)
Definition _iterAllComponentNames (g : VariableGlyph) : list string :=
  l ← (layers g).*2; name <$> components (glyph l).

(** ** The store of Python objects

    A value held by the cache, by the root object of an edit or by a pending
    write is [None] or a reference.  A glyph is one object; the glyph map is
    a dict object whose values are references to list objects, because the
    handler hands such a list out on its own ([glyphMap.get(glyphName, [])]).
    Addresses are positions in the store; allocation appends. *)

Abbreviation addr := nat.

Inductive pyval := VNone | VRef (a : addr).

Inductive pyobj :=
| OGlyph (g : VariableGlyph)
| OGlyphMap (m : list (string * addr))
| OList (l : list Z)
| OData (d : data).

Abbreviation store := (list pyobj).

Definition alloc (o : pyobj) (h : store) : addr * store :=
  (length h, h ++ [o]).

#[global] Instance pyval_eq_dec : EqDecision pyval.
Proof. solve_decision. Defined.

(** [copy.deepcopy] of the entries of a glyph map; [memo] keeps a list that
    is shared between two names shared in the copy. *)
Fixpoint deepcopyEntries (m : list (string * addr)) (memo : list (addr * addr))
    (h : store) : option (list (string * addr) * store) :=
  match m with
  | [] => Some ([], h)
  | (n, a) :: m' =>
      match PyDict.get a memo with
      | Some a' =>
          '(r, h') ← deepcopyEntries m' memo h; Some ((n, a') :: r, h')
      | None =>
          match h !! a with
          | Some (OList l) =>
              let '(a', h1) := alloc (OList l) h in
              '(r, h') ← deepcopyEntries m' ((a, a') :: memo) h1;
              Some ((n, a') :: r, h')
          | _ => None
          end
      end
  end.

(** [copy.deepcopy]; [None] stands for a store that is not well-formed
    (a dangling reference), which Python cannot produce. *)
Definition deepcopyVal (v : pyval) (h : store) : option (pyval * store) :=
  match v with
  | VNone => Some (VNone, h)
  | VRef a =>
      match h !! a with
      | None => None
      | Some (OGlyphMap m) =>
          '(m', h') ← deepcopyEntries m [] h;
          let '(a', h'') := alloc (OGlyphMap m') h' in Some (VRef a', h'')
      | Some o => let '(a', h') := alloc o h in Some (VRef a', h')
      end
  end.

(** ** Keys, connections, effects *)

(** A data key is a root key ([str]) or a pair [("glyphs", glyphName)]. *)
Inductive DataKey :=
| KStr (key : string)
| KTuple (rootKey subKey : string).

#[global] Instance DataKey_eq_dec : EqDecision DataKey.
Proof. solve_decision. Defined.

(** A client connection.  [proxy] stands for [connection.proxy], the remote
    object of the client: a call on it runs on the client's side, and an
    awaited call raises what the client's side raises.  The field gives the
    outcomes of the awaited calls on the proxy, one per call in the order
    of the calls: the exception raised, or [None] for a call that returns;
    the calls after the last listed one return. *)
Record Connection := {
  connId : nat;
  clientUUID : string;
  proxy : list (option exn)
}.

#[global] Instance Connection_eq_dec : EqDecision Connection.
Proof. solve_decision. Defined.

Definition CHANGES_PATTERN_KEY := "changes-match-pattern".
Definition LIVE_CHANGES_PATTERN_KEY := "live-changes-match-pattern".

(** [_writeKeyToPattern] *)
Definition _writeKeyToPattern (writeKey : DataKey) : pattern :=
  match writeKey with
  | KStr k => patternFromPath [k]
  | KTuple r s => patternFromPath [r; s]
  end.

(** A pending write: [functools.partial] of a backend method and its
    arguments. *)
Inductive writeFunc :=
| PutGlyph (glyphName : string) (glyph : pyval) (codePoints : pyval)
| DeleteGlyph (glyphName : string)
| PutData (key : string) (value : pyval).

(** Modelled from the spec: [LRUCache] of [fontra/core/lrucache.py], which
    is not part of the sources at hand: a bounded mapping; accesses refresh
    recency; an insertion above capacity drops the least recently used
    entry.  The least recently used entry comes first. *)
Module LRUCache.
Record t := { maxSize : nat; entries : list (DataKey * pyval) }.

Definition without (k : DataKey) (es : list (DataKey * pyval))
    : list (DataKey * pyval) :=
  List.filter (λ kv, bool_decide (kv.1 ≠ k)) es.

Definition touch (k : DataKey) (v : pyval) (c : t) : t :=
  {| maxSize := maxSize c; entries := without k (entries c) ++ [(k, v)] |}.

(** [cache.get(key)]: [None] when the key is missing. *)
Definition get (k : DataKey) (c : t) : pyval * t :=
  match PyDict.get k (entries c) with
  | Some v => (v, touch k v c)
  | None => (VNone, c)
  end.

(** [cache[key]]: [KeyError] when the key is missing. *)
Definition getitem (k : DataKey) (c : t) : option (pyval * t) :=
  match PyDict.get k (entries c) with
  | Some v => Some (v, touch k v c)
  | None => None
  end.

(** [cache[key] = value] *)
Definition setitem (k : DataKey) (v : pyval) (c : t) : t :=
  let es := without k (entries c) ++ [(k, v)] in
  {| maxSize := maxSize c;
     entries := if decide (maxSize c < length es) then drop 1 es else es |}.

(** [cache.pop(key, None)] *)
Definition pop (k : DataKey) (c : t) : t :=
  {| maxSize := maxSize c; entries := without k (entries c) |}.

Definition keys (c : t) : list DataKey := (entries c).*1.

(** What a read of [k] gives, apart from its effect on recency. *)
Definition peek (k : DataKey) (c : t) : pyval := (get k c).1.
End LRUCache.

(** ** The root object of an edit *)

(** [DictSetDelTracker]: a dict that records the keys set and deleted
    through it.  [data] is the wrapped dict itself, not a copy. *)
Module DictSetDelTracker.
Record t := {
  data : PyDict.t string pyval;
  newKeys : gset string;
  deletedKeys : gset string
}.

(** [DictSetDelTracker(data)] *)
Definition init (d : PyDict.t string pyval) : t :=
  {| data := d; newKeys := ∅; deletedKeys := ∅ |}.

Definition setitem (key : string) (value : pyval) (d : t) : t :=
  let isNewItem := negb (PyDict.mem key (data d)) in
  {| data := PyDict.set key value (data d);
     newKeys := if isNewItem then newKeys d ∪ {[key]} else newKeys d;
     deletedKeys := if isNewItem then deletedKeys d ∖ {[key]} else deletedKeys d |}.

(** [__delitem__] calls [self.pop(key, None)], the [pop] of
    [MutableMapping], which reads [self[key]] and, when the key is there,
    runs [del self[key]], that is [__delitem__] again: for a key that is
    present the calls nest until Python raises [RecursionError].  For an
    absent key the sets are updated. *)
Definition delitem (key : string) (d : t) : exn + t :=
  if PyDict.mem key (data d) then inl RecursionError
  else inr {| data := data d;
              newKeys := newKeys d ∖ {[key]};
              deletedKeys := deletedKeys d ∪ {[key]} |}.
End DictSetDelTracker.

(** [Font()] as the handler uses it: attributes set on it, the [glyphs]
    attribute when it is a tracker, and the names assigned after
    [_trackAssignedAttributeNames]. *)
Record Font := {
  attrs : PyDict.t string pyval;
  glyphs : option DictSetDelTracker.t;
  _assignedAttributeNames : gset string
}.

(** ** The collaborators of the handler *)

(** The change primitives of [fontra.core.changes] that the handler calls
    on changes; their code is not at hand and nothing is assumed of them.
    [applyChange] works in place on the root object and on the objects it
    refers to. *)
Class ChangeAlgebra (Change : Type) := {
  collectChangePaths : Change → nat → list (list string);
  matchChangePattern : Change → pattern → bool;
  filterChangePattern : Change → pattern → option Change;
  applyChange : Font → Change → store → (exn + unit) * (Font * store)
}.

(** The backend protocols ([ReadableFontBackend], [WritableFontBackend]).
    [B] is the state of the backend; every call may raise and may change
    that state. *)
Class Backend (B : Type) := {
  isWritableFontBackend : bool;
  be_getGlyph : string → B → (exn + option VariableGlyph) * B;
  be_getGlobalAxes : B → (exn + data) * B;
  be_getGlyphMap : B → (exn + list (string * list Z)) * B;
  be_getCustomData : B → (exn + data) * B;
  be_getUnitsPerEm : B → (exn + data) * B;
  be_putGlyph : string → option VariableGlyph → list Z → B → (exn + unit) * B;
  be_deleteGlyph : string → B → (exn + unit) * B;
  be_putGlobalAxes : data → B → (exn + unit) * B;
  be_putGlyphMap : list (string * list Z) → B → (exn + unit) * B;
  be_putCustomData : data → B → (exn + unit) * B;
  be_putUnitsPerEm : data → B → (exn + unit) * B
}.

(** What the handler does to the outside: calls on a client proxy, awaited
    or scheduled as a task of their own, and calls on the backend. *)
Inductive ProxyCall (Change : Type) :=
| externalChange (change : Change) (isLiveChange : bool)
| reloadDataCall (reloadPattern : pattern)
| messageFromServer (title body : string).
Arguments externalChange {Change}.
Arguments reloadDataCall {Change}.
Arguments messageFromServer {Change}.

Inductive BackendCall :=
| CallGetGlyph (glyphName : string)
| CallGetData (key : string)
| CallWrite (f : writeFunc).

Inductive Effect (Change : Type) :=
| Awaited (c : Connection) (call : ProxyCall Change)
| Scheduled (c : Connection) (call : ProxyCall Change)
| BackendCalled (call : BackendCall).
Arguments Awaited {Change}.
Arguments Scheduled {Change}.
Arguments BackendCalled {Change}.

(** ** The handler state *)

Definition WriteQueue := PyDict.t DataKey (writeFunc * option Connection).

Record FontHandler {Change B : Type} := {
  backend : B;
  readOnly : bool;
  dummyEditor : bool;
  connections : list Connection;
  glyphUsedBy : gmap string (gset string);
  glyphMadeOf : gmap string (gset string);
  clientData : gmap string (gmap string pattern);
  localData : LRUCache.t;
  _dataScheduledForWriting : option WriteQueue;
  _processWritesError : option exn;
  _processWritesEvent : bool;
  _writingInProgressEvent : bool;
  heap : store;
  effects : list (Effect Change)
}.
Arguments FontHandler : clear implicits.

(** ** The monad of the embedding: a state transformer that returns or
    raises.  A raised exception keeps the state changes made before it. *)

Definition M (S A : Type) : Type := S → (exn + A) * S.

Definition ret {S A} (a : A) : M S A := λ s, (inr a, s).

Definition raise {S A} (e : exn) : M S A := λ s, (inl e, s).

Definition bind {S A A'} (m : M S A) (k : A → M S A') : M S A' :=
  λ s, match m s with
       | (inl e, s') => (inl e, s')
       | (inr a, s') => k a s'
       end.

Definition gets {S A} (f : S → A) : M S A := λ s, (inr (f s), s).

Definition modify {S} (f : S → S) : M S unit := λ s, (inr tt, f s).

(** [try: m except Exception as e: handler(e)] *)
Definition try_except {S A} (m : M S A) (handler : exn → M S A) : M S A :=
  λ s, match m s with
       | (inl e, s') => handler e s'
       | (inr a, s') => (inr a, s')
       end.

(** [try: m finally: cleanup] *)
Definition try_finally {S A} (m : M S A) (cleanup : S → S) : M S A :=
  λ s, let '(r, s') := m s in (r, cleanup s').

Declare Scope py_scope.
Delimit Scope py_scope with py.
Notation "x <- m ;; k" := (bind m (λ x, k))
  (at level 100, m at next level, right associativity) : py_scope.
Notation "m ;; k" := (bind m (λ _, k))
  (at level 100, right associativity) : py_scope.
Open Scope py_scope.

(** [for x in l: body] *)
Fixpoint for_ {S A} (l : list A) (body : A → M S unit) : M S unit :=
  match l with
  | [] => ret tt
  | x :: l' => body x ;; for_ l' body
  end.

(** [assert cond] *)
Definition assert_ {S} (cond : bool) : M S unit :=
  if cond then ret tt else raise AssertionError.

(** A pure computation that may raise. *)
Definition lift {S A} (r : exn + A) : M S A :=
  match r with inl e => raise e | inr a => ret a end.

(** A loop that threads a local variable. *)
Fixpoint fold_ {S A Acc} (l : list A) (acc : Acc) (body : Acc → A → M S Acc)
    : M S Acc :=
  match l with
  | [] => ret acc
  | x :: l' => acc' <- body acc x ;; fold_ l' acc' body
  end.

(** A list comprehension whose element expression may raise. *)
Fixpoint comprehension {A A'} (f : A → exn + A') (l : list A) : exn + list A' :=
  match l with
  | [] => inr []
  | x :: l' =>
      match f x with
      | inl e => inl e
      | inr y =>
          match comprehension f l' with
          | inl e => inl e
          | inr ys => inr (y :: ys)
          end
      end
  end.

Definition nl : string := String (Ascii.ascii_of_nat 10) "".

Section Handler.
Context {Change B : Type} `{!ChangeAlgebra Change, !Backend B}.

Local Abbreviation State := (FontHandler Change B).

(** *** Field updates *)

Definition set_backend (b : B) (s : State) : State :=
  {| backend := b; readOnly := readOnly s; dummyEditor := dummyEditor s;
     connections := connections s; glyphUsedBy := glyphUsedBy s;
     glyphMadeOf := glyphMadeOf s; clientData := clientData s;
     localData := localData s;
     _dataScheduledForWriting := _dataScheduledForWriting s;
     _processWritesError := _processWritesError s;
     _processWritesEvent := _processWritesEvent s;
     _writingInProgressEvent := _writingInProgressEvent s;
     heap := heap s; effects := effects s |}.

Definition set_connections (l : list Connection) (s : State) : State :=
  {| backend := backend s; readOnly := readOnly s; dummyEditor := dummyEditor s;
     connections := l; glyphUsedBy := glyphUsedBy s;
     glyphMadeOf := glyphMadeOf s; clientData := clientData s;
     localData := localData s;
     _dataScheduledForWriting := _dataScheduledForWriting s;
     _processWritesError := _processWritesError s;
     _processWritesEvent := _processWritesEvent s;
     _writingInProgressEvent := _writingInProgressEvent s;
     heap := heap s; effects := effects s |}.

Definition set_glyphUsedBy (m : gmap string (gset string)) (s : State)
    : State :=
  {| backend := backend s; readOnly := readOnly s; dummyEditor := dummyEditor s;
     connections := connections s; glyphUsedBy := m;
     glyphMadeOf := glyphMadeOf s; clientData := clientData s;
     localData := localData s;
     _dataScheduledForWriting := _dataScheduledForWriting s;
     _processWritesError := _processWritesError s;
     _processWritesEvent := _processWritesEvent s;
     _writingInProgressEvent := _writingInProgressEvent s;
     heap := heap s; effects := effects s |}.

Definition set_glyphMadeOf (m : gmap string (gset string)) (s : State)
    : State :=
  {| backend := backend s; readOnly := readOnly s; dummyEditor := dummyEditor s;
     connections := connections s; glyphUsedBy := glyphUsedBy s;
     glyphMadeOf := m; clientData := clientData s;
     localData := localData s;
     _dataScheduledForWriting := _dataScheduledForWriting s;
     _processWritesError := _processWritesError s;
     _processWritesEvent := _processWritesEvent s;
     _writingInProgressEvent := _writingInProgressEvent s;
     heap := heap s; effects := effects s |}.

Definition set_clientData (m : gmap string (gmap string pattern))
    (s : State) : State :=
  {| backend := backend s; readOnly := readOnly s; dummyEditor := dummyEditor s;
     connections := connections s; glyphUsedBy := glyphUsedBy s;
     glyphMadeOf := glyphMadeOf s; clientData := m;
     localData := localData s;
     _dataScheduledForWriting := _dataScheduledForWriting s;
     _processWritesError := _processWritesError s;
     _processWritesEvent := _processWritesEvent s;
     _writingInProgressEvent := _writingInProgressEvent s;
     heap := heap s; effects := effects s |}.

Definition set_localData (c : LRUCache.t) (s : State) : State :=
  {| backend := backend s; readOnly := readOnly s; dummyEditor := dummyEditor s;
     connections := connections s; glyphUsedBy := glyphUsedBy s;
     glyphMadeOf := glyphMadeOf s; clientData := clientData s;
     localData := c;
     _dataScheduledForWriting := _dataScheduledForWriting s;
     _processWritesError := _processWritesError s;
     _processWritesEvent := _processWritesEvent s;
     _writingInProgressEvent := _writingInProgressEvent s;
     heap := heap s; effects := effects s |}.

Definition set_dataScheduledForWriting (q : option WriteQueue)
    (s : State) : State :=
  {| backend := backend s; readOnly := readOnly s; dummyEditor := dummyEditor s;
     connections := connections s; glyphUsedBy := glyphUsedBy s;
     glyphMadeOf := glyphMadeOf s; clientData := clientData s;
     localData := localData s;
     _dataScheduledForWriting := q;
     _processWritesError := _processWritesError s;
     _processWritesEvent := _processWritesEvent s;
     _writingInProgressEvent := _writingInProgressEvent s;
     heap := heap s; effects := effects s |}.

Definition set_processWritesError (e : option exn) (s : State)
    : State :=
  {| backend := backend s; readOnly := readOnly s; dummyEditor := dummyEditor s;
     connections := connections s; glyphUsedBy := glyphUsedBy s;
     glyphMadeOf := glyphMadeOf s; clientData := clientData s;
     localData := localData s;
     _dataScheduledForWriting := _dataScheduledForWriting s;
     _processWritesError := e;
     _processWritesEvent := _processWritesEvent s;
     _writingInProgressEvent := _writingInProgressEvent s;
     heap := heap s; effects := effects s |}.

Definition set_processWritesEvent (b : bool) (s : State) : State :=
  {| backend := backend s; readOnly := readOnly s; dummyEditor := dummyEditor s;
     connections := connections s; glyphUsedBy := glyphUsedBy s;
     glyphMadeOf := glyphMadeOf s; clientData := clientData s;
     localData := localData s;
     _dataScheduledForWriting := _dataScheduledForWriting s;
     _processWritesError := _processWritesError s;
     _processWritesEvent := b;
     _writingInProgressEvent := _writingInProgressEvent s;
     heap := heap s; effects := effects s |}.

Definition set_writingInProgressEvent (b : bool) (s : State)
    : State :=
  {| backend := backend s; readOnly := readOnly s; dummyEditor := dummyEditor s;
     connections := connections s; glyphUsedBy := glyphUsedBy s;
     glyphMadeOf := glyphMadeOf s; clientData := clientData s;
     localData := localData s;
     _dataScheduledForWriting := _dataScheduledForWriting s;
     _processWritesError := _processWritesError s;
     _processWritesEvent := _processWritesEvent s;
     _writingInProgressEvent := b;
     heap := heap s; effects := effects s |}.

Definition set_heap (h : store) (s : State) : State :=
  {| backend := backend s; readOnly := readOnly s; dummyEditor := dummyEditor s;
     connections := connections s; glyphUsedBy := glyphUsedBy s;
     glyphMadeOf := glyphMadeOf s; clientData := clientData s;
     localData := localData s;
     _dataScheduledForWriting := _dataScheduledForWriting s;
     _processWritesError := _processWritesError s;
     _processWritesEvent := _processWritesEvent s;
     _writingInProgressEvent := _writingInProgressEvent s;
     heap := h; effects := effects s |}.

Definition set_effects (l : list (Effect Change)) (s : State)
    : State :=
  {| backend := backend s; readOnly := readOnly s; dummyEditor := dummyEditor s;
     connections := connections s; glyphUsedBy := glyphUsedBy s;
     glyphMadeOf := glyphMadeOf s; clientData := clientData s;
     localData := localData s;
     _dataScheduledForWriting := _dataScheduledForWriting s;
     _processWritesError := _processWritesError s;
     _processWritesEvent := _processWritesEvent s;
     _writingInProgressEvent := _writingInProgressEvent s;
     heap := heap s; effects := l |}.

Definition emit (e : Effect Change) : M State unit :=
  modify (λ s, set_effects (effects s ++ [e]) s).

(** The awaited calls that the log records for a connection. *)
Definition awaitedOn (connection : Connection) (e : Effect Change) : bool :=
  match e with
  | Awaited c _ => bool_decide (c = connection)
  | _ => false
  end.

(** What the next awaited call on the proxy of a connection raises. *)
Definition proxyOutcome (connection : Connection) (s : State) : option exn :=
  default None
    (proxy connection !! length (List.filter (awaitedOn connection) (effects s))).

(** [await connection.proxy.<call>(...)] *)
Definition awaitProxy (connection : Connection) (call : ProxyCall Change)
    : M State unit :=
  outcome <- gets (proxyOutcome connection) ;;
  emit (Awaited connection call) ;;
  match outcome with
  | Some e => raise e
  | None => ret tt
  end.

(** The calls handed to [asyncio.gather] are all started, in the order of
    the arguments; [startAll] gives the exception of the first of them
    that raises. *)
Fixpoint startAll (calls : list (Connection * ProxyCall Change))
    : M State (option exn) :=
  match calls with
  | [] => ret None
  | (connection, call) :: calls' =>
      outcome <- gets (proxyOutcome connection) ;;
      emit (Awaited connection call) ;;
      others <- startAll calls' ;;
      ret (match outcome with
           | Some e => Some e
           | None => others
           end)
  end.

(** [await asyncio.gather] of the calls: an exception of a call is raised to the
    caller, and the other calls are not cancelled.  Which exception it is
    when several calls raise depends on the timing; here it is the one of
    the first call in the order of the arguments. *)
Definition gather (calls : list (Connection * ProxyCall Change)) : M State unit :=
  raised <- startAll calls ;;
  match raised with
  | Some e => raise e
  | None => ret tt
  end.

(** A call on the backend. *)
Definition callBackend {A} (c : BackendCall) (f : B → (exn + A) * B)
    : M State A :=
  λ s, let s1 := set_effects (effects s ++ [BackendCalled c]) s in
       let '(r, b) := f (backend s1) in (r, set_backend b s1).
Definition allocM (o : pyobj) : M State addr :=
  λ s, let '(a, h) := alloc o (heap s) in (inr a, set_heap h s).

(** [copy.deepcopy(v)] *)
Definition deepcopy (v : pyval) : M State pyval :=
  λ s, match deepcopyVal v (heap s) with
       | Some (v', h) => (inr v', set_heap h s)
       | None => (inl SystemError, s)
       end.

(** *** Construction: [__post_init__], then [startTasks].  The attributes
    that [startTasks] creates are fields from the start, with the values
    [startTasks] gives them.  [cacheSize] is the capacity of
    [LRUCache()]. *)
Definition __post_init__ (b : B) (readOnly dummyEditor : bool)
    (cacheSize : nat) : State :=
  {| backend := b;
     readOnly := if isWritableFontBackend then readOnly else true;
     dummyEditor := dummyEditor;
     connections := [];
     glyphUsedBy := ∅;
     glyphMadeOf := ∅;
     clientData := ∅;
     localData := {| LRUCache.maxSize := cacheSize; LRUCache.entries := [] |};
     _dataScheduledForWriting := Some [];
     _processWritesError := None;
     _processWritesEvent := false;
     _writingInProgressEvent := true;
     heap := [];
     effects := [] |}.

Definition startTasks (s : State) : State :=
  set_writingInProgressEvent true
    (set_processWritesEvent false (set_processWritesError None s)).

(** [useConnection]: [self.connections.add(connection)] on entry and
    [self.connections.remove(connection)] on exit.  The callback for the
    last connection to leave is not modelled. *)
Definition addConnection (c : Connection) (s : State) : State :=
  if decide (c ∈ connections s) then s
  else set_connections (connections s ++ [c]) s.

Definition removeConnection (c : Connection) : M State unit :=
  conns <- gets connections ;;
  if decide (c ∈ conns)
  then modify (set_connections (List.filter (λ c', bool_decide (c' ≠ c)) conns))
  else raise (KeyError (clientUUID c)).


(** *** Client data and subscriptions *)

(** [self.clientData[connection.clientUUID].get(key, default)] *)
Definition _getClientData (connection : Connection) (key : string)
    (default : pattern) (s : State) : pattern :=
  match clientData s !! clientUUID connection with
  | Some d => match d !! key with Some v => v | None => default end
  | None => default
  end.

(** [self.clientData[connection.clientUUID][key] = value] *)
Definition _setClientData (connection : Connection) (key : string)
    (value : pattern) (s : State) : State :=
  let d := match clientData s !! clientUUID connection with
           | Some d => d
           | None => ∅
           end in
  set_clientData (<[clientUUID connection := <[key := value]> d]> (clientData s)) s.

(** [_ensurePattern]: a list is a path. *)
Definition _ensurePattern (pathOrPattern : list string + pattern) : pattern :=
  match pathOrPattern with
  | inl path => patternFromPath path
  | inr p => p
  end.

Definition _adjustMatchPattern (func : pattern → pattern → pattern)
    (pathOrPattern : pattern) (wantLiveChanges : bool)
    (connection : Connection) (s : State) : State :=
  let key := if wantLiveChanges then LIVE_CHANGES_PATTERN_KEY
             else CHANGES_PATTERN_KEY in
  let matchPattern := _getClientData connection key emptyPattern s in
  _setClientData connection key (func matchPattern pathOrPattern) s.

Definition subscribeChanges (pathOrPattern : list string + pattern)
    (wantLiveChanges : bool) (connection : Connection) (s : State) : State :=
  let pattern := _ensurePattern pathOrPattern in
  _adjustMatchPattern patternUnion pattern wantLiveChanges connection s.

Definition unsubscribeChanges (pathOrPattern : list string + pattern)
    (wantLiveChanges : bool) (connection : Connection) (s : State) : State :=
  let pattern := _ensurePattern pathOrPattern in
  _adjustMatchPattern patternDifference pattern wantLiveChanges connection s.

Definition _getCombinedSubscribePattern (connection : Connection) (s : State)
    : pattern :=
  let patternA := _getClientData connection LIVE_CHANGES_PATTERN_KEY emptyPattern s in
  let patternB := _getClientData connection CHANGES_PATTERN_KEY emptyPattern s in
  patternUnion patternA patternB.

(** *** Broadcasting *)

Definition matchPatternKeys (isLiveChange : bool) : list string :=
  if isLiveChange then [LIVE_CHANGES_PATTERN_KEY]
  else [LIVE_CHANGES_PATTERN_KEY; CHANGES_PATTERN_KEY].

(** The condition of the comprehension in [broadcastChange]. *)
Definition wantsChange (change : Change) (sourceConnection : option Connection)
    (isLiveChange : bool) (s : State) (connection : Connection) : bool :=
  bool_decide (Some connection ≠ sourceConnection)
  && existsb (λ k, matchChangePattern change
                     (_getClientData connection k emptyPattern s))
       (matchPatternKeys isLiveChange).

Definition broadcastChange (change : Change)
    (sourceConnection : option Connection) (isLiveChange : bool)
    : M State unit :=
  conns <- gets (λ s, List.filter
                        (wantsChange change sourceConnection isLiveChange s)
                        (connections s)) ;;
  for_ conns (λ connection,
    emit (Scheduled connection (externalChange change isLiveChange))).

(** [editIncremental] *)
Definition editIncremental (liveChange : Change) (connection : Connection)
    : M State unit :=
  broadcastChange liveChange (Some connection) true.
(** *** The dependency tracker *)

(** [self.glyphUsedBy[componentName].discard(glyphName)], for a
    [componentName] that is a key of [glyphUsedBy]. *)
Definition discardUsedBy (glyphName componentName : string)
    (usedBy : gmap string (gset string)) : gmap string (gset string) :=
  match usedBy !! componentName with
  | Some users => <[componentName := users ∖ {[glyphName]}]> usedBy
  | None => usedBy
  end.

(** The body of the last loop: create the set when the key is missing,
    then add. *)
Definition addUsedBy (glyphName componentName : string)
    (usedBy : gmap string (gset string)) : gmap string (gset string) :=
  let usedBy' := match usedBy !! componentName with
                 | Some _ => usedBy
                 | None => <[componentName := ∅]> usedBy
                 end in
  match usedBy' !! componentName with
  | Some users => <[componentName := users ∪ {[glyphName]}]> usedBy'
  | None => usedBy'
  end.

Definition updateGlyphDependencies (glyphName : string) (glyph : VariableGlyph)
    (s : State) : State :=
  (* Zap previous used-by data for this glyph, if any *)
  let previous : gset string := default ∅ (glyphMadeOf s !! glyphName) in
  let s1 := set_glyphUsedBy
              (set_fold (discardUsedBy glyphName) (glyphUsedBy s) previous) s in
  let componentNames : gset string := list_to_set (_iterAllComponentNames glyph) in
  let s2 := if decide (componentNames ≠ ∅)
            then set_glyphMadeOf (<[glyphName := componentNames]> (glyphMadeOf s1)) s1
            else if decide (is_Some (glyphMadeOf s1 !! glyphName))
                 then set_glyphMadeOf (delete glyphName (glyphMadeOf s1)) s1
                 else s1 in
  set_glyphUsedBy
    (set_fold (addUsedBy glyphName) (glyphUsedBy s2) componentNames) s2.

(** *** Cached reads *)

Definition cacheGet (key : DataKey) : M State pyval :=
  λ s, let '(v, c) := LRUCache.get key (localData s) in
       (inr v, set_localData c s).

Definition cacheGetItem (key : DataKey) : M State pyval :=
  λ s, match LRUCache.getitem key (localData s) with
       | Some (v, c) => (inr v, set_localData c s)
       | None => (inl (KeyError (match key with
                                 | KStr k => k
                                 | KTuple _ k => k
                                 end)), s)
       end.

Definition cacheSet (key : DataKey) (v : pyval) : M State unit :=
  modify (λ s, set_localData (LRUCache.setitem key v (localData s)) s).

Definition cachePop (key : DataKey) : M State unit :=
  modify (λ s, set_localData (LRUCache.pop key (localData s)) s).

Definition _getGlyphFromBackend (glyphName : string) : M State pyval :=
  glyph <- callBackend (CallGetGlyph glyphName) (be_getGlyph glyphName) ;;
  match glyph with
  | Some g =>
      a <- allocM (OGlyph g) ;;
      modify (updateGlyphDependencies glyphName g) ;;
      ret (VRef a)
  | None => ret VNone
  end.

(** [_getGlyph] wraps the same call in a task and awaits it. *)
Definition _getGlyph (glyphName : string) : M State pyval :=
  _getGlyphFromBackend glyphName.

Definition getGlyph (glyphName : string) : M State pyval :=
  glyph <- cacheGet (KTuple "glyphs" glyphName) ;;
  match glyph with
  | VNone =>
      glyph <- _getGlyph glyphName ;;
      cacheSet (KTuple "glyphs" glyphName) glyph ;;
      ret glyph
  | _ => ret glyph
  end.

(** The glyph map that the backend returns becomes a dict object whose
    values are list objects. *)
Definition allocGlyphMap (m : list (string * list Z)) : M State addr :=
  entries <- fold_ m [] (λ acc '(n, cps),
               a <- allocM (OList cps) ;; ret (acc ++ [(n, a)])) ;;
  allocM (OGlyphMap entries).

Definition _getData (key : string) : M State pyval :=
  if decide (key = "axes") then
    value <- callBackend (CallGetData key) be_getGlobalAxes ;;
    a <- allocM (OData value) ;; ret (VRef a)
  else if decide (key = "glyphMap") then
    value <- callBackend (CallGetData key) be_getGlyphMap ;;
    a <- allocGlyphMap value ;; ret (VRef a)
  else if decide (key = "customData") then
    value <- callBackend (CallGetData key) be_getCustomData ;;
    a <- allocM (OData value) ;; ret (VRef a)
  else if decide (key = "unitsPerEm") then
    value <- callBackend (CallGetData key) be_getUnitsPerEm ;;
    a <- allocM (OData value) ;; ret (VRef a)
  else raise (KeyError key).

Definition getData (key : string) : M State pyval :=
  data <- cacheGet (KStr key) ;;
  match data with
  | VNone =>
      data <- _getData key ;;
      cacheSet (KStr key) data ;;
      ret data
  | _ => ret data
  end.

(** *** Invalidation *)

(** The first loop of [reloadData].  Iterating over the value of
    ["glyphs"] raises [TypeError] when that value is [None]. *)
Definition dropLocalData (reloadPattern : pattern) : M State unit :=
  for_ (items reloadPattern) (λ '(rootKey, value),
    if decide (rootKey = "glyphs") then
      match value with
      | Some sub =>
          for_ (PyDict.keys (items sub)) (λ glyphName,
            cachePop (KTuple "glyphs" glyphName))
      | None => raise TypeError
      end
    else cachePop (KStr rootKey)).

(** The comprehension of [reloadData]: the connections whose combined
    subscription meets the reload pattern, each with the intersection. *)
Definition connReloadPatterns (reloadPattern : pattern) (s : State)
    : list (Connection * pattern) :=
  omap (λ connection,
          let subscribePattern := _getCombinedSubscribePattern connection s in
          let connReloadPattern :=
            patternIntersect subscribePattern reloadPattern in
          if truthy connReloadPattern
          then Some (connection, connReloadPattern) else None)
       (connections s).

Definition reloadData (reloadPattern : pattern) : M State unit :=
  (* Drop local data to ensure it gets reloaded from the backend *)
  dropLocalData reloadPattern ;;
  conns <- gets (connReloadPatterns reloadPattern) ;;
  match conns with
  | [] => ret tt
  | _ => gather (map (λ cp, (cp.1, reloadDataCall cp.2)) conns)
  end.

(** *** The write queue *)

Definition scheduleDataWrite (writeKey : DataKey) (writeFunc : writeFunc)
    (connection : option Connection) : M State unit :=
  q <- gets _dataScheduledForWriting ;;
  match q with
  | None =>
      (* The write-"thread" is no longer running *)
      reloadData (_writeKeyToPattern writeKey) ;;
      match connection with
      | Some c =>
          awaitProxy c (messageFromServer
            "The data could not be saved."
            ("The edit has been reverted." ++ nl ++ nl ++
             "The Fontra server got itself into trouble, please contact an admin."))
      | None => raise AttributeError
      end
  | Some q =>
      let shouldSignal := bool_decide (q = []) in
      modify (set_dataScheduledForWriting
                (Some (PyDict.set writeKey (writeFunc, connection) q))) ;;
      if shouldSignal then
        modify (λ s, set_writingInProgressEvent false
                       (set_processWritesEvent true s))
      else ret tt
  end.

(** [popFirstItem]; [next(iter(d))] raises [StopIteration] on an empty
    dict. *)
Definition popFirstItem {K V} `{EqDecision K} (d : PyDict.t K V)
    : exn + ((K * V) * PyDict.t K V) :=
  match PyDict.keys d with
  | [] => inl StopIteration
  | key :: _ =>
      match PyDict.get key d with
      | Some v => inr ((key, v), PyDict.remove key d)
      | None => inl SystemError
      end
  end.
(** *** The update pipeline of [editFinal] *)

(** [_getLocalDataPattern] *)
Definition _getLocalDataPattern (s : State) : exn + pattern :=
  (fix loop (keys : list DataKey) (localPattern : list (string * option pattern))
     : exn + pattern :=
     match keys with
     | [] => inr (PDict localPattern)
     | KTuple rootKey subKey :: keys' =>
         match PyDict.get rootKey localPattern with
         | None =>
             loop keys' (PyDict.set rootKey (Some (PDict [(subKey, None)]))
                           localPattern)
         | Some (Some subPattern) =>
             loop keys' (PyDict.set rootKey
                           (Some (PDict (PyDict.set subKey None (items subPattern))))
                           localPattern)
         | Some None => inl TypeError
         end
     | KStr key :: keys' => loop keys' (PyDict.set key None localPattern)
     end) (LRUCache.keys (localData s)) [].

Definition getLocalDataPattern : M State pattern :=
  λ s, lift (_getLocalDataPattern s) s.

(** [p[0]] *)
Definition first (p : list string) : exn + string :=
  match p with
  | [] => inl IndexError
  | k :: _ => inr k
  end.

(** [key, glyphName = p] *)
Definition unpack2 (p : list string) : exn + (string * string) :=
  match p with
  | [key; glyphName] => inr (key, glyphName)
  | _ => inl ValueError
  end.

Definition emptyFont : Font :=
  {| attrs := []; glyphs := None; _assignedAttributeNames := ∅ |}.

Definition _prepareRootObject (change : Change)
    : M State (list string * Font) :=
  let rootObject := emptyFont in
  rootKeys <- lift (comprehension first (collectChangePaths change 1)) ;;
  rootObject <- fold_ rootKeys rootObject (λ rootObject rootKey,
    if decide (rootKey = "glyphs") then
      pairs <- lift (comprehension unpack2 (collectChangePaths change 2)) ;;
      let glyphNames :=
        (List.filter (λ p, bool_decide (p.1 = "glyphs")) pairs).*2 in
      glyphSet <- fold_ glyphNames [] (λ glyphSet glyphName,
        g <- getGlyph glyphName ;;
        ret (PyDict.set glyphName g glyphSet)) ;;
      ret {| attrs := attrs rootObject;
             glyphs := Some (DictSetDelTracker.init glyphSet);
             _assignedAttributeNames := _assignedAttributeNames rootObject |}
    else
      v <- getData rootKey ;;
      ret {| attrs := PyDict.set rootKey v (attrs rootObject);
             glyphs := glyphs rootObject;
             _assignedAttributeNames := _assignedAttributeNames rootObject |}) ;;
  ret (rootKeys, rootObject).

(** [glyphMap.get(glyphName, [])]: the list object of the cached glyph map
    itself, or a new empty list. *)
Definition glyphMapGet (glyphMap : pyval) (glyphName : string) : M State pyval :=
  match glyphMap with
  | VNone => raise AttributeError
  | VRef a =>
      h <- gets heap ;;
      match h !! a with
      | Some (OGlyphMap m) =>
          match PyDict.get glyphName m with
          | Some cps => ret (VRef cps)
          | None => a' <- allocM (OList []) ;; ret (VRef a')
          end
      | _ => raise AttributeError
      end
  end.

(** The body of the loop over the glyph names of the glyph set. *)
Definition commitGlyph (glyphSet : DictSetDelTracker.t) (glyphMap : pyval)
    (sourceConnection : option Connection) (writeToBackEnd : bool)
    (glyphName : string) : M State unit :=
  let writeKey := KTuple "glyphs" glyphName in
  value <- match PyDict.get glyphName (DictSetDelTracker.data glyphSet) with
           | Some v => ret v
           | None => raise (KeyError glyphName)
           end ;;
  (if decide (glyphName ∈ DictSetDelTracker.newKeys glyphSet)
   then cacheSet writeKey value else ret tt) ;;
  if negb writeToBackEnd then ret tt else
  assert_ isWritableFontBackend ;;
  copy <- deepcopy value ;;
  codePoints <- glyphMapGet glyphMap glyphName ;;
  scheduleDataWrite writeKey (PutGlyph glyphName copy codePoints)
    sourceConnection.

(** The body of the loop over the deleted keys of the glyph set. *)
Definition commitDeletedGlyph (sourceConnection : option Connection)
    (writeToBackEnd : bool) (glyphName : string) : M State unit :=
  let writeKey := KTuple "glyphs" glyphName in
  cachePop writeKey ;;
  if negb writeToBackEnd then ret tt else
  assert_ isWritableFontBackend ;;
  scheduleDataWrite writeKey (DeleteGlyph glyphName) sourceConnection.

(** The [else] branch: a root key other than ["glyphs"]. *)
Definition commitRootKey (rootObject : Font)
    (sourceConnection : option Connection) (writeToBackEnd : bool)
    (rootKey : string) : M State unit :=
  (if decide (rootKey ∈ _assignedAttributeNames rootObject)
   then match PyDict.get rootKey (attrs rootObject) with
        | Some v => cacheSet (KStr rootKey) v
        | None => raise AttributeError
        end
   else ret tt) ;;
  if negb writeToBackEnd then ret tt else
  assert_ isWritableFontBackend ;;
  value <- cacheGetItem (KStr rootKey) ;;
  copy <- deepcopy value ;;
  scheduleDataWrite (KStr rootKey) (PutData rootKey copy) sourceConnection.

Definition _updateLocalData (rootKeys : list string) (rootObject : Font)
    (sourceConnection : option Connection) (writeToBackEnd : bool)
    : M State unit :=
  for_ (rootKeys ++ sorted (elements (_assignedAttributeNames rootObject)))
    (λ rootKey,
      if decide (rootKey = "glyphs") then
        glyphSet <- match glyphs rootObject with
                    | Some t => ret t
                    | None => raise AttributeError
                    end ;;
        glyphMap <- getData "glyphMap" ;;
        for_ (sorted (PyDict.keys (DictSetDelTracker.data glyphSet)))
          (commitGlyph glyphSet glyphMap sourceConnection writeToBackEnd) ;;
        for_ (sorted (elements (DictSetDelTracker.deletedKeys glyphSet)))
          (commitDeletedGlyph sourceConnection writeToBackEnd)
      else commitRootKey rootObject sourceConnection writeToBackEnd rootKey).

(** [applyChange(rootObject, change)], in place. *)
Definition applyChangeM (rootObject : Font) (change : Change) : M State Font :=
  λ s, let '(r, (rootObject', h)) := applyChange rootObject change (heap s) in
       match r with
       | inl e => (inl e, set_heap h s)
       | inr _ => (inr rootObject', set_heap h s)
       end.

Definition _updateLocalDataAndWriteToBackend (change : Change)
    (sourceConnection : option Connection) (isExternalChange : bool)
    : M State unit :=
  change <- (if isExternalChange then
               localPattern <- getLocalDataPattern ;;
               ret (filterChangePattern change localPattern)
             else ret (Some change)) ;;
  match change with
  | None => ret tt
  | Some change =>
      r <- _prepareRootObject change ;;
      let '(rootKeys, rootObject) := r in
      rootObject <- applyChangeM rootObject change ;;
      ro <- gets readOnly ;;
      _updateLocalData rootKeys rootObject sourceConnection
        (negb isExternalChange && negb ro)
  end.

Definition updateLocalDataWithExternalChange (change : Change) : M State unit :=
  _updateLocalDataAndWriteToBackend change None true.

Definition updateLocalDataAndWriteToBackend (change : Change)
    (sourceConnection : option Connection) : M State unit :=
  _updateLocalDataAndWriteToBackend change sourceConnection false.

(** [editFinal]; [rollbackChange] and [editLabel] are unused by the code. *)
Definition editFinal (finalChange : Change) (broadcast : bool)
    (connection : Connection) : M State unit :=
  updateLocalDataAndWriteToBackend finalChange (Some connection) ;;
  if broadcast then broadcastChange finalChange (Some connection) false
  else ret tt.
(** *** The write scheduler *)

Definition resolveGlyph (v : pyval) (h : store) : exn + option VariableGlyph :=
  match v with
  | VNone => inr None
  | VRef a => match h !! a with
              | Some (OGlyph g) => inr (Some g)
              | _ => inl TypeError
              end
  end.

Definition resolveList (v : pyval) (h : store) : exn + list Z :=
  match v with
  | VRef a => match h !! a with
              | Some (OList l) => inr l
              | _ => inl TypeError
              end
  | VNone => inl TypeError
  end.

Definition resolveData (v : pyval) (h : store) : exn + data :=
  match v with
  | VRef a => match h !! a with
              | Some (OData d) => inr d
              | _ => inl TypeError
              end
  | VNone => inl TypeError
  end.

Definition resolveGlyphMap (v : pyval) (h : store)
    : exn + list (string * list Z) :=
  match v with
  | VRef a =>
      match h !! a with
      | Some (OGlyphMap m) =>
          comprehension (λ '(n, a'),
            match resolveList (VRef a') h with
            | inl e => inl e
            | inr l => inr (n, l)
            end) m
      | _ => inl TypeError
      end
  | VNone => inl TypeError
  end.

(** [_putData]; the arguments are read from the store when the call is
    made. *)
Definition _putData (key : string) (value : pyval) : M State unit :=
  assert_ isWritableFontBackend ;;
  h <- gets heap ;;
  if decide (key = "axes") then
    d <- lift (resolveData value h) ;;
    callBackend (CallWrite (PutData key value)) (be_putGlobalAxes d)
  else if decide (key = "glyphMap") then
    d <- lift (resolveGlyphMap value h) ;;
    callBackend (CallWrite (PutData key value)) (be_putGlyphMap d)
  else if decide (key = "customData") then
    d <- lift (resolveData value h) ;;
    callBackend (CallWrite (PutData key value)) (be_putCustomData d)
  else if decide (key = "unitsPerEm") then
    d <- lift (resolveData value h) ;;
    callBackend (CallWrite (PutData key value)) (be_putUnitsPerEm d)
  else raise (KeyError key).

(** [await writeFunc()] *)
Definition callWriteFunc (f : writeFunc) : M State unit :=
  match f with
  | PutGlyph glyphName glyph codePoints =>
      h <- gets heap ;;
      g <- lift (resolveGlyph glyph h) ;;
      cps <- lift (resolveList codePoints h) ;;
      callBackend (CallWrite f) (be_putGlyph glyphName g cps)
  | DeleteGlyph glyphName =>
      callBackend (CallWrite f) (be_deleteGlyph glyphName)
  | PutData key value => _putData key value
  end.

(** The [except] clause of [_processWritesOneCycle]. *)
Definition handleWriteError (reloadPattern : pattern)
    (connection : option Connection) (e : exn) : M State unit :=
  reloadData reloadPattern ;;
  match connection with
  | Some c =>
      awaitProxy c (messageFromServer
        "The data could not be saved due to an error."
        ("The edit has been reverted." ++ nl ++ nl ++ repr e))
  | None =>
      (* No connection to inform, let's error *)
      raise e
  end.

(** The body of the loop of [_processWritesOneCycle], for a queue that is
    not empty. *)
Definition _processWritesOneItem : M State unit :=
  q <- gets _dataScheduledForWriting ;;
  item <- lift (popFirstItem (default [] q)) ;;
  let '((writeKey, (writeFunc, connection)), q') := item in
  modify (set_dataScheduledForWriting (Some q')) ;;
  let reloadPattern := _writeKeyToPattern writeKey in
  try_except (callWriteFunc writeFunc)
    (handleWriteError reloadPattern connection).

(** [while self._dataScheduledForWriting: ...]; [n] bounds the number of
    passes. *)
Fixpoint _processWritesLoop (n : nat) : M State unit :=
  match n with
  | 0 => ret tt
  | S n' =>
      q <- gets _dataScheduledForWriting ;;
      match q with
      | None | Some [] => ret tt
      | Some _ => _processWritesOneItem ;; _processWritesLoop n'
      end
  end.

(** [_processWritesOneCycle]: no write is scheduled while the loop runs
    here, so one pass per pending entry is enough. *)
Definition _processWritesOneCycle : M State unit :=
  λ s, _processWritesLoop (length (default [] (_dataScheduledForWriting s))) s.

(** [_processWritesTaskDone] *)
Definition _processWritesTaskDone (s : State) : State :=
  (* Signal that the write-"thread" is no longer running *)
  set_dataScheduledForWriting None s.

(** One turn of the [while True] loop of [processWrites], once the event
    is set.  An exception ends the task, and the done-callback runs. *)
Definition processWrites : M State unit :=
  λ s, match
         try_finally
           (try_except _processWritesOneCycle (λ e,
              modify (set_processWritesError (Some e)) ;; raise e))
           (λ s, set_writingInProgressEvent true (set_processWritesEvent false s))
           s
       with
       | (inl e, s') => (inl e, _processWritesTaskDone s')
       | (inr r, s') => (inr r, s')
       end.

(** [finishWriting]: raises the stored error, returns once the event is
    set ([true]), or keeps waiting ([false]). *)
Definition finishWriting : M State bool :=
  e <- gets _processWritesError ;;
  match e with
  | Some e => raise e
  | None =>
      ev <- gets _writingInProgressEvent ;;
      if ev : bool then ret true else ret false
  end.

(** One item of the stream consumed by [processExternalChanges]; an
    exception is logged and dropped. *)
Definition processExternalChange (change : option Change)
    (reloadPattern : option pattern) : M State unit :=
  try_except
    ((match change with
      | Some change =>
          updateLocalDataWithExternalChange change ;;
          broadcastChange change None false
      | None => ret tt
      end) ;;
     match reloadPattern with
     | Some reloadPattern => reloadData reloadPattern
     | None => ret tt
     end)
    (λ _, ret tt).
(** *** The handler as a system: what can happen to it, one step at a
    time.  A step is a call of a client, an item from the watcher of the
    backend, or a turn of the write task. *)
Inductive Request :=
| Connect (connection : Connection)
| Disconnect (connection : Connection)
| GetGlyph (glyphName : string)
| GetData (key : string)
| SubscribeChanges (pathOrPattern : list string + pattern)
    (wantLiveChanges : bool) (connection : Connection)
| UnsubscribeChanges (pathOrPattern : list string + pattern)
    (wantLiveChanges : bool) (connection : Connection)
| EditIncremental (liveChange : Change) (connection : Connection)
| EditFinal (finalChange : Change) (broadcast : bool) (connection : Connection)
| UpdateLocalData (change : Change) (sourceConnection : option Connection)
| ExternalChange (change : option Change) (reloadPattern : option pattern)
| WriterTurn
| FinishWriting.

(** The write task runs when its event is set; it is gone once
    [_processWritesTaskDone] has run. *)
Definition writerTurn : M State unit :=
  λ s, match _dataScheduledForWriting s with
       | None => (inr tt, s)
       | Some _ => if _processWritesEvent s then processWrites s else (inr tt, s)
       end.

Definition handle (r : Request) : M State unit :=
  match r with
  | Connect c => modify (addConnection c)
  | Disconnect c => removeConnection c
  | GetGlyph n => getGlyph n ;; ret tt
  | GetData k => getData k ;; ret tt
  | SubscribeChanges p live c => modify (subscribeChanges p live c)
  | UnsubscribeChanges p live c => modify (unsubscribeChanges p live c)
  | EditIncremental change c => editIncremental change c
  | EditFinal change broadcast c => editFinal change broadcast c
  | UpdateLocalData change c => updateLocalDataAndWriteToBackend change c
  | ExternalChange change reloadPattern =>
      processExternalChange change reloadPattern
  | WriterTurn => writerTurn
  | FinishWriting => finishWriting ;; ret tt
  end.

(** A run: the steps one after the other, whatever each returns or
    raises. *)
Definition run (rs : list Request) (s : State) : State :=
  foldl (λ s r, (handle r s).2) s rs.
End Handler.

(** ** A small instance, to run the handler on concrete inputs

    A change language with four kinds of change, and a backend that keeps
    the font in memory and can be told to refuse writes. *)
Module Demo.
Inductive change :=
| NewGlyph (glyphName : string) (g : VariableGlyph)
    (* at ["glyphs"]: glyphs[glyphName] = g *)
| EditGlyph (glyphName : string) (g : VariableGlyph)
    (* below ["glyphs", glyphName]: the glyph object is changed in place *)
| SetRoot (key : string) (d : data)
    (* at []: root.key = d *)
| AppendCodePoint (glyphName : string) (cp : Z).
    (* at ["glyphMap", glyphName]: the list is extended in place *)

Definition path (c : change) : list string :=
  match c with
  | NewGlyph _ _ => ["glyphs"]
  | EditGlyph n _ => ["glyphs"; n]
  | SetRoot k _ => [k]
  | AppendCodePoint n _ => ["glyphMap"; n]
  end.

Definition paths (c : change) (depth : nat) : list (list string) :=
  if decide (depth ≤ length (path c))%nat then [take depth (path c)] else [].

(** The pattern reaches a leaf along the path of the change, or the path
    ends inside the pattern. *)
Fixpoint matchPath (p : list string) (pat : pattern) : bool :=
  match p with
  | [] => truthy pat
  | k :: rest =>
      match PyDict.get k (items pat) with
      | None => false
      | Some None => true
      | Some (Some sub) => matchPath rest sub
      end
  end.

Definition matches (c : change) (pat : pattern) : bool :=
  matchPath (path c) pat.

Definition restrict (c : change) (pat : pattern) : option change :=
  if matches c pat then Some c else None.

Definition apply (root : Font) (c : change) (h : store)
    : (exn + unit) * (Font * store) :=
  match c with
  | NewGlyph n g =>
      match glyphs root with
      | Some t =>
          let '(a, h') := alloc (OGlyph g) h in
          (inr tt, ({| attrs := attrs root;
                       glyphs := Some (DictSetDelTracker.setitem n (VRef a) t);
                       _assignedAttributeNames := _assignedAttributeNames root |},
                    h'))
      | None => (inl AttributeError, (root, h))
      end
  | EditGlyph n g =>
      match glyphs root with
      | Some t =>
          match PyDict.get n (DictSetDelTracker.data t) with
          | Some (VRef a) => (inr tt, (root, <[a := OGlyph g]> h))
          | _ => (inl AttributeError, (root, h))
          end
      | None => (inl AttributeError, (root, h))
      end
  | SetRoot k d =>
      let '(a, h') := alloc (OData d) h in
      (inr tt, ({| attrs := PyDict.set k (VRef a) (attrs root);
                   glyphs := glyphs root;
                   _assignedAttributeNames := _assignedAttributeNames root ∪ {[k]} |},
                h'))
  | AppendCodePoint n cp =>
      match PyDict.get "glyphMap" (attrs root) with
      | Some (VRef a) =>
          match h !! a with
          | Some (OGlyphMap m) =>
              match PyDict.get n m with
              | Some cps =>
                  match h !! cps with
                  | Some (OList l) => (inr tt, (root, <[cps := OList (l ++ [cp])]> h))
                  | _ => (inl TypeError, (root, h))
                  end
              | None => (inl (KeyError n), (root, h))
              end
          | _ => (inl TypeError, (root, h))
          end
      | _ => (inl AttributeError, (root, h))
      end
  end.

#[global] Instance changes : ChangeAlgebra change := {|
  collectChangePaths := paths;
  matchChangePattern := matches;
  filterChangePattern := restrict;
  applyChange := apply
|}.

(** The in-memory backend. *)
Record font := {
  fGlyphs : PyDict.t string VariableGlyph;
  fAxes : data;
  fGlyphMap : list (string * list Z);
  fCustomData : data;
  fUnitsPerEm : data;
  refuseWrites : bool
}.

Definition write (f : font → font) (b : font) : (exn + unit) * font :=
  if refuseWrites b then (inl (BackendError 1), b) else (inr tt, f b).

Definition withGlyphs (g : PyDict.t string VariableGlyph) (b : font) : font :=
  {| fGlyphs := g; fAxes := fAxes b; fGlyphMap := fGlyphMap b;
     fCustomData := fCustomData b; fUnitsPerEm := fUnitsPerEm b;
     refuseWrites := refuseWrites b |}.

#[global] Instance memoryBackend : Backend font := {|
  isWritableFontBackend := true;
  be_getGlyph := λ n b, (inr (PyDict.get n (fGlyphs b)), b);
  be_getGlobalAxes := λ b, (inr (fAxes b), b);
  be_getGlyphMap := λ b, (inr (fGlyphMap b), b);
  be_getCustomData := λ b, (inr (fCustomData b), b);
  be_getUnitsPerEm := λ b, (inr (fUnitsPerEm b), b);
  be_putGlyph := λ n g cps,
    write (λ b,
      let b' := match g with
                | Some g => withGlyphs (PyDict.set n g (fGlyphs b)) b
                | None => b
                end in
      {| fGlyphs := fGlyphs b'; fAxes := fAxes b';
         fGlyphMap := PyDict.set n cps (fGlyphMap b');
         fCustomData := fCustomData b'; fUnitsPerEm := fUnitsPerEm b';
         refuseWrites := refuseWrites b' |});
  be_deleteGlyph := λ n,
    write (λ b, withGlyphs (PyDict.remove n (fGlyphs b)) b);
  be_putGlobalAxes := λ d,
    write (λ b, {| fGlyphs := fGlyphs b; fAxes := d; fGlyphMap := fGlyphMap b;
                   fCustomData := fCustomData b; fUnitsPerEm := fUnitsPerEm b;
                   refuseWrites := refuseWrites b |});
  be_putGlyphMap := λ m,
    write (λ b, {| fGlyphs := fGlyphs b; fAxes := fAxes b; fGlyphMap := m;
                   fCustomData := fCustomData b; fUnitsPerEm := fUnitsPerEm b;
                   refuseWrites := refuseWrites b |});
  be_putCustomData := λ d,
    write (λ b, {| fGlyphs := fGlyphs b; fAxes := fAxes b; fGlyphMap := fGlyphMap b;
                   fCustomData := d; fUnitsPerEm := fUnitsPerEm b;
                   refuseWrites := refuseWrites b |});
  be_putUnitsPerEm := λ d,
    write (λ b, {| fGlyphs := fGlyphs b; fAxes := fAxes b; fGlyphMap := fGlyphMap b;
                   fCustomData := fCustomData b; fUnitsPerEm := d;
                   refuseWrites := refuseWrites b |})
|}.

Definition comp (n : string) : Component := {| name := n |}.

(** A glyph with one layer made of the given components. *)
Definition glyphOf (cs : list string) : VariableGlyph :=
  {| layers := [("default", {| glyph := {| components := comp <$> cs |} |})] |}.

Definition aFont : font :=
  {| fGlyphs := [("A", glyphOf []); ("acute", glyphOf []);
                 ("Aacute", glyphOf ["A"; "acute"])];
     fAxes := DList [];
     fGlyphMap := [("A", [65%Z]); ("Aacute", [193%Z])];
     fCustomData := DDict [];
     fUnitsPerEm := DInt 1000;
     refuseWrites := false |}.

Definition alice : Connection :=
  {| connId := 1; clientUUID := "alice"; proxy := [] |}.
Definition bob : Connection :=
  {| connId := 2; clientUUID := "bob"; proxy := [] |}.

(** The connection of Carol is lost: the first awaited call on her proxy
    raises. *)
Definition carol : Connection :=
  {| connId := 3; clientUUID := "carol"; proxy := [Some ConnectionError] |}.

Definition State := FontHandler change font.

Definition refusing (b : font) : font :=
  {| fGlyphs := fGlyphs b; fAxes := fAxes b; fGlyphMap := fGlyphMap b;
     fCustomData := fCustomData b; fUnitsPerEm := fUnitsPerEm b;
     refuseWrites := true |}.

(** Alice and Bob are connected; Bob has subscribed to glyph "A" on the
    committed tier. *)
Definition session (b : font) (readOnly dummyEditor : bool) : State :=
  subscribeChanges (inl ["glyphs"; "A"]) false bob
    (addConnection bob
       (addConnection alice (__post_init__ b readOnly dummyEditor 128))).

(** An edit of glyph "A": it now has the component "acute". *)
Definition editA : change := EditGlyph "A" (glyphOf ["acute"]).

(** The backend refuses the write of an edit that came without a
    connection: the write task ends. *)
Definition stopped : State :=
  run [UpdateLocalData editA None; WriterTurn] (session (refusing aFont) false false).
End Demo.

(** ** Vocabulary of the properties *)

Section Vocabulary.
Context {Change B : Type} `{!ChangeAlgebra Change, !Backend B}.
Local Abbreviation State := (FontHandler Change B).

(** [d.get(k, set())] for the two indices of the dependency tracker. *)
Definition setAt (m : gmap string (gset string)) (k : string) : gset string :=
  default ∅ (m !! k).

(** The components of a glyph, as [updateGlyphDependencies] collects them. *)
Definition componentSet (glyph : VariableGlyph) : gset string :=
  list_to_set (_iterAllComponentNames glyph).

(** [g ∈ glyphUsedBy[c] ⇔ c ∈ glyphMadeOf[g]] *)
Definition depsConsistent (s : State) : Prop :=
  ∀ g c, g ∈ setAt (glyphUsedBy s) c ↔ c ∈ setAt (glyphMadeOf s) g.
End Vocabulary.

(** A pattern is a Python dict at every level: no key occurs twice. *)
Fixpoint wfPattern (p : pattern) : bool :=
  bool_decide (NoDup (PyDict.keys (items p)))
  && forallb (λ kv, match kv.2 with
                    | Some q => wfPattern q
                    | None => true
                    end) (items p).

(** The subscription of a connection on a tier. *)
Definition tierKey (wantLiveChanges : bool) : string :=
  if wantLiveChanges then LIVE_CHANGES_PATTERN_KEY else CHANGES_PATTERN_KEY.

Definition subscription {Change B} (connection : Connection)
    (wantLiveChanges : bool) (s : FontHandler Change B) : pattern :=
  _getClientData connection (tierKey wantLiveChanges) emptyPattern s.

(** No root key of [a] is a root key of [b]. *)
Definition noCommonKey (a b : pattern) : Prop :=
  ∀ k, k ∈ PyDict.keys (items a) → PyDict.get k (items b) = None.

(** The number of pending writes for a key. *)
Definition pending {Change B} (k : DataKey) (s : FontHandler Change B) : nat :=
  length (List.filter (λ kv, bool_decide (kv.1 = k))
            (default [] (_dataScheduledForWriting s))).

(** The thunk and connection that the last of the writes [ws] for key [k]
    carries, [d] if there is none. *)
Fixpoint lastFor (k : DataKey) (d : writeFunc * option Connection)
    (ws : list (DataKey * (writeFunc * option Connection)))
    : writeFunc * option Connection :=
  match ws with
  | [] => d
  | (k', v) :: ws' => lastFor k (if decide (k' = k) then v else d) ws'
  end.

(** No key is pending twice. *)
Definition queueOK {Change B} (s : FontHandler Change B) : Prop :=
  match _dataScheduledForWriting s with
  | Some q => NoDup (PyDict.keys q)
  | None => True
  end.

(** Scheduling the writes [ws] one after the other. *)
Definition scheduleAll {Change B} `{!ChangeAlgebra Change, !Backend B}
    (ws : list (DataKey * (writeFunc * option Connection)))
    (s : FontHandler Change B) : FontHandler Change B :=
  foldl (λ s w, (scheduleDataWrite w.1 w.2.1 w.2.2 s).2) s ws.

(** The writes of a queue run in the order of the queue, first entry
    first: each entry in turn is taken off the queue, its thunk is called,
    and a failure of the thunk is handled; an exception that leaves the
    handling ends the pass with the entries after it still pending. *)
Definition writeInOrder {Change B} `{!ChangeAlgebra Change, !Backend B}
    (q : WriteQueue) : M (FontHandler Change B) unit :=
  for_ q (λ '(writeKey, (writeFunc, connection)),
    modify (λ s, set_dataScheduledForWriting
                   (PyDict.remove writeKey <$> _dataScheduledForWriting s) s) ;;
    try_except (callWriteFunc writeFunc)
      (handleWriteError (_writeKeyToPattern writeKey) connection)).

(** The thunks that the log records as called, in the order of the calls. *)
Definition writesOf {Change} (l : list (Effect Change)) : list writeFunc :=
  omap (λ e, match e with
             | BackendCalled (CallWrite f) => Some f
             | _ => None
             end) l.

(** Every awaited call on the proxy of the connection returns. *)
Definition returns (connection : Connection) : Prop :=
  Forall (λ outcome, outcome = None) (proxy connection).

(** What [reloadData] tells the clients. *)
Definition reloadNotices {Change B} (reloadPattern : pattern)
    (s : FontHandler Change B) : list (Effect Change) :=
  map (λ cp, Awaited cp.1 (reloadDataCall cp.2))
      (connReloadPatterns reloadPattern s).

(** The keys that the first loop of [reloadData] pops, in order. *)
Definition droppedKeys (reloadPattern : pattern) : list DataKey :=
  kv ← items reloadPattern;
  if decide (kv.1 = "glyphs") then
    match kv.2 with
    | Some sub => KTuple "glyphs" <$> PyDict.keys (items sub)
    | None => []
    end
  else [KStr kv.1].

Definition popAll (ks : list DataKey) (c : LRUCache.t) : LRUCache.t :=
  foldl (λ c k, LRUCache.pop k c) c ks.

(** The value of ["glyphs"], where there is one, is a mapping. *)
Definition glyphsIsMapping (reloadPattern : pattern) : Prop :=
  ∀ kv, kv ∈ items reloadPattern → kv.1 = "glyphs" → is_Some kv.2.

(** The keys that the handler schedules writes for: a root key other than
    ["glyphs"], or a pair [("glyphs", glyphName)]. *)
Definition writeKeyShape (k : DataKey) : Prop :=
  match k with
  | KStr key => key ≠ "glyphs"
  | KTuple rootKey _ => rootKey = "glyphs"
  end.

(** [m] calls of [getGlyph(glyphName)] in a row. *)
Definition getGlyphTimes {Change B} `{!ChangeAlgebra Change, !Backend B}
    (glyphName : string) (m : nat) (s : FontHandler Change B)
    : FontHandler Change B :=
  Nat.iter m (λ s, (getGlyph glyphName s).2) s.

(** The write task has ended on the error [e]. *)
Definition writerFailed {Change B} (e : exn) (s : FontHandler Change B) : Prop :=
  _processWritesError s = Some e ∧ _dataScheduledForWriting s = None.

(** The turn of the write task from [s] stops on [e]: [processWrites]
    raises [e], the task has ended with [e] stored, and from then on, after
    any further steps of the handler, [finishWriting] raises [e]. *)
Definition stopsOn {Change B} `{!ChangeAlgebra Change, !Backend B}
    (e : exn) (s : FontHandler Change B) : Prop :=
  ∃ s', processWrites s = (inl e, s')
        ∧ writerFailed e s'
        ∧ ∀ rs, finishWriting (run rs s') = (inl e, run rs s').

(** The notice that a client gets when its write has failed. *)
Definition revertNotice {Change} (c : Connection) (e : exn) : Effect Change :=
  Awaited c (messageFromServer
    "The data could not be saved due to an error."
    ("The edit has been reverted." ++ nl ++ nl ++ repr e)).




(** *** What the commit step of an edit leaves in the cache *)

(** The entry of the cache under a key, if there is one. *)
Definition cached {Change B} (k : DataKey) (s : FontHandler Change B)
    : option pyval :=
  PyDict.get k (LRUCache.entries (localData s)).






(** *** Who refers to what in the store *)

(** The addresses of the objects that make up a value: the object itself
    and, for a glyph map, its lists. *)
Definition reach (h : store) (v : pyval) : list addr :=
  match v with
  | VNone => []
  | VRef a => a :: match h !! a with
                   | Some (OGlyphMap m) => m.*2
                   | _ => []
                   end
  end.

(** The objects that the cache refers to. *)
Definition cacheReach {Change B} (s : FontHandler Change B) : list addr :=
  kv ← LRUCache.entries (localData s); reach (heap s) kv.2.

(** The value that the handler copies for a write: the glyph of
    [putGlyph], the value of [putGlobalAxes] and the like. *)
Definition copiedValue (f : writeFunc) : pyval :=
  match f with
  | PutGlyph _ glyph _ => glyph
  | DeleteGlyph _ => VNone
  | PutData _ value => value
  end.

(** The list that [putGlyph] is given as code points. *)
Definition codePointsOf (f : writeFunc) : pyval :=
  match f with
  | PutGlyph _ _ codePoints => codePoints
  | _ => VNone
  end.

(** The objects that the copied values of the pending writes are made
    of. *)
Definition payloadReach {Change B} (s : FontHandler Change B) : list addr :=
  kv ← default [] (_dataScheduledForWriting s);
  reach (heap s) (copiedValue kv.2.1).

(** The values that the root object of an edit holds. *)
Definition rootValues (rootObject : Font) : list pyval :=
  (attrs rootObject).*2
  ++ match glyphs rootObject with
     | Some t => (DictSetDelTracker.data t).*2
     | None => []
     end.

(** The objects of the root object are among [R]. *)
Definition rootWithin {Change B} (R : list addr) (rootObject : Font)
    (s : FontHandler Change B) : Prop :=
  ∀ v a, v ∈ rootValues rootObject → a ∈ reach (heap s) v → a ∈ R.

(** The copied values of the pending writes share no object with the
    cache nor with the objects [R]; every reference is to an object that
    exists. *)
Definition separated {Change B} (R : list addr) (s : FontHandler Change B)
    : Prop :=
  (∀ a, a ∈ cacheReach s → (a < length (heap s))%nat)
  ∧ (∀ a, a ∈ R → (a < length (heap s))%nat)
  ∧ (∀ p, p ∈ payloadReach s →
          (p < length (heap s))%nat ∧ (p ∉ cacheReach s) ∧ (p ∉ R)).

(** What a write hands to the backend for a value, whichever of the
    backend methods it is for. *)
Definition resolved (h : store) (v : pyval)
    : (exn + option VariableGlyph) * (exn + data)
      * (exn + list (string * list Z)) :=
  (resolveGlyph v h, resolveData v h, resolveGlyphMap v h).

(** ** Vocabulary of the proofs *)

(** [inv I m]: running [m] from a state in [I] ends in a state in [I],
    whether [m] returns or raises. *)
Definition inv {S A} (I : S → Prop) (m : M S A) : Prop :=
  ∀ s, I s → I (m s).2.

(** An invariant that does not look at the data the handler caches and
    logs. *)
Record IgnoresData {Change B : Type} (I : FontHandler Change B → Prop)
    : Prop := {
  ig_backend : ∀ b s, I s → I (set_backend b s);
  ig_glyphUsedBy : ∀ m s, I s → I (set_glyphUsedBy m s);
  ig_glyphMadeOf : ∀ m s, I s → I (set_glyphMadeOf m s);
  ig_localData : ∀ c s, I s → I (set_localData c s);
  ig_heap : ∀ h s, I s → I (set_heap h s);
  ig_effects : ∀ l s, I s → I (set_effects l s)
}.

(** A triple: from a state in [P], [m] returns [a] in a state in [Q a] or
    raises in a state in [E]. *)
Definition hoare {S A} (P : S → Prop) (m : M S A) (Q : A → S → Prop)
    (E : S → Prop) : Prop :=
  ∀ s, P s → match (m s).1 with
             | inr a => Q a (m s).2
             | inl _ => E (m s).2
             end.

(** Changes of objects of the store in place, one after the other. *)
Definition mutate (changes : list (addr * pyobj)) (h : store) : store :=
  foldl (λ h m, <[m.1 := m.2]> h) h changes.

(** The working invariant of the commit step: the copies are apart, and
    the objects of the root object are among [R]. *)
Definition sepRoot {Change B} (R : list addr) (root : Font)
    (s : FontHandler Change B) : Prop :=
  separated R s ∧ rootWithin R root s.

(** An object that exists and that nothing refers to: not the cache, not
    a copy in the queue, not [R]. *)
Definition unshared {Change B} (R : list addr) (a : addr)
    (s : FontHandler Change B) : Prop :=
  (a < length (heap s))%nat
  ∧ (a ∉ payloadReach s) ∧ (a ∉ cacheReach s) ∧ (a ∉ R).

(** A value made of such objects. *)
Definition unsharedVal {Change B} (R : list addr) (v : pyval)
    (s : FontHandler Change B) : Prop :=
  ∀ a, a ∈ reach (heap s) v → unshared R a s.

(** ** Vocabulary of further properties of the handler *)

(** What [applyChange] can do to the glyph set of a root object:
    [glyphs[key] = value] and [del glyphs[key]]. *)
Inductive trackerOp :=
| SetItem (key : string) (value : pyval)
| DelItem (key : string).

Definition applyOp (op : trackerOp) (t : DictSetDelTracker.t)
    : exn + DictSetDelTracker.t :=
  match op with
  | SetItem key value => inr (DictSetDelTracker.setitem key value t)
  | DelItem key => DictSetDelTracker.delitem key t
  end.

(** Operations one after the other; one that raises leaves the tracker as
    it was. *)
Definition applyOps (ops : list trackerOp) (t : DictSetDelTracker.t)
    : DictSetDelTracker.t :=
  foldl (λ t op, match applyOp op t with inr t' => t' | inl _ => t end) t ops.

(** What the operations keep: the keys of the dict are the keys it had
    at the start ([d]) and the new keys, no new key is one it had at the
    start, and no deleted key is in the dict. *)
Definition tracked (d : PyDict.t string pyval) (t : DictSetDelTracker.t)
    : Prop :=
  (∀ k, k ∈ PyDict.keys (DictSetDelTracker.data t)
        ↔ k ∈ PyDict.keys d ∨ k ∈ DictSetDelTracker.newKeys t)
  ∧ (∀ k, k ∈ DictSetDelTracker.newKeys t → k ∉ PyDict.keys d)
  ∧ (∀ k, k ∈ DictSetDelTracker.deletedKeys t
          → k ∉ PyDict.keys (DictSetDelTracker.data t)).

(** The root keys that [_getData] and [_putData] know. *)
Definition dataKeys : list string :=
  ["axes"; "glyphMap"; "customData"; "unitsPerEm"].

(** Every key of the cache is a root key other than ["glyphs"] or a pair
    [("glyphs", glyphName)]. *)
Definition cacheKeysOK {Change B} (s : FontHandler Change B) : Prop :=
  ∀ k, k ∈ LRUCache.keys (localData s) → writeKeyShape k.

(** The loop of [_getLocalDataPattern], from the keys and the pattern it
    has reached. *)
Definition localPatternLoop (keys : list DataKey)
    (localPattern : list (string * option pattern)) : exn + pattern :=
  (fix loop (keys : list DataKey) (localPattern : list (string * option pattern))
     : exn + pattern :=
     match keys with
     | [] => inr (PDict localPattern)
     | KTuple rootKey subKey :: keys' =>
         match PyDict.get rootKey localPattern with
         | None =>
             loop keys' (PyDict.set rootKey (Some (PDict [(subKey, None)]))
                           localPattern)
         | Some (Some subPattern) =>
             loop keys' (PyDict.set rootKey
                           (Some (PDict (PyDict.set subKey None (items subPattern))))
                           localPattern)
         | Some None => inl TypeError
         end
     | KStr key :: keys' => loop keys' (PyDict.set key None localPattern)
     end) keys localPattern.

(** What an entry of a reload pattern makes [reloadData] pop. *)
Definition droppedBy (kv : string * option pattern) : list DataKey :=
  if decide (kv.1 = "glyphs") then
    match kv.2 with
    | Some sub => KTuple "glyphs" <$> PyDict.keys (items sub)
    | None => []
    end
  else [KStr kv.1].

(** A request that subscribes or unsubscribes the client of [connection]
    on the tier [wantLiveChanges]. *)
Definition adjusts {Change} (connection : Connection) (wantLiveChanges : bool)
    (r : Request (Change:=Change)) : Prop :=
  match r with
  | SubscribeChanges _ live c | UnsubscribeChanges _ live c =>
      clientUUID c = clientUUID connection ∧ live = wantLiveChanges
  | _ => False
  end.

(** The write task is alive and a write is pending for every key in
    [keys]. *)
Definition pendingAll {Change B} (keys : DataKey → Prop)
    (s : FontHandler Change B) : Prop :=
  ∃ q, _dataScheduledForWriting s = Some q
       ∧ ∀ k, keys k → k ∈ PyDict.keys q.

(** The keys that the commit step writes for a root key of the loop. *)
Definition keysOf (rootObject : Font) (rootKey : string) (k : DataKey) : Prop :=
  if decide (rootKey = "glyphs") then
    ∃ t n, glyphs rootObject = Some t
           ∧ (n ∈ PyDict.keys (DictSetDelTracker.data t)
              ∨ n ∈ DictSetDelTracker.deletedKeys t)
           ∧ k = KTuple "glyphs" n
  else k = KStr rootKey.

(** * A shallow embedding of the workflow set-up

    Source: [src/fontra/workflow/workflow.py].

    A workflow is configured by a nested list of raw steps, read from a
    YAML or JSON file.  [_structureSteps] turns the raw steps into
    [ActionStep]s; [_prepareEndPoints] instantiates the actions, connects
    them and enters their context managers on an exit stack. *)
Module Workflow.

(** A configuration value.  Numbers are integers here: a float behaves as
    an integer does in this code, it can neither be iterated nor
    subscripted. *)
#[warnings="-register-all"]
Inductive raw :=
| RNone
| RBool (b : bool)
| RInt (n : Z)
| RStr (s : string)
| RList (l : list raw)
| RDict (d : list (string * raw)).

(** [ActionStep]; its field [action] is [None] from the start and this
    file never assigns it. *)
#[warnings="-register-all"]
Inductive ActionStep :=
  mkActionStep (name : raw) (arguments : PyDict.t string raw)
    (steps : list ActionStep).

Definition name (step : ActionStep) : raw :=
  let 'mkActionStep name _ _ := step in name.
Definition arguments (step : ActionStep) : PyDict.t string raw :=
  let 'mkActionStep _ arguments _ := step in arguments.
Definition steps (step : ActionStep) : list ActionStep :=
  let 'mkActionStep _ _ steps := step in steps.

(** The characters of a string, each a string of its own. *)
Fixpoint characters (s : string) : list string :=
  match s with
  | EmptyString => []
  | String c s' => String c "" :: characters s'
  end.

(** [for x in v]: a list gives its elements, a dict its keys, a string
    its characters; nothing else is iterable. *)
Definition iter (v : raw) : exn + list raw :=
  match v with
  | RList l => inr l
  | RDict d => inr (RStr <$> PyDict.keys d)
  | RStr s => inr (RStr <$> characters s)
  | _ => inl TypeError
  end.

(** [v[key]] for a string [key]: only a dict takes one. *)
Definition getitem (v : raw) (key : string) : exn + raw :=
  match v with
  | RDict d =>
      match PyDict.get key d with
      | Some x => inr x
      | None => inl (KeyError key)
      end
  | _ => inl TypeError
  end.

(** [_structureSteps].  The nesting of the steps is taken to stay below
    the recursion limit of Python.  The recursion is on the value of
    ["steps"] in a raw step; it is looked up by a loop over the entries of the raw step,
    which is what makes the recursion structural ([arguments] is the raw
    step without ["action"], so the value is the same, see
    [_structureSteps_eq] for the function in the shape of the source).
    Iterating a dict or a string gives strings, and [rawStep["action"]]
    on a string raises [TypeError]. *)
Fixpoint _structureSteps (rawSteps : raw) : exn + list ActionStep :=
  match rawSteps with
  | RList l =>
      (fix loop (l : list raw) : exn + list ActionStep :=
         match l with
         | [] => inr []
         | RDict rawStep :: l' =>
             match PyDict.get "action" rawStep with
             | None => inl (KeyError "action")
             | Some actionName =>
                 let arguments := PyDict.remove "action" rawStep in
                 match
                   (* _structureSteps(arguments.pop("steps", [])) *)
                   (fix pop (d : list (string * raw)) : exn + list ActionStep :=
                      match d with
                      | [] => inr []
                      | (k, v) :: d' =>
                          if decide ("steps" = k) then _structureSteps v
                          else pop d'
                      end) rawStep
                 with
                 | inl e => inl e
                 | inr subSteps =>
                     match loop l' with
                     | inl e => inl e
                     | inr structured =>
                         inr (mkActionStep actionName
                                (PyDict.remove "steps" arguments) subSteps
                              :: structured)
                     end
                 end
             end
         | _ :: _ => inl TypeError
         end) l
  | RDict [] => inr []
  | RDict (_ :: _) => inl TypeError
  | RStr s => if decide (s = "") then inr [] else inl TypeError
  | _ => inl TypeError
  end.

(** The body of the loop of [_structureSteps], statement by statement as
    the source has it. *)
Definition _structureStep (rawStep : raw) : exn + ActionStep :=
  match getitem rawStep "action" with
  | inl e => inl e
  | inr actionName =>
      match rawStep with
      | RDict rawStep =>
          (* arguments = dict(rawStep); arguments.pop("action") *)
          let arguments := PyDict.remove "action" rawStep in
          match _structureSteps
                  (default (RList []) (PyDict.get "steps" arguments)) with
          | inl e => inl e
          | inr subSteps =>
              inr (mkActionStep actionName (PyDict.remove "steps" arguments)
                     subSteps)
          end
      | _ => inl TypeError
      end
  end.

(** [Workflow(config=config)]: [__post_init__] computes the steps. *)
Definition __post_init__ (config : raw) : exn + list ActionStep :=
  match getitem config "steps" with
  | inl e => inl e
  | inr rawSteps => _structureSteps rawSteps
  end.

(** The collaborators of [_prepareEndPoints]: the registry of actions
    ([getActionClass]), the action classes, the protocols that
    [isinstance] tests, the context managers that [connect] and [prepare]
    return, and [FontBackendMerger].  Their code is not at hand and
    nothing is assumed of them.  [W] is the state of the world they act
    on, [obj] the type of the objects they make and [cls] that of the
    action classes; [None] is not an [obj]. *)
Class Actions (W obj cls : Type) := {
  getActionClass : raw → W → (exn + cls) * W;
  (* actionClass( **arguments ) *)
  construct : cls → PyDict.t string raw → W → (exn + obj) * W;
  isOutputAction : obj → bool;
  isConnectableAction : obj → bool;
  isInputAction : obj → bool;
  isReadableFontBackend : obj → bool;
  (* entering [action.connect(input)]: what the context manager yields *)
  connect : obj → obj → W → (exn + option obj) * W;
  (* entering [action.prepare()] *)
  prepare : obj → W → (exn + option obj) * W;
  FontBackendMerger : obj → option obj → obj
}.

(** A context manager made by an action. *)
Inductive ContextManager (obj : Type) :=
| Connect (action input : obj)
| Prepare (action : obj).
Arguments Connect {obj}.
Arguments Prepare {obj}.

(** The world and the [AsyncExitStack]: the context managers entered, the
    first one first. *)
Record State {W obj : Type} := {
  world : W;
  exitStack : list (ContextManager obj)
}.
Arguments State : clear implicits.

Section Prepare.
Context {W obj cls : Type} `{!Actions W obj cls}.

Local Abbreviation St := (State W obj).

(** A call of a collaborator. *)
Definition call {A} (f : W → (exn + A) * W) : M St A :=
  λ s, let '(r, w) := f (world s) in
       (r, {| world := w; exitStack := exitStack s |}).

(** [await exitStack.enter_async_context(cm)]: the context manager is
    pushed once it has been entered. *)
Definition enter_async_context (cm : ContextManager obj) : M St (option obj) :=
  λ s, let '(r, w) := match cm with
                      | Connect action input => connect action input (world s)
                      | Prepare action => prepare action (world s)
                      end in
       match r with
       | inl e => (inl e, {| world := w; exitStack := exitStack s |})
       | inr yielded =>
           (inr yielded, {| world := w; exitStack := exitStack s ++ [cm] |})
       end.

(** [isinstance(v, ReadableFontBackend)]; [None] is no instance. *)
Definition isReadable (v : option obj) : bool :=
  match v with
  | Some o => isReadableFontBackend o
  | None => false
  end.

(** [WorkflowEndPoints] *)
Record WorkflowEndPoints := {
  endPoint : option obj;
  outputs : list (option obj)
}.

(** The body of the loop of [_prepareEndPoints] for one step, on the
    local variables [currentInput] and [outputs]; the first argument is
    [_prepareEndPoints] itself, for the call on the steps of the step.
    What a call returns is the pair of the end point and the outputs. *)
Definition loopBody
    (_prepareEndPoints : option obj → list ActionStep
                         → M St (option obj * list (option obj)))
    (step : ActionStep) (currentInput : option obj)
    (outputs : list (option obj)) : M St (option obj * list (option obj)) :=
  actionClass <- call (getActionClass (name step)) ;;
  action <- call (construct actionClass (arguments step)) ;;
  if isOutputAction action then
    (* output *)
    assert_ (isConnectableAction action) ;;
    assert_ (bool_decide (currentInput ≠ None)) ;;
    (* set up nested steps *)
    r <- _prepareEndPoints currentInput (steps step) ;;
    let '(outputStepsResult, moreOutput) := r in
    let outputs := outputs ++ moreOutput in
    assert_ (isReadable outputStepsResult) ;;
    match outputStepsResult with
    | Some outputStepsResult =>
        action <- enter_async_context (Connect action outputStepsResult) ;;
        ret (currentInput, outputs ++ [action])
    | None => raise AssertionError
    end
  else if isConnectableAction action then
    (* filter *)
    assert_ (isReadableFontBackend action) ;;
    match currentInput with
    | None => raise AssertionError
    | Some input =>
        action <- enter_async_context (Connect action input) ;;
        (* set up nested steps *)
        r <- _prepareEndPoints action (steps step) ;;
        let '(action, moreOutput) := r in
        ret (action, outputs ++ moreOutput)
    end
  else if isInputAction action then
    (* input *)
    action <- enter_async_context (Prepare action) ;;
    assert_ (isReadable action) ;;
    (* set up nested steps *)
    r <- _prepareEndPoints action (steps step) ;;
    let '(action, moreOutput) := r in
    let outputs := outputs ++ moreOutput in
    match currentInput with
    | None => ret (action, outputs)
    | Some inputA => ret (Some (FontBackendMerger inputA action), outputs)
    end
  else raise AssertionError.

(** One pass of the loop of [_prepareEndPoints].  The recursion is on the
    nesting of the steps: the call on the steps of the step is the loop
    below, from [outputs = []]. *)
Fixpoint prepareStep (step : ActionStep) (currentInput : option obj)
    (outputs : list (option obj)) {struct step}
    : M St (option obj * list (option obj)) :=
  loopBody
    (λ currentInput steps,
       (fix prepareSteps (steps : list ActionStep) (currentInput : option obj)
            (outputs : list (option obj)) {struct steps}
            : M St (option obj * list (option obj)) :=
          match steps with
          | [] => ret (currentInput, outputs)
          | step :: steps' =>
              r <- prepareStep step currentInput outputs ;;
              prepareSteps steps' r.1 r.2
          end) steps currentInput [])
    step currentInput outputs.

(** The loop [for step in steps] of [_prepareEndPoints]. *)
Fixpoint prepareSteps (steps : list ActionStep) (currentInput : option obj)
    (outputs : list (option obj)) {struct steps}
    : M St (option obj * list (option obj)) :=
  match steps with
  | [] => ret (currentInput, outputs)
  | step :: steps' =>
      r <- prepareStep step currentInput outputs ;;
      prepareSteps steps' r.1 r.2
  end.

Definition _prepareEndPoints (currentInput : option obj)
    (steps : list ActionStep) : M St WorkflowEndPoints :=
  r <- prepareSteps steps currentInput [] ;;
  ret {| endPoint := r.1; outputs := r.2 |}.

(** [Workflow.endPoints]: the end points are prepared on a new exit
    stack. *)
Definition endPoints (steps : list ActionStep) (w : W)
    : (exn + WorkflowEndPoints) * St :=
  _prepareEndPoints None steps {| world := w; exitStack := [] |}.
End Prepare.

(** *** A small registry, to run the set-up on concrete steps: the
    actions ["input"], ["filter"] and ["output"], each made from one
    argument.  An object is an action or what its context manager
    yields. *)
Module Registry.
Inductive kind := InputClass | FilterClass | OutputClass.

#[warnings="-register-all"]
Inductive object :=
| InputAction (source : string)
| FilterAction (label : string)
| OutputAction (destination : string)
| Source (source : string)
| Filtered (label : string) (input : object)
| Merged (inputA : object) (inputB : option object)
| Sink (destination : string) (input : object).

Definition argument (key : string) (arguments : PyDict.t string raw)
    : exn + string :=
  match arguments with
  | [(k, RStr v)] => if decide (k = key) then inr v else inl TypeError
  | _ => inl TypeError
  end.

Definition lookup (name : raw) : exn + kind :=
  match name with
  | RStr n =>
      if decide (n = "input") then inr InputClass
      else if decide (n = "filter") then inr FilterClass
      else if decide (n = "output") then inr OutputClass
      else inl (KeyError n)
  | _ => inl TypeError
  end.

Definition make (c : kind) (arguments : PyDict.t string raw) : exn + object :=
  match c with
  | InputClass =>
      match argument "source" arguments with
      | inr v => inr (InputAction v)
      | inl e => inl e
      end
  | FilterClass =>
      match argument "label" arguments with
      | inr v => inr (FilterAction v)
      | inl e => inl e
      end
  | OutputClass =>
      match argument "destination" arguments with
      | inr v => inr (OutputAction v)
      | inl e => inl e
      end
  end.

#[global] Instance registry : Actions unit object kind := {|
  getActionClass := λ name w, (lookup name, w);
  construct := λ c arguments w, (make c arguments, w);
  isOutputAction := λ o, match o with OutputAction _ => true | _ => false end;
  isConnectableAction := λ o,
    match o with FilterAction _ | OutputAction _ => true | _ => false end;
  isInputAction := λ o, match o with InputAction _ => true | _ => false end;
  isReadableFontBackend := λ o,
    match o with
    | FilterAction _ | Source _ | Filtered _ _ | Merged _ _ => true
    | _ => false
    end;
  connect := λ action input w,
    match action with
    | FilterAction label => (inr (Some (Filtered label input)), w)
    | OutputAction destination => (inr (Some (Sink destination input)), w)
    | _ => (inl AttributeError, w)
    end;
  prepare := λ action w,
    match action with
    | InputAction source => (inr (Some (Source source)), w)
    | _ => (inl AttributeError, w)
    end;
  FontBackendMerger := Merged
|}.

Definition step (action argument value : string) (steps : list raw) : raw :=
  RDict ([("action", RStr action); (argument, RStr value)]
         ++ match steps with [] => [] | _ => [("steps", RList steps)] end).

(** Two sources are merged and filtered; the result goes to an output,
    through a filter of the output's own. *)
Definition config : raw :=
  RDict [("steps", RList [
    step "input" "source" "a.designspace" [];
    step "input" "source" "b.ufo" [];
    step "filter" "label" "scale" [];
    step "output" "destination" "out.fontra"
      [step "filter" "label" "subset" []]])].
End Registry.

(** *** Vocabulary of the properties *)

(** A value whose dicts have distinct keys, as every Python dict has. *)
Fixpoint wfRaw (v : raw) : bool :=
  match v with
  | RList l => forallb wfRaw l
  | RDict d => bool_decide (NoDup d.*1) && forallb (λ kv, wfRaw kv.2) d
  | _ => true
  end.

(** The arguments of the steps, at every depth, have neither the key
    ["action"] nor the key ["steps"]. *)
Fixpoint noReservedKey (step : ActionStep) : bool :=
  let 'mkActionStep _ arguments steps := step in
  bool_decide ("action" ∉ PyDict.keys arguments)
  && bool_decide ("steps" ∉ PyDict.keys arguments)
  && forallb noReservedKey steps.

(** A raw step that gives the step back: the action first, then the
    arguments, then the steps. *)
Fixpoint rawOfStep (step : ActionStep) : raw :=
  let 'mkActionStep name arguments steps := step in
  RDict (("action", name) :: arguments
         ++ [("steps", RList (rawOfStep <$> steps))]).

(** The number of steps, nested ones included. *)
Fixpoint countSteps (step : ActionStep) : nat :=
  let 'mkActionStep _ _ steps := step in
  S (foldr (λ st n, countSteps st + n)%nat 0%nat steps).

Definition countAll (steps : list ActionStep) : nat :=
  foldr (λ st n, countSteps st + n)%nat 0%nat steps.

(** A result of the loop with [outputs] in front of its outputs. *)
Definition extend {W obj} (outputs : list (option obj))
    (r : (exn + option obj * list (option obj)) * State W obj)
    : (exn + option obj * list (option obj)) * State W obj :=
  (match r.1 with
   | inl e => inl e
   | inr (currentInput, moreOutput) => inr (currentInput, outputs ++ moreOutput)
   end, r.2).

(** The context managers of the connected outputs. *)
Definition isOutputContext {W obj cls} `{!Actions W obj cls}
    (cm : ContextManager obj) : bool :=
  match cm with
  | Connect action _ => isOutputAction action
  | Prepare _ => false
  end.
End Workflow.


(** * Properties *)

(** ** The dependency tracker *)

Section DependencyTracker.
Context {Change B : Type} `{!ChangeAlgebra Change, !Backend B}.
Local Abbreviation State := (FontHandler Change B).

Lemma setAt_discardUsedBy g c m c' :
  setAt (discardUsedBy g c m) c' =
    if decide (c' = c) then setAt m c' ∖ {[g]} else setAt m c'.
Proof.
  unfold discardUsedBy, setAt. destruct (m !! c) as [u|] eqn:E.
  - case_decide as Hc; subst.
    + by rewrite lookup_insert_eq, E.
    + by rewrite lookup_insert_ne.
  - case_decide as Hc; subst; [|done]. rewrite E. set_solver.
Qed.

Lemma setAt_addUsedBy g c m c' :
  setAt (addUsedBy g c m) c' =
    if decide (c' = c) then setAt m c' ∪ {[g]} else setAt m c'.
Proof.
  unfold addUsedBy, setAt. destruct (m !! c) as [u|] eqn:E.
  - rewrite E. case_decide as Hc; subst.
    + by rewrite lookup_insert_eq, E.
    + by rewrite lookup_insert_ne.
  - rewrite lookup_insert_eq. case_decide as Hc; subst.
    + rewrite lookup_insert_eq, E. done.
    + rewrite !lookup_insert_ne by done. done.
Qed.

(** The first loop: [g] leaves the users of every component in [X]. *)
Lemma setAt_fold_discard g (X : gset string) m c' x :
  x ∈ setAt (set_fold (discardUsedBy g) m X) c' ↔
    x ∈ setAt m c' ∧ ¬ (c' ∈ X ∧ x = g).
Proof.
  revert c' x. apply (set_fold_ind_L (λ (r : gmap string (gset string))
    (Y : gset string), ∀ c' x, x ∈ setAt r c' ↔
       x ∈ setAt m c' ∧ ¬ (c' ∈ Y ∧ x = g))).
  - set_solver.
  - intros y Y r Hy IH c' x. rewrite setAt_discardUsedBy.
    case_decide; subst; [rewrite elem_of_difference|]; rewrite IH; set_solver.
Qed.

(** The last loop: [g] joins the users of every component in [X]. *)
Lemma setAt_fold_add g (X : gset string) m c' x :
  x ∈ setAt (set_fold (addUsedBy g) m X) c' ↔
    x ∈ setAt m c' ∨ (c' ∈ X ∧ x = g).
Proof.
  revert c' x. apply (set_fold_ind_L (λ (r : gmap string (gset string))
    (Y : gset string), ∀ c' x, x ∈ setAt r c' ↔
       x ∈ setAt m c' ∨ (c' ∈ Y ∧ x = g))).
  - set_solver.
  - intros y Y r Hy IH c' x. rewrite setAt_addUsedBy.
    case_decide; subst; [rewrite elem_of_union|]; rewrite IH; set_solver.
Qed.

Lemma glyphMadeOf_update g glyph (s : State) g' :
  setAt (glyphMadeOf (updateGlyphDependencies g glyph s)) g' =
    if decide (g' = g) then componentSet glyph else setAt (glyphMadeOf s) g'.
Proof.
  unfold updateGlyphDependencies, componentSet.
  set (C := list_to_set _ : gset string).
  cbn. destruct (decide (C ≠ ∅)) as [Hne|He]; cbn.
  - unfold setAt. destruct (decide (g' = g)); simplify_map_eq; done.
  - apply dec_stable in He.
    destruct (decide (is_Some (glyphMadeOf s !! g))) as [Hs|Hs]; cbn; unfold setAt.
    + destruct (decide (g' = g)); simplify_map_eq; by rewrite ?He.
    + destruct (decide (g' = g)); subst; [|done].
      destruct (glyphMadeOf s !! g) eqn:E; [exfalso; eauto|]. by rewrite He.
Qed.

Lemma glyphUsedBy_update g glyph (s : State) c x :
  x ∈ setAt (glyphUsedBy (updateGlyphDependencies g glyph s)) c ↔
    (x ∈ setAt (glyphUsedBy s) c ∧ ¬ (c ∈ setAt (glyphMadeOf s) g ∧ x = g))
    ∨ (c ∈ componentSet glyph ∧ x = g).
Proof.
  unfold updateGlyphDependencies, componentSet.
  set (C := list_to_set _ : gset string).
  cbn. rewrite setAt_fold_add.
  repeat case_decide; cbn; rewrite setAt_fold_discard; reflexivity.
Qed.

(** C7.  The symmetry [g ∈ glyphUsedBy[c] ⇔ c ∈ glyphMadeOf[g]] is kept by
    [updateGlyphDependencies].  After the call the glyph is a user of
    exactly its new components (so it has left the users of every
    component recorded before that is not a new one), and its entry in
    [glyphMadeOf] is the new component set, or is gone when that set is
    empty. *)
Theorem updateGlyphDependencies_consistent g glyph (s : State) :
  depsConsistent s →
  depsConsistent (updateGlyphDependencies g glyph s)
  ∧ (∀ c, g ∈ setAt (glyphUsedBy (updateGlyphDependencies g glyph s)) c
          ↔ c ∈ componentSet glyph)
  ∧ (∀ c, c ∈ setAt (glyphMadeOf s) g → c ∉ componentSet glyph →
          g ∉ setAt (glyphUsedBy (updateGlyphDependencies g glyph s)) c)
  ∧ (componentSet glyph = ∅ →
     glyphMadeOf (updateGlyphDependencies g glyph s) !! g = None)
  ∧ (componentSet glyph ≠ ∅ →
     glyphMadeOf (updateGlyphDependencies g glyph s) !! g
       = Some (componentSet glyph)).
Proof.
  intros Hc. split; [|split; [|split; [|split]]].
  - intros g' c. rewrite glyphUsedBy_update, glyphMadeOf_update.
    specialize (Hc g' c). case_decide; subst.
    + tauto.
    + rewrite Hc. naive_solver.
  - intros c. rewrite glyphUsedBy_update. specialize (Hc g c). tauto.
  - intros c Hold Hnew. rewrite glyphUsedBy_update. tauto.
  - intros He. unfold updateGlyphDependencies. fold (componentSet glyph).
    rewrite He. cbn. destruct (decide (∅ ≠ ∅)) as [?|_]; [done|].
    case_decide as Hs; cbn.
    + by rewrite lookup_delete_eq.
    + by apply eq_None_not_Some.
  - intros Hne. unfold updateGlyphDependencies. fold (componentSet glyph).
    cbn. destruct (decide (componentSet glyph ≠ ∅)); [|done]. cbn.
    by rewrite lookup_insert_eq.
Qed.
End DependencyTracker.

(** The update of a tracker that is empty, as it is when the handler is
    created; the glyph becomes a user of both its components. *)
Lemma updateGlyphDependencies_consistent_witness :
  let s : Demo.State := __post_init__ Demo.aFont false false 128 in
  let s' := updateGlyphDependencies "Aacute" (Demo.glyphOf ["A"; "acute"]) s in
  depsConsistent s
  ∧ depsConsistent s'
  ∧ (∀ c, "Aacute" ∈ setAt (glyphUsedBy s') c
          ↔ c ∈ componentSet (Demo.glyphOf ["A"; "acute"])).
Proof.
  intros s s'.
  assert (depsConsistent s) as Hs.
  { intros g c. unfold setAt. cbn. by rewrite !lookup_empty. }
  split; [exact Hs|].
  pose proof (updateGlyphDependencies_consistent
                "Aacute" (Demo.glyphOf ["A"; "acute"]) s Hs) as (H1 & H2 & _).
  split; [exact H1|exact H2].
Defined.

(** ** Patterns *)

Lemma pattern_nested_ind (P : pattern → Prop) :
  (∀ l, Forall (λ kv, match kv.2 with Some q => P q | None => True end) l →
        P (PDict l)) →
  ∀ p, P p.
Proof.
  intros H. fix IH 1. intros [l]. apply H.
  induction l as [|[k [q|]] l IHl]; constructor; cbn; auto.
Qed.

Section PyDictFacts.
Context {K V : Type} `{EqDecision K}.
Implicit Types d : PyDict.t K V.

Lemma get_None_keys k d : PyDict.get k d = None ↔ k ∉ PyDict.keys d.
Proof.
  induction d as [|[k' v] d IH]; cbn.
  - set_solver.
  - case_decide; subst.
    + split; [done|]. intros Hn. exfalso. apply Hn. left.
    + rewrite IH. unfold PyDict.keys. set_solver.
Qed.

Lemma get_NoDup_elem k v d :
  NoDup (PyDict.keys d) → (k, v) ∈ d → PyDict.get k d = Some v.
Proof.
  induction d as [|[k' v'] d IH]; cbn; intros Hnd Hin.
  - by apply elem_of_nil in Hin.
  - apply NoDup_cons in Hnd as [Hk Hnd].
    apply elem_of_cons in Hin as [Heq|Hin].
    + inversion Heq; subst. by rewrite decide_True.
    + case_decide; subst.
      * exfalso. apply Hk. unfold PyDict.keys.
        apply list_elem_of_fmap. by exists (k', v).
      * by apply IH.
Qed.

Lemma get_Some_elem k v d : PyDict.get k d = Some v → (k, v) ∈ d.
Proof.
  induction d as [|[k' v'] d IH]; [done|]. cbn.
  case_decide; subst; [intros [= ->]; left|right; auto].
Qed.
End PyDictFacts.

Lemma wfPattern_unfold l :
  wfPattern (PDict l) = true ↔
  NoDup (PyDict.keys l) ∧ ∀ k q, (k, Some q) ∈ l → wfPattern q = true.
Proof.
  cbn. rewrite andb_true_iff, bool_decide_eq_true, forallb_forall.
  split; intros [Hnd H]; split; try done.
  - intros k q Hin. apply list_elem_of_In in Hin. apply (H _ Hin).
  - intros [k [q|]] Hin; cbn; [|done]. apply list_elem_of_In in Hin. eauto.
Qed.

Lemma omap_ext_in {A A'} (f g : A → option A') (l : list A) :
  (∀ x, x ∈ l → f x = g x) → omap f l = omap g l.
Proof.
  induction l as [|x l IH]; intros H; [done|].
  cbn. rewrite (H x) by left. rewrite IH; [done|].
  intros y Hy. apply H. by right.
Qed.

Lemma omap_map {A A' A''} (f : A' → option A'') (g : A → A') (l : list A) :
  omap f (map g l) = omap (λ x, f (g x)) l.
Proof. induction l as [|x l IH]; [done|]. cbn. by rewrite IH. Qed.

Lemma omap_all_None {A A'} (f : A → option A') (l : list A) :
  (∀ x, x ∈ l → f x = None) → omap f l = [].
Proof.
  induction l as [|x l IH]; intros H; [done|].
  cbn. rewrite H by left. apply IH. intros y Hy. apply H. by right.
Qed.

Lemma patternUnion_eq a b :
  patternUnion a b =
    PDict (map (unionEntry b) (items a)
           ++ filter (λ kv, PyDict.get kv.1 (items a) = None) (items b)).
Proof.
  destruct a as [l]. cbn. do 2 f_equal. apply map_ext. by intros [k v].
Qed.

Lemma patternDifference_eq a b :
  patternDifference a b = PDict (omap (differenceEntry b) (items a)).
Proof.
  destruct a as [l]. cbn. f_equal. apply omap_ext_in. by intros [k v] _.
Qed.

(** Subtracting a pattern from itself leaves nothing. *)
Lemma patternDifference_self p :
  wfPattern p = true → patternDifference p p = PDict [].
Proof.
  induction p as [l IH] using pattern_nested_ind. intros Hwf.
  apply wfPattern_unfold in Hwf as [Hnd Hsub].
  rewrite patternDifference_eq. f_equal. apply omap_all_None.
  intros [k v] Hin. unfold differenceEntry. cbn.
  rewrite (get_NoDup_elem k v) by done.
  destruct v as [q|]; [|done].
  rewrite Forall_forall in IH. specialize (IH (k, Some q) Hin). cbn in IH.
  rewrite IH; [done|by apply (Hsub k)].
Qed.

Lemma differenceEntry_self l kv :
  wfPattern (PDict l) = true → kv ∈ l → differenceEntry (PDict l) kv = None.
Proof.
  intros Hwf Hin. apply wfPattern_unfold in Hwf as [Hnd Hsub].
  destruct kv as [k v]. unfold differenceEntry. cbn.
  rewrite (get_NoDup_elem k v) by done.
  destruct v as [q|]; [|done].
  rewrite patternDifference_self; [done|by apply (Hsub k)].
Qed.

(** Adding [p] and taking it away again is taking it away. *)
Lemma patternDifference_union s p :
  wfPattern p = true →
  patternDifference (patternUnion s p) p = patternDifference s p.
Proof.
  revert s. induction p as [lp IH] using pattern_nested_ind. intros s Hwf.
  pose proof Hwf as Hwf'. apply wfPattern_unfold in Hwf' as [Hnd Hsub].
  rewrite !patternDifference_eq, patternUnion_eq. cbn [items]. f_equal.
  rewrite omap_app, omap_map.
  rewrite (omap_all_None _ (filter _ _)).
  - rewrite app_nil_r. apply omap_ext_in. intros [k v] Hin.
    unfold differenceEntry, unionEntry. cbn.
    destruct (PyDict.get k lp) as [[pb|]|] eqn:E; [|done|done].
    destruct v as [pa|]; [|done].
    rewrite Forall_forall in IH.
    apply get_Some_elem in E.
    specialize (IH (k, Some pb) E). cbn in IH.
    rewrite IH; [done|by apply (Hsub k)].
  - intros kv Hin. apply list_elem_of_filter in Hin as [_ Hin].
    by apply differenceEntry_self.
Qed.

(** Taking away a pattern that shares no root key changes nothing. *)
Lemma patternDifference_noCommonKey s p :
  noCommonKey s p → patternDifference s p = s.
Proof.
  intros H. rewrite patternDifference_eq. destruct s as [l]. cbn [items] in *.
  f_equal. unfold noCommonKey in H. cbn [items] in H.
  induction l as [|[k v] l IHl]; [done|].
  cbn. unfold differenceEntry at 1. cbn. rewrite H by left. cbn.
  f_equal. apply IHl. intros k' Hk'. apply H. by right.
Qed.

Section Subscriptions.
Context {Change B : Type} `{!ChangeAlgebra Change, !Backend B}.
Local Abbreviation State := (FontHandler Change B).

Lemma subscription_adjust func pat live c (s : State) :
  subscription c live (_adjustMatchPattern func pat live c s)
  = func (subscription c live s) pat.
Proof.
  unfold subscription, _adjustMatchPattern, _getClientData, _setClientData.
  fold (tierKey live). cbn. by rewrite !lookup_insert_eq.
Qed.

(** C8, as the code has it.  [subscribeChanges(P)] followed by
    [unsubscribeChanges(P)] on the same tier leaves the stored pattern
    [S] of the connection without the paths of [P]:
    [patternDifference(S, P)].  That is [S] again when [S] and [P] have
    no root key in common. *)
Theorem subscribe_unsubscribe c live (P : pattern) (s : State) :
  wfPattern P = true →
  let S := subscription c live s in
  let s' := unsubscribeChanges (inr P) live c (subscribeChanges (inr P) live c s) in
  subscription c live s' = patternDifference S P
  ∧ (noCommonKey S P → subscription c live s' = S).
Proof.
  intros Hwf S s'. subst s'. unfold unsubscribeChanges, subscribeChanges.
  cbn [_ensurePattern]. rewrite !subscription_adjust.
  rewrite patternDifference_union by done. split; [done|].
  apply patternDifference_noCommonKey.
Qed.
End Subscriptions.

(** C8 as stated fails: a connection subscribed to ["glyphs", "A"] that
    subscribes to the same path again and then unsubscribes from it is left
    with the empty pattern, not with its prior subscription. *)
Lemma subscribe_unsubscribe_counterexample :
  let P := patternFromPath ["glyphs"; "A"] in
  let s : Demo.State :=
    subscribeChanges (inl ["glyphs"; "A"]) false Demo.bob
      (__post_init__ Demo.aFont false false 128) in
  let s' := unsubscribeChanges (inr P) false Demo.bob
              (subscribeChanges (inr P) false Demo.bob s) in
  subscription Demo.bob false s = P
  ∧ subscription Demo.bob false s' = emptyPattern
  ∧ subscription Demo.bob false s' ≠ subscription Demo.bob false s
  ∧ patternDifference (patternUnion P P) P ≠ P.
Proof. vm_compute. repeat split; discriminate. Qed.

(** A connection subscribed to ["glyphs", "A"] subscribes to and
    unsubscribes from ["glyphs", "B"]. *)
Lemma subscribe_unsubscribe_witness :
  let P := patternFromPath ["glyphs"; "B"] in
  let s : Demo.State :=
    subscribeChanges (inl ["glyphs"; "A"]) false Demo.bob
      (__post_init__ Demo.aFont false false 128) in
  let s' := unsubscribeChanges (inr P) false Demo.bob
              (subscribeChanges (inr P) false Demo.bob s) in
  wfPattern P = true
  ∧ subscription Demo.bob false s' = patternDifference (subscription Demo.bob false s) P.
Proof.
  intros P s s'. split; [reflexivity|].
  pose proof (subscribe_unsubscribe Demo.bob false P s eq_refl) as [H _].
  exact H.
Defined.

(** ** Invariants of monadic code *)

Section InvRules.
Context {S : Type} (I : S → Prop).

Lemma inv_ret {A} (a : A) : inv I (ret a).
Proof. by intros s Hs. Qed.

Lemma inv_raise {A} (e : exn) : inv I (raise (A:=A) e).
Proof. by intros s Hs. Qed.

Lemma inv_gets {A} (f : S → A) : inv I (gets f).
Proof. by intros s Hs. Qed.

Lemma inv_lift {A} (r : exn + A) : inv I (lift r).
Proof. by destruct r; intros s Hs. Qed.

Lemma inv_assert (b : bool) : inv I (assert_ b).
Proof. by destruct b; intros s Hs. Qed.

Lemma inv_modify (f : S → S) : (∀ s, I s → I (f s)) → inv I (modify f).
Proof. intros H s Hs. by apply H. Qed.

Lemma inv_bind {A A'} (m : M S A) (k : A → M S A') :
  inv I m → (∀ a, inv I (k a)) → inv I (bind m k).
Proof.
  intros Hm Hk s Hs. unfold bind. specialize (Hm s Hs).
  destruct (m s) as [[e|a] s']; [done|]. by apply Hk.
Qed.

Lemma inv_for_ {A} (l : list A) (body : A → M S unit) :
  (∀ x, inv I (body x)) → inv I (for_ l body).
Proof.
  intros H. induction l as [|x l IH]; cbn; [apply inv_ret|].
  apply inv_bind; [apply H|by intros _].
Qed.

Lemma inv_fold_ {A Acc} (l : list A) (acc : Acc) (body : Acc → A → M S Acc) :
  (∀ acc x, inv I (body acc x)) → inv I (fold_ l acc body).
Proof.
  intros H. revert acc. induction l as [|x l IH]; intros acc; cbn;
    [apply inv_ret|].
  apply inv_bind; [apply H|intros acc'; apply IH].
Qed.

(** When the continuation depends on what was read from the state. *)
Lemma inv_gets_bind {A A'} (f : S → A) (k : A → M S A') :
  (∀ s, I s → I (k (f s) s).2) → inv I (bind (gets f) k).
Proof. intros H s Hs. unfold bind, gets. by apply H. Qed.

Lemma inv_try_except {A} (m : M S A) (handler : exn → M S A) :
  inv I m → (∀ e, inv I (handler e)) → inv I (try_except m handler).
Proof.
  intros Hm Hh s Hs. unfold try_except. specialize (Hm s Hs).
  destruct (m s) as [[e|a] s']; [by apply Hh|done].
Qed.

Lemma inv_try_finally {A} (m : M S A) (cleanup : S → S) :
  inv I m → (∀ s, I s → I (cleanup s)) → inv I (try_finally m cleanup).
Proof.
  intros Hm Hc s Hs. unfold try_finally. specialize (Hm s Hs).
  destruct (m s) as [r s']. by apply Hc.
Qed.
End InvRules.

(** ** Rules for triples *)

Section HoareRules.
Context {S : Type}.
Implicit Types P E : S → Prop.

Lemma hoare_ret {A} P (Q : A → S → Prop) E a :
  (∀ s, P s → Q a s) → hoare P (ret a) Q E.
Proof. intros H s Hs. by apply H. Qed.

Lemma hoare_raise {A} P (Q : A → S → Prop) E e :
  (∀ s, P s → E s) → hoare P (raise e) Q E.
Proof. intros H s Hs. by apply H. Qed.

Lemma hoare_bind {A A'} P (m : M S A) (Q : A → S → Prop)
    (k : A → M S A') (Q' : A' → S → Prop) E :
  hoare P m Q E → (∀ a, hoare (Q a) (k a) Q' E) → hoare P (bind m k) Q' E.
Proof.
  intros Hm Hk s Hs. specialize (Hm s Hs). unfold bind.
  destruct (m s) as [[e|a] s1]; [done|]. by apply Hk.
Qed.

Lemma hoare_bind_ret {A A'} P (a : A) (k : A → M S A')
    (Q : A' → S → Prop) E :
  hoare P (k a) Q E → hoare P (bind (ret a) k) Q E.
Proof. done. Qed.

Lemma hoare_bind_raise {A A'} P e (k : A → M S A') (Q : A' → S → Prop) E :
  (∀ s, P s → E s) → hoare P (bind (raise e) k) Q E.
Proof. intros H s Hs. by apply H. Qed.

Lemma hoare_conseq {A} P P' (m : M S A) (Q Q' : A → S → Prop) E E' :
  hoare P m Q E →
  (∀ s, P' s → P s) → (∀ a s, Q a s → Q' a s) → (∀ s, E s → E' s) →
  hoare P' m Q' E'.
Proof.
  intros Hm HP HQ HE s Hs. specialize (Hm s (HP s Hs)).
  destruct (m s).1; auto.
Qed.

Lemma hoare_gets {A} P (f : S → A) E :
  hoare P (gets f) (λ a s, P s ∧ a = f s) E.
Proof. by intros s Hs. Qed.

Lemma hoare_modify P (Q : unit → S → Prop) E (f : S → S) :
  (∀ s, P s → Q tt (f s)) → hoare P (modify f) Q E.
Proof. intros H s Hs. by apply H. Qed.

Lemma hoare_lift {A} P E (r : exn + A) :
  (∀ s, P s → E s) → hoare P (lift r) (λ a s, P s ∧ r = inr a) E.
Proof. intros H s Hs. unfold lift. destruct r as [e|a]; cbn; auto. Qed.

Lemma hoare_assert P E (b : bool) :
  (∀ s, P s → E s) → hoare P (assert_ b) (λ _ s, P s) E.
Proof. intros H. destruct b; intros s Hs; cbn; auto. Qed.

Lemma hoare_for_ {A} (I : S → Prop) E (l : list A) (body : A → M S unit) :
  (∀ x, x ∈ l → hoare I (body x) (λ _, I) E) →
  hoare I (for_ l body) (λ _, I) E.
Proof.
  induction l as [|x l IH]; intros H; [by intros s Hs|].
  cbn [for_]. eapply hoare_bind; [apply H; left|].
  intros u. apply IH. intros y Hy. apply H. by right.
Qed.

Lemma hoare_fold_ {A Acc} (I : Acc → S → Prop) E (l : list A) (acc : Acc)
    (body : Acc → A → M S Acc) :
  (∀ acc x, hoare (I acc) (body acc x) I E) →
  hoare (I acc) (fold_ l acc body) I E.
Proof.
  intros H. revert acc. induction l as [|x l IH]; intros acc; [by intros s Hs|].
  cbn [fold_]. eapply hoare_bind; [apply H|]. intros acc'. apply IH.
Qed.
End HoareRules.

Ltac inv_split :=
  match goal with
  | |- inv _ (match ?x with _ => _ end) => destruct x
  | |- inv _ (if ?b then _ else _) => destruct b
  end.

Ltac inv_rule :=
  first
    [ assumption
    | apply inv_ret | apply inv_raise | apply inv_gets | apply inv_lift
    | apply inv_assert
    | apply inv_bind; [|intros ?]
    | apply inv_for_; intros ?
    | apply inv_fold_; intros ? ?
    | apply inv_try_except; [|intros ?] ].

Section HandlerInv.
Context {Change B : Type} `{!ChangeAlgebra Change, !Backend B}.
Local Abbreviation State := (FontHandler Change B).

Context (I : State → Prop) (HI : IgnoresData I).

Lemma inv_allocM o : inv I (allocM o).
Proof. intros s Hs. unfold allocM. cbn. by apply ig_heap. Qed.

Lemma inv_deepcopy v : inv I (deepcopy v).
Proof.
  intros s Hs. unfold deepcopy.
  destruct (deepcopyVal v (heap s)) as [[v' h]|]; cbn; [by apply ig_heap|done].
Qed.

Lemma inv_emit e : inv I (emit e).
Proof. apply inv_modify. intros s Hs. by apply ig_effects. Qed.

Lemma inv_awaitProxy c call : inv I (awaitProxy c call).
Proof.
  unfold awaitProxy. apply inv_bind; [apply inv_gets|]. intros outcome.
  apply inv_bind; [apply inv_emit|]. intros _.
  destruct outcome; [apply inv_raise|apply inv_ret].
Qed.

Lemma inv_startAll calls : inv I (startAll calls).
Proof.
  induction calls as [|[c call] calls IH]; cbn [startAll]; [apply inv_ret|].
  apply inv_bind; [apply inv_gets|]. intros outcome.
  apply inv_bind; [apply inv_emit|]. intros _.
  apply inv_bind; [apply IH|]. intros others. apply inv_ret.
Qed.

Lemma inv_gather calls : inv I (gather calls).
Proof.
  unfold gather. apply inv_bind; [apply inv_startAll|].
  intros [e|]; [apply inv_raise|apply inv_ret].
Qed.

Lemma inv_callBackend {A} c (f : B → (exn + A) * B) : inv I (callBackend c f).
Proof.
  intros s Hs. unfold callBackend. cbn.
  destruct (f (backend s)) as [r b]. cbn.
  by apply ig_backend, ig_effects.
Qed.

Lemma inv_cacheGet k : inv I (cacheGet k).
Proof.
  intros s Hs. unfold cacheGet.
  destruct (LRUCache.get k (localData s)) as [v c]. cbn. by apply ig_localData.
Qed.

Lemma inv_cacheGetItem k : inv I (cacheGetItem k).
Proof.
  intros s Hs. unfold cacheGetItem.
  destruct (LRUCache.getitem k (localData s)) as [[v c]|]; cbn;
    [by apply ig_localData|done].
Qed.

Lemma inv_cacheSet k v : inv I (cacheSet k v).
Proof. apply inv_modify. intros s Hs. by apply ig_localData. Qed.

Lemma inv_cachePop k : inv I (cachePop k).
Proof. apply inv_modify. intros s Hs. by apply ig_localData. Qed.

Lemma inv_updateGlyphDependencies n g :
  inv I (modify (updateGlyphDependencies n g)).
Proof.
  apply inv_modify. intros s Hs. unfold updateGlyphDependencies. cbv zeta.
  apply ig_glyphUsedBy; [done|]. repeat case_decide;
    repeat first [apply ig_glyphMadeOf | apply ig_glyphUsedBy]; done.
Qed.

End HandlerInv.

Create HintDb inv_db.

#[global] Hint Resolve inv_allocM inv_deepcopy inv_emit inv_awaitProxy
  inv_gather inv_callBackend
  inv_cacheGet inv_cacheGetItem inv_cacheSet inv_cachePop
  inv_updateGlyphDependencies : inv_db.

Ltac inv_auto :=
  repeat first [solve [auto with inv_db] | inv_rule | inv_split].

Section HandlerInvMethods.
Context {Change B : Type} `{!ChangeAlgebra Change, !Backend B}.
Local Abbreviation State := (FontHandler Change B).
Context (I : State → Prop) (HI : IgnoresData I).

Lemma inv_getGlyph n : inv I (getGlyph n).
Proof. unfold getGlyph, _getGlyph, _getGlyphFromBackend. inv_auto. Qed.

Lemma inv_getData k : inv I (getData k).
Proof. unfold getData, _getData, allocGlyphMap. inv_auto. Qed.

Lemma inv_reloadData p : inv I (reloadData p).
Proof. unfold reloadData, dropLocalData. inv_auto. Qed.

Lemma inv_broadcastChange c src live : inv I (broadcastChange c src live).
Proof. unfold broadcastChange. inv_auto. Qed.

Lemma inv_applyChangeM r c : inv I (applyChangeM r c).
Proof.
  intros s Hs. unfold applyChangeM.
  destruct (applyChange r c (heap s)) as [[e|u] [r' h]]; cbn; by apply ig_heap.
Qed.

Hint Resolve inv_getGlyph inv_getData inv_reloadData inv_broadcastChange
  inv_applyChangeM : inv_db.

Lemma inv_prepareRootObject c : inv I (_prepareRootObject c).
Proof. unfold _prepareRootObject. inv_auto. Qed.

Lemma inv_glyphMapGet m n : inv I (glyphMapGet m n).
Proof. unfold glyphMapGet. inv_auto. Qed.

Hint Resolve inv_prepareRootObject inv_glyphMapGet : inv_db.

(** The commit step keeps [I] when scheduling a write does, or when
    writes are off. *)
Lemma inv_updateLocalData rootKeys root conn (w : bool) :
  (w = true → ∀ k f c, inv I (scheduleDataWrite k f c)) →
  inv I (_updateLocalData rootKeys root conn w).
Proof.
  intros Hw.
  unfold _updateLocalData, commitGlyph, commitDeletedGlyph, commitRootKey.
  destruct w; cbn [negb].
  - specialize (Hw eq_refl). inv_auto.
  - clear Hw. inv_auto.
Qed.
Lemma inv_getLocalDataPattern : inv I getLocalDataPattern.
Proof.
  intros s Hs. unfold getLocalDataPattern.
  by destruct (_getLocalDataPattern s).
Qed.

Hint Resolve inv_getLocalDataPattern inv_updateLocalData : inv_db.

(** The pipeline keeps [I] when scheduling a write does. *)
Lemma inv_updateLocalDataAndWriteToBackend change conn ext :
  (∀ k f c, inv I (scheduleDataWrite k f c)) →
  inv I (_updateLocalDataAndWriteToBackend change conn ext).
Proof.
  intros Hsched. unfold _updateLocalDataAndWriteToBackend.
  apply inv_bind; [inv_auto|]. intros [change'|]; [|inv_auto].
  apply inv_bind; [inv_auto|]. intros [rootKeys rootObject].
  apply inv_bind; [inv_auto|]. intros rootObject'.
  apply inv_bind; [inv_auto|]. intros ro.
  apply inv_updateLocalData. intros _. apply Hsched.
Qed.


(** An external change keeps [I] as well. *)
Lemma inv_updateLocalDataWithExternalChange change :
  inv I (updateLocalDataWithExternalChange change).
Proof.
  unfold updateLocalDataWithExternalChange, _updateLocalDataAndWriteToBackend.
  apply inv_bind; [inv_auto|]. intros [change'|]; [|inv_auto].
  apply inv_bind; [inv_auto|]. intros [rootKeys rootObject].
  apply inv_bind; [inv_auto|]. intros rootObject'.
  apply inv_bind; [inv_auto|]. intros ro. cbn [negb andb].
  by apply inv_updateLocalData.
Qed.

Section Steps.
Context (Hupdate : ∀ change conn,
           inv I (updateLocalDataAndWriteToBackend change conn)).
Context (Hwriter : inv I writerTurn).
Context (Hconnections : ∀ l s, I s → I (set_connections l s)).
Context (HclientData : ∀ m s, I s → I (set_clientData m s)).

Lemma inv_editFinal change broadcast c :
  inv I (editFinal change broadcast c).
Proof.
  unfold editFinal. apply inv_bind; [apply Hupdate|]. intros _. inv_auto.
Qed.

Lemma inv_processExternalChange change reloadPattern :
  inv I (processExternalChange change reloadPattern).
Proof.
  unfold processExternalChange.
  apply inv_try_except; [|intros e; apply inv_ret].
  apply inv_bind; [|intros _; destruct reloadPattern; inv_auto].
  destruct change; [|apply inv_ret].
  apply inv_bind; [apply inv_updateLocalDataWithExternalChange|].
  intros _. inv_auto.
Qed.

(** Every step of the handler keeps [I]. *)
Lemma inv_handle r : inv I (handle r).
Proof.
  destruct r; cbn [handle].
  - apply inv_modify. intros s Hs. unfold addConnection.
    case_decide; [done|by apply Hconnections].
  - unfold removeConnection. apply inv_bind; [apply inv_gets|]. intros conns.
    case_decide; [|apply inv_raise]. apply inv_modify. intros s Hs.
    by apply Hconnections.
  - inv_auto.
  - inv_auto.
  - apply inv_modify. intros s Hs. by apply HclientData.
  - apply inv_modify. intros s Hs. by apply HclientData.
  - unfold editIncremental. inv_auto.
  - apply inv_editFinal.
  - apply Hupdate.
  - apply inv_processExternalChange.
  - apply Hwriter.
  - unfold finishWriting. inv_auto.
Qed.

Lemma inv_run rs s : I s → I (run rs s).
Proof.
  revert s. induction rs as [|r rs IH]; intros s Hs; [done|].
  cbn. apply IH. by apply inv_handle.
Qed.
End Steps.

Lemma inv_editIncremental change c : inv I (editIncremental change c).
Proof. unfold editIncremental. inv_auto. Qed.

Lemma inv_finishWriting : inv I finishWriting.
Proof. unfold finishWriting. inv_auto. Qed.

Lemma inv_putData k v : inv I (_putData k v).
Proof. unfold _putData. inv_auto. Qed.

Hint Resolve inv_putData : inv_db.

Lemma inv_callWriteFunc f : inv I (callWriteFunc f).
Proof. unfold callWriteFunc. inv_auto. Qed.

Lemma inv_handleWriteError p c e : inv I (handleWriteError p c e).
Proof. unfold handleWriteError. inv_auto. Qed.
End HandlerInvMethods.

#[global] Hint Resolve inv_getGlyph inv_getData inv_reloadData
  inv_broadcastChange inv_applyChangeM inv_prepareRootObject inv_glyphMapGet
  inv_getLocalDataPattern inv_editIncremental inv_finishWriting inv_putData
  inv_callWriteFunc inv_handleWriteError : inv_db.

(** ** Broadcasting *)

Section Broadcast.
Context {Change B : Type} `{!ChangeAlgebra Change, !Backend B}.
Local Abbreviation State := (FontHandler Change B).

Lemma set_effects_same (s : State) : set_effects (effects s) s = s.
Proof. by destruct s. Qed.

Lemma for_emit {A} (f : A → Effect Change) (l : list A) (s : State) :
  for_ l (λ x, emit (f x)) s = (inr tt, set_effects (effects s ++ map f l) s).
Proof.
  revert s. induction l as [|x l IH]; intros s; cbn.
  - by rewrite app_nil_r, set_effects_same.
  - unfold bind, emit, modify. rewrite IH. cbn. by rewrite <- app_assoc.
Qed.

(** *** Awaited calls on the clients *)

Lemma proxyOutcome_returns c (s : State) : returns c → proxyOutcome c s = None.
Proof.
  intros Hc. unfold proxyOutcome.
  destruct (proxy c !! _) as [outcome|] eqn:E; [|done].
  apply list_elem_of_lookup_2 in E. unfold returns in Hc.
  rewrite Forall_forall in Hc. by apply Hc.
Qed.

Lemma proxyOutcome_Some c (s : State) e :
  proxyOutcome c s = Some e → Some e ∈ proxy c.
Proof.
  unfold proxyOutcome. destruct (proxy c !! _) as [outcome|] eqn:E; [|done].
  cbn. intros ->. by apply list_elem_of_lookup_2 in E.
Qed.

(** An awaited call is logged whatever comes of it. *)
Lemma awaitProxy_eq c call (s : State) :
  awaitProxy c call s
  = (match proxyOutcome c s with
     | Some e => inl e
     | None => inr tt
     end, set_effects (effects s ++ [Awaited c call]) s).
Proof.
  unfold awaitProxy, bind, gets, emit, modify.
  by destruct (proxyOutcome c s).
Qed.

Lemma awaitProxy_returns c call (s : State) :
  returns c →
  awaitProxy c call s = (inr tt, set_effects (effects s ++ [Awaited c call]) s).
Proof. intros Hc. by rewrite awaitProxy_eq, proxyOutcome_returns. Qed.

Lemma startAll_effects calls (s : State) :
  (startAll calls s).2
  = set_effects (effects s ++ map (λ cc, Awaited cc.1 cc.2) calls) s
  ∧ ∃ r, (startAll calls s).1 = inr r
         ∧ ((∀ cc, cc ∈ calls → returns cc.1) → r = None)
         ∧ ∀ e, r = Some e → ∃ cc, cc ∈ calls ∧ Some e ∈ proxy cc.1.
Proof.
  revert s. induction calls as [|[c call] calls IH]; intros s.
  - cbn. rewrite app_nil_r, set_effects_same. split; [done|].
    exists None. by repeat split.
  - cbn [startAll]. unfold bind at 1 2, gets, emit, modify.
    cbn [fst snd]. unfold bind.
    destruct (IH (set_effects (effects s ++ [Awaited c call]) s))
      as (Hst & r & Hr & Hret & Hraised).
    destruct (startAll calls _) as [[e|r'] s'] eqn:E; [done|].
    cbn in Hst, Hr. simplify_eq. cbn [fst snd map].
    split; [by rewrite <- app_assoc|].
    eexists. split; [done|]. split.
    + intros Hall. rewrite proxyOutcome_returns.
      * apply Hret. intros cc Hcc. apply Hall. by right.
      * apply (Hall (c, call)). by left.
    + intros e He. destruct (proxyOutcome c s) as [e'|] eqn:Ho.
      * simplify_eq. exists (c, call). split; [by left|].
        by apply proxyOutcome_Some in Ho.
      * destruct (Hraised e He) as (cc & Hcc & Hin).
        exists cc. split; [by right|done].
Qed.

(** [gather] logs every call; it returns when every call returns, and what
    it raises was raised by one of the calls. *)
Lemma gather_effects calls (s : State) :
  (gather calls s).2
  = set_effects (effects s ++ map (λ cc, Awaited cc.1 cc.2) calls) s.
Proof.
  unfold gather, bind.
  destruct (startAll_effects calls s) as (Hst & r & Hr & _).
  destruct (startAll calls s) as [[e|r'] s']; [done|].
  cbn in Hst, Hr. simplify_eq. by destruct r.
Qed.

Lemma gather_returns calls (s : State) :
  (∀ cc, cc ∈ calls → returns cc.1) →
  gather calls s
  = (inr tt, set_effects (effects s ++ map (λ cc, Awaited cc.1 cc.2) calls) s).
Proof.
  intros Hall. rewrite <- gather_effects.
  unfold gather, bind.
  destruct (startAll_effects calls s) as (_ & r & Hr & Hret & _).
  destruct (startAll calls s) as [[e|r'] s']; [done|].
  cbn in Hr. simplify_eq. by rewrite (Hret Hall).
Qed.

Lemma gather_raises calls (s : State) e :
  (gather calls s).1 = inl e → ∃ cc, cc ∈ calls ∧ Some e ∈ proxy cc.1.
Proof.
  unfold gather, bind.
  destruct (startAll_effects calls s) as (_ & r & Hr & _ & Hraised).
  destruct (startAll calls s) as [[e'|r'] s']; [done|].
  cbn in Hr. simplify_eq. destruct r as [e'|]; cbn; [|done].
  intros [= ->]. by apply Hraised.
Qed.

(** C4.  [broadcastChange] returns, changes nothing but the log of
    effects, and appends to it one scheduled [externalChange(change,
    isLive)] for exactly the connections that are not the source and whose
    live pattern matches the change, or, when the change is not live,
    whose committed pattern matches it. *)
Theorem broadcastChange_spec (change : Change) (source : option Connection)
    (isLive : bool) (s : State) :
  ∃ new,
    broadcastChange change source isLive s
      = (inr tt, set_effects (effects s ++ new) s)
    ∧ (∀ e, e ∈ new ↔
         ∃ c, e = Scheduled c (externalChange change isLive)
              ∧ c ∈ connections s
              ∧ Some c ≠ source
              ∧ (matchChangePattern change (subscription c true s) = true
                 ∨ (isLive = false
                    ∧ matchChangePattern change (subscription c false s) = true)))
    ∧ (NoDup (connections s) → NoDup new).
Proof.
  set (f := λ c : Connection, Scheduled c (externalChange change isLive)).
  exists (map f (List.filter (wantsChange change source isLive s) (connections s))).
  split; [|split].
  - unfold broadcastChange, bind, gets. by rewrite for_emit.
  - intros e. rewrite list_elem_of_In, in_map_iff.
    split.
    + intros (c & <- & Hin). apply filter_In in Hin as [Hin Hw].
      exists c. split; [done|]. split; [by apply list_elem_of_In|].
      unfold wantsChange in Hw. apply andb_true_iff in Hw as [Hsrc Hm].
      apply bool_decide_eq_true in Hsrc. split; [done|].
      unfold subscription, tierKey. destruct isLive; cbn in Hm.
      * rewrite orb_false_r in Hm. by left.
      * rewrite orb_false_r in Hm. apply orb_true_iff in Hm as [?|?]; auto.
    + intros (c & -> & Hin & Hsrc & Hm). exists c. split; [done|].
      apply filter_In. split; [by apply list_elem_of_In|].
      unfold wantsChange. apply andb_true_iff. split;
        [by apply bool_decide_eq_true|].
      unfold subscription, tierKey in Hm. destruct isLive; cbn.
      * destruct Hm as [->|[? _]]; done.
      * destruct Hm as [->|[_ ->]]; [done|by rewrite orb_true_r].
  - intros Hnd. apply NoDup_fmap_2; [by intros c1 c2 [= ->]|].
    apply NoDup_ListNoDup, List.NoDup_filter, NoDup_ListNoDup, Hnd.
Qed.
End Broadcast.

(** ** The write queue *)

Section PyDictSet.
Context {K V : Type} `{EqDecision K}.
Implicit Types d : PyDict.t K V.

Lemma keys_set_present k v v0 d :
  PyDict.get k d = Some v0 → PyDict.keys (PyDict.set k v d) = PyDict.keys d.
Proof.
  induction d as [|[k' v'] d IH]; cbn; [done|].
  case_decide; subst; cbn; [done|]. intros E. f_equal. by apply IH.
Qed.

Lemma set_absent k v d :
  PyDict.get k d = None → PyDict.set k v d = d ++ [(k, v)].
Proof.
  induction d as [|[k' v'] d IH]; cbn; [done|].
  case_decide; subst; [done|]. intros E. f_equal. by apply IH.
Qed.

Lemma get_set_eq k v d : PyDict.get k (PyDict.set k v d) = Some v.
Proof.
  induction d as [|[k' v'] d IH]; cbn.
  - by rewrite decide_True.
  - case_decide; subst; cbn; [by rewrite decide_True|by rewrite decide_False].
Qed.

Lemma get_set_ne k k' v d :
  k' ≠ k → PyDict.get k' (PyDict.set k v d) = PyDict.get k' d.
Proof.
  intros Hne. induction d as [|[k0 v0] d IH]; cbn.
  - by rewrite decide_False.
  - case_decide; subst; cbn.
    + by rewrite !decide_False.
    + case_decide; [done|apply IH].
Qed.

Lemma NoDup_keys_set k v d :
  NoDup (PyDict.keys d) → NoDup (PyDict.keys (PyDict.set k v d)).
Proof.
  intros Hnd. destruct (PyDict.get k d) as [v0|] eqn:E.
  - by rewrite (keys_set_present _ _ v0).
  - rewrite set_absent by done. unfold PyDict.keys. rewrite fmap_app. cbn.
    apply NoDup_app. split; [done|]. split; [|apply NoDup_singleton].
    intros x Hx ->%list_elem_of_singleton. by apply get_None_keys in E.
Qed.

Lemma keys_remove_sub k d x :
  x ∈ PyDict.keys (PyDict.remove k d) → x ∈ PyDict.keys d.
Proof.
  induction d as [|[k' v'] d IH]; cbn; [done|].
  case_decide; subst; cbn; [by right|].
  intros [->|Hx]%elem_of_cons; [left|right; by apply IH].
Qed.

Lemma NoDup_keys_remove k d :
  NoDup (PyDict.keys d) → NoDup (PyDict.keys (PyDict.remove k d)).
Proof.
  induction d as [|[k' v'] d IH]; cbn; [done|].
  intros [Hk Hnd]%NoDup_cons. case_decide; subst; cbn; [done|].
  apply NoDup_cons. split; [|by apply IH].
  intros Hx. apply Hk. by apply keys_remove_sub in Hx.
Qed.

(** [popFirstItem] takes the head. *)
Lemma popFirstItem_cons k v d :
  popFirstItem ((k, v) :: d) = inr ((k, v), d).
Proof. unfold popFirstItem. cbn. by rewrite !decide_True. Qed.

Lemma count_key_NoDup k d :
  NoDup (PyDict.keys d) →
  (length (List.filter (λ kv, bool_decide (kv.1 = k)) d) ≤ 1)%nat.
Proof.
  induction d as [|[k' v'] d IH]; cbn; [lia|].
  intros [Hk Hnd]%NoDup_cons. case_bool_decide; subst; cbn; [|by apply IH].
  assert (List.filter (λ kv, bool_decide (kv.1 = k)) d = []) as ->; [|cbn; lia].
  clear -Hk. induction d as [|[k' v'] d IH]; cbn; [done|].
  cbn in Hk. case_bool_decide; subst.
  - exfalso. apply Hk. left.
  - apply IH. intros Hx. apply Hk. by right.
Qed.
End PyDictSet.

Section WriteQueue.
Context {Change B : Type} `{!ChangeAlgebra Change, !Backend B}.
Local Abbreviation State := (FontHandler Change B).

Lemma queueOK_ignores : IgnoresData (queueOK (Change:=Change) (B:=B)).
Proof. by split. Qed.

Hint Resolve queueOK_ignores : inv_db.

Lemma queueOK_scheduleDataWrite k f c :
  inv (S:=State) queueOK (scheduleDataWrite k f c).
Proof.
  unfold scheduleDataWrite. apply inv_gets_bind. intros s Hs.
  destruct (_dataScheduledForWriting s) as [q|] eqn:E.
  - unfold queueOK in Hs. rewrite E in Hs.
    unfold bind, modify. cbn. destruct (bool_decide (q = [])); cbn;
      unfold queueOK; cbn; by apply NoDup_keys_set.
  - revert s Hs E. 
    assert (inv (S:=State) queueOK
      (reloadData (_writeKeyToPattern k) ;;
       match c with
       | Some c0 => awaitProxy c0 (messageFromServer
            "The data could not be saved."
            ("The edit has been reverted." ++ nl ++ nl ++
             "The Fontra server got itself into trouble, please contact an admin."))
       | None => raise AttributeError
       end)) as Hinv by inv_auto.
    intros s Hs _. by apply Hinv.
Qed.

Lemma queueOK_processWritesOneItem : inv (S:=State) queueOK _processWritesOneItem.
Proof.
  unfold _processWritesOneItem. apply inv_gets_bind. intros s Hs.
  pose proof Hs as Hq. unfold queueOK in Hq.
  destruct (_dataScheduledForWriting s) as [[|[k [f c]] q]|] eqn:E;
    [done| |done].
  cbn [default from_option id]. rewrite popFirstItem_cons. cbn.
  apply NoDup_cons in Hq as [_ Hq].
  assert (inv (S:=State) queueOK
    (try_except (callWriteFunc f) (handleWriteError (_writeKeyToPattern k) c)))
    as Hinv by inv_auto.
  apply Hinv. unfold queueOK. done.
Qed.

Lemma queueOK_processWritesLoop n : inv (S:=State) queueOK (_processWritesLoop n).
Proof.
  induction n as [|n IH]; cbn; [apply inv_ret|].
  apply inv_bind; [apply inv_gets|]. intros [[|? ?]|]; try apply inv_ret.
  apply inv_bind; [apply queueOK_processWritesOneItem|by intros _].
Qed.

Lemma queueOK_processWrites : inv (S:=State) queueOK processWrites.
Proof.
  intros s Hs. unfold processWrites.
  destruct (try_finally _ _ s) as [[e|r] s'] eqn:E; [done|].
  cbn. 
  assert (inv (S:=State) queueOK
    (try_finally
       (try_except _processWritesOneCycle
          (λ e, modify (set_processWritesError (Some e));; raise e))
       (λ s0, set_writingInProgressEvent true (set_processWritesEvent false s0))))
    as Hinv.
  { apply inv_try_finally; [|done]. apply inv_try_except.
    - intros s0 Hs0. apply queueOK_processWritesLoop, Hs0.
    - intros e. apply inv_bind; [by apply inv_modify|intros _; apply inv_raise]. }
  specialize (Hinv s Hs). by rewrite E in Hinv.
Qed.

Lemma queueOK_writerTurn : inv (S:=State) queueOK writerTurn.
Proof.
  intros s Hs. unfold writerTurn.
  destruct (_dataScheduledForWriting s) eqn:E; [|done].
  destruct (_processWritesEvent s); [|done].
  by apply queueOK_processWrites.
Qed.

Lemma queueOK_run rs (s : State) : queueOK s → queueOK (run rs s).
Proof.
  apply (inv_run queueOK queueOK_ignores); [|apply queueOK_writerTurn|done|done].
  intros change conn.
  apply inv_updateLocalDataAndWriteToBackend;
    [apply queueOK_ignores|apply queueOK_scheduleDataWrite].
Qed.

Lemma scheduleDataWrite_queue k f c (s : State) q :
  _dataScheduledForWriting s = Some q →
  _dataScheduledForWriting (scheduleDataWrite k f c s).2
    = Some (PyDict.set k (f, c) q).
Proof.
  intros E. unfold scheduleDataWrite, bind, gets, modify. rewrite E. cbn.
  by destruct (bool_decide (q = [])).
Qed.

Lemma scheduleDataWrite_alive k f c (s : State) q :
  _dataScheduledForWriting s = Some q →
  ∃ s', scheduleDataWrite k f c s = (inr tt, s')
        ∧ _dataScheduledForWriting s' = Some (PyDict.set k (f, c) q)
        ∧ localData s' = localData s
        ∧ effects s' = effects s
        ∧ backend s' = backend s
        ∧ heap s' = heap s
        ∧ _processWritesError s' = _processWritesError s
        ∧ _processWritesEvent s'
          = (if bool_decide (q = []) then true else _processWritesEvent s)
        ∧ _writingInProgressEvent s'
          = (if bool_decide (q = []) then false else _writingInProgressEvent s).
Proof.
  intros E. unfold scheduleDataWrite, bind, gets, modify. rewrite E. cbn.
  destruct (bool_decide (q = [])); eexists; (split; [reflexivity|done]).
Qed.

Lemma scheduleAll_head ws (s : State) k v0 q0 :
  _dataScheduledForWriting s = Some ((k, v0) :: q0) →
  ∃ q, _dataScheduledForWriting (scheduleAll ws s)
         = Some ((k, lastFor k v0 ws) :: q).
Proof.
  revert s v0 q0. induction ws as [|[k' [f' c']] ws IH]; intros s v0 q0 E.
  - by exists q0.
  - cbn [lastFor scheduleAll foldl fst snd].
    pose proof (scheduleDataWrite_queue k' f' c' s _ E) as E'.
    change (PyDict.set k' (f', c') ((k, v0) :: q0))
      with (if decide (k' = k) then (k', (f', c')) :: q0
            else (k, v0) :: PyDict.set k' (f', c') q0) in E'.
    destruct (decide (k' = k)) as [->|Hne]; apply (IH _ _ _ E').
Qed.

(** One pass of the loop takes the first entry off the queue; whatever
    the write does, the rest of the queue and the stored error stay. *)
Lemma processWritesOneItem_queue (s : State) k f c q :
  _dataScheduledForWriting s = Some ((k, (f, c)) :: q) →
  _dataScheduledForWriting (_processWritesOneItem s).2 = Some q
  ∧ _processWritesError (_processWritesOneItem s).2 = _processWritesError s.
Proof.
  intros Hq. unfold _processWritesOneItem, bind, gets, lift, modify.
  rewrite Hq. cbn [default from_option id]. rewrite popFirstItem_cons. cbn.
  set (I := λ s0 : State,
         _dataScheduledForWriting s0 = Some q
         ∧ _processWritesError s0 = _processWritesError s).
  assert (IgnoresData I) as HI by by split.
  apply (inv_try_except I); [by apply inv_callWriteFunc| |done].
  intros e. by apply inv_handleWriteError.
Qed.

Lemma processWritesLoop_step n (s : State) x q :
  _dataScheduledForWriting s = Some (x :: q) →
  _processWritesLoop (S n) s
  = match _processWritesOneItem s with
    | (inl e, s1) => (inl e, s1)
    | (inr _, s1) => _processWritesLoop n s1
    end.
Proof.
  intros Hq. cbn [_processWritesLoop]. unfold bind, gets. by rewrite Hq.
Qed.

Lemma processWritesLoop_done n (s : State) :
  _dataScheduledForWriting s = Some [] → _processWritesLoop n s = (inr tt, s).
Proof.
  intros Hq. destruct n; [done|].
  cbn [_processWritesLoop]. unfold bind, gets. by rewrite Hq.
Qed.

Lemma processWritesLoop_drains n (s : State) q :
  _dataScheduledForWriting s = Some q →
  (length q ≤ n)%nat →
  let r := _processWritesLoop n s in
  _processWritesError r.2 = _processWritesError s
  ∧ is_Some (_dataScheduledForWriting r.2)
  ∧ (r.1 = inr tt → _dataScheduledForWriting r.2 = Some []).
Proof.
  revert s q. induction n as [|n IH]; intros s q Hq Hlen; cbv zeta.
  - destruct q; [|cbn in Hlen; lia]. rewrite processWritesLoop_done by done.
    cbn. by rewrite Hq.
  - destruct q as [|[k [f c]] q].
    { rewrite processWritesLoop_done by done. cbn. by rewrite Hq. }
    rewrite (processWritesLoop_step n s _ _ Hq).
    destruct (processWritesOneItem_queue s k f c q Hq) as [Hq1 He1].
    destruct (_processWritesOneItem s) as [[e|[]] s1]; cbn [fst snd] in *.
    + rewrite Hq1. split; [done|]. split; [by eexists|done].
    + cbn in Hlen. destruct (IH s1 q Hq1 ltac:(lia)) as (He & Hsome & Hempty).
      split; [congruence|done].
Qed.

Lemma processWritesOneItem_eq (s : State) k f c q :
  _dataScheduledForWriting s = Some ((k, (f, c)) :: q) →
  _processWritesOneItem s
  = try_except (callWriteFunc f)
      (handleWriteError (_writeKeyToPattern k) c)
      (set_dataScheduledForWriting (Some q) s).
Proof.
  intros E. unfold _processWritesOneItem, bind at 1, gets.
  rewrite E. cbn [default from_option id]. unfold bind at 1.
  rewrite popFirstItem_cons. cbn. done.
Qed.

(** The loop of the cycle is [writeInOrder] on the queue it finds. *)
Lemma processWritesLoop_writeInOrder q (s : State) :
  _dataScheduledForWriting s = Some q →
  _processWritesLoop (length q) s = writeInOrder q s.
Proof.
  revert s. induction q as [|[k [f c]] q IH]; intros s Hq; [done|].
  cbn [length]. rewrite (processWritesLoop_step _ _ _ _ Hq).
  destruct (processWritesOneItem_queue s k f c q Hq) as [Hq1 _].
  unfold writeInOrder. cbn [for_]. unfold bind at 1.
  assert ((modify (λ s0 : State, set_dataScheduledForWriting
                     (PyDict.remove k <$> _dataScheduledForWriting s0) s0) ;;
           try_except (callWriteFunc f)
             (handleWriteError (_writeKeyToPattern k) c)) s
          = _processWritesOneItem s) as ->.
  { rewrite (processWritesOneItem_eq _ _ _ _ _ Hq).
    unfold bind, modify. rewrite Hq. cbn. by rewrite decide_True. }
  destruct (_processWritesOneItem s) as [[e|[]] s1]; [done|].
  cbn in Hq1. by apply IH.
Qed.

Lemma processWritesOneCycle_writeInOrder q (s : State) :
  _dataScheduledForWriting s = Some q →
  _processWritesOneCycle s = writeInOrder q s.
Proof.
  intros Hq. unfold _processWritesOneCycle. rewrite Hq. cbn [default from_option id].
  by apply processWritesLoop_writeInOrder.
Qed.

(** C1.  (1) At every point of every run of the handler, no key has more
    than one pending write.  (2) Scheduling a write for a key that is
    pending replaces its thunk and connection and leaves the order of the
    queue and the other entries as they are.  (3) A key that is not
    pending goes to the end of the queue.  (4) A pass of the loop of the
    scheduler takes the entry at the head of the queue off it and runs its
    thunk.  (5) A cycle of the scheduler, [_processWritesOneCycle], runs
    the writes of the queue in the order of the queue, the first entry
    first, taking each off the queue before its thunk is called; and a
    turn of [processWrites] is that cycle with the bookkeeping of the task
    around it.  (6) So the key scheduled first into an empty queue is
    written first by the next cycle, with the thunk scheduled last for
    it. *)
Theorem write_queue_coalescing_fifo :
  (∀ (b : B) ro de n rs k,
     (pending k (run rs (__post_init__ b ro de n)) ≤ 1)%nat)
  ∧ (∀ (s : State) q k f c old,
       _dataScheduledForWriting s = Some q →
       PyDict.get k q = Some old →
       ∃ q', _dataScheduledForWriting (scheduleDataWrite k f c s).2 = Some q'
             ∧ PyDict.keys q' = PyDict.keys q
             ∧ PyDict.get k q' = Some (f, c)
             ∧ ∀ k', k' ≠ k → PyDict.get k' q' = PyDict.get k' q)
  ∧ (∀ (s : State) q k f c,
       _dataScheduledForWriting s = Some q →
       PyDict.get k q = None →
       _dataScheduledForWriting (scheduleDataWrite k f c s).2
         = Some (q ++ [(k, (f, c))]))
  ∧ (∀ (s : State) k f c q,
       _dataScheduledForWriting s = Some ((k, (f, c)) :: q) →
       _processWritesOneItem s
         = try_except (callWriteFunc f)
             (handleWriteError (_writeKeyToPattern k) c)
             (set_dataScheduledForWriting (Some q) s))
  ∧ (∀ (s : State) q,
       _dataScheduledForWriting s = Some q →
       _processWritesOneCycle s = writeInOrder q s
       ∧ processWrites s
         = match
             try_finally
               (try_except (writeInOrder q) (λ e,
                  modify (set_processWritesError (Some e)) ;; raise e))
               (λ s, set_writingInProgressEvent true
                       (set_processWritesEvent false s))
               s
           with
           | (inl e, s') => (inl e, _processWritesTaskDone s')
           | (inr r, s') => (inr r, s')
           end)
  ∧ (∀ (s : State) k v ws,
       _dataScheduledForWriting s = Some [] →
       let s' := scheduleAll ((k, v) :: ws) s in
       ∃ q, _dataScheduledForWriting s' = Some ((k, lastFor k v ws) :: q)
            ∧ _processWritesOneCycle s'
              = writeInOrder ((k, lastFor k v ws) :: q) s').
Proof.
  split; [|split; [|split; [|split; [|split]]]].
  - intros b ro de n rs k.
    assert (queueOK (run rs (__post_init__ b ro de n))) as Hq.
    { apply queueOK_run. unfold queueOK. cbn. apply NoDup_nil_2. }
    unfold queueOK in Hq. unfold pending.
    destruct (_dataScheduledForWriting _) as [q|]; cbn; [|lia].
    by apply count_key_NoDup.
  - intros s q k f c old E Hget. exists (PyDict.set k (f, c) q).
    split; [by apply scheduleDataWrite_queue|].
    split; [by apply (keys_set_present _ _ old)|].
    split; [apply get_set_eq|]. intros k' Hne. by apply get_set_ne.
  - intros s q k f c E Hget.
    rewrite (scheduleDataWrite_queue _ _ _ _ _ E). by rewrite set_absent.
  - intros s k f c q E. by apply processWritesOneItem_eq.
  - intros s q Hq.
    pose proof (processWritesOneCycle_writeInOrder q s Hq) as Hcycle.
    split; [done|].
    unfold processWrites, try_finally, try_except. by rewrite Hcycle.
  - intros s k [f c] ws E s'.
    pose proof (scheduleDataWrite_queue k f c s _ E) as E'.
    destruct (scheduleAll_head ws _ _ _ _ E') as [q Hq].
    exists q. split; [exact Hq|].
    by apply processWritesOneCycle_writeInOrder.
Qed.
End WriteQueue.

(** Alice edits glyph "A", Bob edits "Aacute", then Bob edits "A" again:
    "A" stays at the head of the queue, with the thunk and the connection
    of the second edit, and the next cycle writes "A" first, then
    "Aacute". *)
Lemma write_queue_coalescing_fifo_witness :
  let a1 := Demo.EditGlyph "A" (Demo.glyphOf ["acute"]) in
  let b1 := Demo.EditGlyph "Aacute" (Demo.glyphOf ["A"]) in
  let a2 := Demo.EditGlyph "A" (Demo.glyphOf ["acute"; "acute"]) in
  let s : Demo.State :=
    run [EditFinal a1 false Demo.alice; EditFinal b1 false Demo.bob;
         EditFinal a2 false Demo.bob]
      (Demo.session Demo.aFont false false) in
  let fA := PutGlyph "A" (VRef 7) (VRef 1) in
  let fB := PutGlyph "Aacute" (VRef 6) (VRef 2) in
  let s' := (_processWritesOneCycle s).2 in
  _dataScheduledForWriting s
  = Some [(KTuple "glyphs" "A", (fA, Some Demo.bob));
          (KTuple "glyphs" "Aacute", (fB, Some Demo.bob))]
  ∧ writesOf (effects s) = []
  ∧ writesOf (effects s') = [fA; fB]
  ∧ PyDict.get "A" (Demo.fGlyphs (backend s'))
    = Some (Demo.glyphOf ["acute"; "acute"])
  ∧ _dataScheduledForWriting s' = Some [].
Proof.
  intros a1 b1 a2 s fA fB s'.
  assert (_dataScheduledForWriting s
          = Some [(KTuple "glyphs" "A", (fA, Some Demo.bob));
                  (KTuple "glyphs" "Aacute", (fB, Some Demo.bob))]) as Hq
    by (vm_compute; reflexivity).
  split; [exact Hq|]. split; [vm_compute; reflexivity|].
  pose proof write_queue_coalescing_fifo as (_ & _ & _ & _ & Hcycle & _).
  destruct (Hcycle s _ Hq) as [Heq _].
  subst s'. rewrite Heq.
  split; [vm_compute; reflexivity|]. split; vm_compute; reflexivity.
Defined.

(** ** Invalidation *)

Section Reload.
Context {Change B : Type} `{!ChangeAlgebra Change, !Backend B}.
Local Abbreviation State := (FontHandler Change B).

Lemma set_localData_same (s : State) : set_localData (localData s) s = s.
Proof. by destruct s. Qed.

Lemma for_cachePop {A} (f : A → DataKey) (l : list A) (s : State) :
  for_ l (λ x, cachePop (f x)) s
  = (inr tt, set_localData (popAll (map f l) (localData s)) s).
Proof.
  revert s. induction l as [|x l IH]; intros s; cbn.
  - by rewrite set_localData_same.
  - unfold bind, cachePop, modify. by rewrite IH.
Qed.

Lemma popAll_app ks1 ks2 c : popAll (ks1 ++ ks2) c = popAll ks2 (popAll ks1 c).
Proof. unfold popAll. by rewrite foldl_app. Qed.

Lemma dropLocalData_ok (p : pattern) (s : State) :
  glyphsIsMapping p →
  dropLocalData p s
  = (inr tt, set_localData (popAll (droppedKeys p) (localData s)) s).
Proof.
  unfold dropLocalData, droppedKeys, glyphsIsMapping.
  destruct p as [l]. cbn [items]. revert s.
  induction l as [|[k v] l IH]; intros s Hm.
  - cbn. by rewrite set_localData_same.
  - rewrite bind_cons, popAll_app. cbn [for_ fst snd]. unfold bind at 1.
    assert (∀ kv, kv ∈ l → kv.1 = "glyphs" → is_Some kv.2) as Hm'.
    { intros kv Hin. apply Hm. by right. }
    destruct (decide (k = "glyphs")) as [Hk|Hk].
    + destruct (Hm (k, v)) as [sub Hsub]; [left|done|]. cbn in Hsub. subst v.
      rewrite (for_cachePop (KTuple "glyphs")). rewrite IH by done. done.
    + unfold cachePop, modify. rewrite IH by done. done.
Qed.

Lemma connReloadPatterns_localData p c (s : State) :
  connReloadPatterns p (set_localData c s) = connReloadPatterns p s.
Proof. done. Qed.

Lemma connReloadPatterns_elem p (s : State) cp :
  cp ∈ connReloadPatterns p s → cp.1 ∈ connections s.
Proof.
  unfold connReloadPatterns. intros Hin.
  apply list_elem_of_omap in Hin as (c & Hc & Hcp). cbv zeta in Hcp.
  destruct (truthy _); [|done]. by simplify_eq.
Qed.

Lemma reloadData_gather (p : pattern) (s : State) :
  glyphsIsMapping p →
  reloadData p s
  = gather (map (λ cp, (cp.1, reloadDataCall cp.2)) (connReloadPatterns p s))
      (set_localData (popAll (droppedKeys p) (localData s)) s).
Proof.
  intros Hm. unfold reloadData, bind at 1. rewrite dropLocalData_ok by done.
  unfold bind, gets. rewrite connReloadPatterns_localData.
  destruct (connReloadPatterns p s) eqn:E; [|done].
  cbn. unfold gather, bind. done.
Qed.

(** [reloadData] on a pattern whose ["glyphs"] value is a mapping: the
    keys are popped and the subscribed clients are told, whether the calls
    on them return or raise. *)
Lemma reloadData_effects (p : pattern) (s : State) :
  glyphsIsMapping p →
  (reloadData p s).2
  = set_effects (effects s ++ reloadNotices p s)
      (set_localData (popAll (droppedKeys p) (localData s)) s).
Proof.
  intros Hm. rewrite reloadData_gather, gather_effects by done.
  unfold reloadNotices. by rewrite map_map.
Qed.

(** It returns when the calls on the clients return. *)
Lemma reloadData_ok (p : pattern) (s : State) :
  glyphsIsMapping p →
  (∀ c, c ∈ connections s → returns c) →
  reloadData p s
  = (inr tt, set_effects (effects s ++ reloadNotices p s)
               (set_localData (popAll (droppedKeys p) (localData s)) s)).
Proof.
  intros Hm Hret. rewrite reloadData_gather by done. rewrite gather_returns.
  - unfold reloadNotices. by rewrite map_map.
  - intros cc Hcc. apply list_elem_of_fmap in Hcc as (cp & -> & Hcp).
    apply Hret. by apply connReloadPatterns_elem in Hcp.
Qed.

(** What it raises was raised by the call on a client. *)
Lemma reloadData_raises (p : pattern) (s : State) e :
  glyphsIsMapping p →
  (reloadData p s).1 = inl e →
  ∃ c, c ∈ connections s ∧ Some e ∈ proxy c.
Proof.
  intros Hm. rewrite reloadData_gather by done. intros Hr.
  apply gather_raises in Hr as (cc & Hcc & He).
  apply list_elem_of_fmap in Hcc as (cp & -> & Hcp).
  exists cp.1. split; [|done]. by apply connReloadPatterns_elem in Hcp.
Qed.

Lemma get_without k k' es :
  PyDict.get k (LRUCache.without k' es)
  = if decide (k = k') then None else PyDict.get k es.
Proof.
  unfold LRUCache.without.
  induction es as [|[k0 v0] es IH]; [by case_decide|].
  cbn [List.filter fst]. case_bool_decide as Hk0.
  - cbn [PyDict.get]. destruct (decide (k = k0)) as [->|Hne]; [|apply IH].
    by rewrite decide_False.
  - subst k0. rewrite IH. cbn [PyDict.get].
    destruct (decide (k = k')); done.
Qed.

Lemma peek_pop k k' c :
  LRUCache.peek k (LRUCache.pop k' c)
  = if decide (k = k') then VNone else LRUCache.peek k c.
Proof.
  unfold LRUCache.peek, LRUCache.get, LRUCache.pop. cbn.
  rewrite get_without. case_decide; [done|].
  by destruct (PyDict.get k (LRUCache.entries c)).
Qed.

Lemma peek_popAll k ks c :
  LRUCache.peek k (popAll ks c)
  = if decide (k ∈ ks) then VNone else LRUCache.peek k c.
Proof.
  revert c. induction ks as [|k' ks IH]; intros c.
  - cbn. by rewrite decide_False by set_solver.
  - change (popAll (k' :: ks) c) with (popAll ks (LRUCache.pop k' c)).
    rewrite IH, peek_pop. repeat case_decide; set_solver.
Qed.

Lemma droppedKeys_writeKey k :
  writeKeyShape k → droppedKeys (_writeKeyToPattern k) = [k].
Proof.
  destruct k as [key|r sub]; cbn; intros Hk.
  - unfold droppedKeys. cbn. by rewrite decide_False.
  - subst r. done.
Qed.

Lemma glyphsIsMapping_writeKey k :
  writeKeyShape k → glyphsIsMapping (_writeKeyToPattern k).
Proof.
  destruct k as [key|r sub]; cbn; intros Hk kv Hin Hg.
  - apply list_elem_of_singleton in Hin. subst kv. done.
  - apply list_elem_of_singleton in Hin. subst kv. cbn. eauto.
Qed.

(** C5, at the input the claim singles out.  The pattern that maps
    ["glyphs"] to the sentinel contains the path of every glyph key, and
    [reloadData] on it raises [TypeError] before it has dropped anything:
    the cache reads as before for every key, and no client is told. *)
Theorem reloadData_glyphs_sentinel (s : State) :
  let P := PDict [("glyphs", None)] in
  (∀ glyphName, patternContains ["glyphs"; glyphName] P = true)
  ∧ reloadData P s = (inl TypeError, s)
  ∧ (∀ k, LRUCache.peek k (localData (reloadData P s).2)
          = LRUCache.peek k (localData s)).
Proof. cbn. done. Qed.
End Reload.

(** ** Scheduling a write after the write task has ended *)

Section AfterShutdown.
Context {Change B : Type} `{!ChangeAlgebra Change, !Backend B}.
Local Abbreviation State := (FontHandler Change B).

Lemma reloadData_writeKey_effects k (s : State) :
  writeKeyShape k →
  (reloadData (_writeKeyToPattern k) s).2
  = set_effects (effects s ++ reloadNotices (_writeKeyToPattern k) s)
      (set_localData (LRUCache.pop k (localData s)) s).
Proof.
  intros Hk. rewrite reloadData_effects by by apply glyphsIsMapping_writeKey.
  by rewrite droppedKeys_writeKey.
Qed.

Lemma reloadData_writeKey k (s : State) :
  writeKeyShape k →
  (∀ c, c ∈ connections s → returns c) →
  reloadData (_writeKeyToPattern k) s
  = (inr tt, set_effects (effects s ++ reloadNotices (_writeKeyToPattern k) s)
               (set_localData (LRUCache.pop k (localData s)) s)).
Proof.
  intros Hk Hret. rewrite reloadData_ok; [|by apply glyphsIsMapping_writeKey|done].
  by rewrite droppedKeys_writeKey.
Qed.

Lemma reloadNotices_no_message p (s : State) c title body :
  Awaited c (messageFromServer title body) ∉ reloadNotices p s.
Proof.
  unfold reloadNotices. intros Hin. apply list_elem_of_fmap in Hin as (cp & Heq & _).
  discriminate.
Qed.

(** With a connection, the caller is told. *)
Lemma scheduleDataWrite_after_shutdown_notifies k f c (s : State) :
  _dataScheduledForWriting s = None →
  writeKeyShape k →
  (∀ c', c' ∈ connections s → returns c') →
  returns c →
  scheduleDataWrite k f (Some c) s
  = (inr tt,
     set_effects
       (effects s ++ reloadNotices (_writeKeyToPattern k) s ++
        [Awaited c (messageFromServer "The data could not be saved."
           ("The edit has been reverted." ++ nl ++ nl ++
            "The Fontra server got itself into trouble, please contact an admin."))])
       (set_localData (LRUCache.pop k (localData s)) s)).
Proof.
  intros Hq Hk Hret Hc. unfold scheduleDataWrite, bind at 1, gets. rewrite Hq.
  unfold bind. rewrite reloadData_writeKey by done.
  rewrite awaitProxy_returns by done. cbn. by rewrite <- app_assoc.
Qed.

(** C6, at the input where the code departs from it.  Once the queue
    reference is [None], a write scheduled with no connection reloads the
    key, enqueues nothing and starts no task, but then raises: it raises
    [AttributeError] on [connection.proxy] (when the reload has raised
    nothing before, as it does when the calls on the subscribed clients
    return), and nobody is told that the data cannot be saved. *)
Theorem scheduleDataWrite_after_shutdown_no_connection k f (s : State) :
  _dataScheduledForWriting s = None →
  writeKeyShape k →
  let s' := set_effects (effects s ++ reloadNotices (_writeKeyToPattern k) s)
              (set_localData (LRUCache.pop k (localData s)) s) in
  (∃ e, scheduleDataWrite k f None s = (inl e, s')
        ∧ (e = AttributeError ∨ ∃ c, c ∈ connections s ∧ Some e ∈ proxy c)
        ∧ ((∀ c, c ∈ connections s → returns c) → e = AttributeError))
  ∧ _dataScheduledForWriting s' = None
  ∧ LRUCache.peek k (localData s') = VNone
  ∧ ∀ c title body,
      Awaited c (messageFromServer title body) ∈ effects s' →
      Awaited c (messageFromServer title body) ∈ effects s.
Proof.
  intros Hq Hk s'. split; [|split; [|split]].
  - unfold scheduleDataWrite, bind at 1, gets. rewrite Hq. unfold bind.
    pose proof (reloadData_writeKey_effects k s Hk) as Hst.
    pose proof (reloadData_raises (_writeKeyToPattern k) s) as Hraises.
    pose proof (reloadData_writeKey k s Hk) as Hok.
    destruct (reloadData (_writeKeyToPattern k) s) as [[e|[]] s0] eqn:E;
      cbn in Hst; subst s0.
    + exists e. split; [done|]. split.
      * right. apply Hraises; [by apply glyphsIsMapping_writeKey|done].
      * intros Hret. by specialize (Hok Hret).
    + exists AttributeError. split; [done|]. split; [by left|done].
  - done.
  - subst s'. cbn. rewrite peek_pop. by rewrite decide_True.
  - intros c title body. subst s'. cbn. rewrite elem_of_app.
    intros [Hin|Hin]; [done|]. by apply reloadNotices_no_message in Hin.
Qed.
End AfterShutdown.

(** After the write task has ended on a failed write, a write for glyph
    "A" comes without a connection. *)
Lemma scheduleDataWrite_after_shutdown_no_connection_witness :
  _dataScheduledForWriting Demo.stopped = None
  ∧ writeKeyShape (KTuple "glyphs" "A")
  ∧ (scheduleDataWrite (KTuple "glyphs" "A") (DeleteGlyph "A") None Demo.stopped).1
    = inl AttributeError.
Proof.
  assert (_dataScheduledForWriting Demo.stopped = None) as Hq by reflexivity.
  assert (writeKeyShape (KTuple "glyphs" "A")) as Hk by reflexivity.
  split; [exact Hq|]. split; [exact Hk|].
  pose proof (scheduleDataWrite_after_shutdown_no_connection
                (KTuple "glyphs" "A") (DeleteGlyph "A") Demo.stopped Hq Hk)
    as [(e & H & _ & He) _].
  rewrite H. cbn. f_equal. apply He.
  intros c Hc. vm_compute in Hc.
  apply list_elem_of_In in Hc. cbn in Hc.
  destruct Hc as [<-|[<-|[]]]; apply Forall_nil_2.
Defined.

(** ** A write that fails *)

Section WriteFailure.
Context {Change B : Type} `{!ChangeAlgebra Change, !Backend B}.
Local Abbreviation State := (FontHandler Change B).

(** The thunk of a write leaves the queue, the stored error and the two
    events alone. *)
Lemma callWriteFunc_frame f (s : State) :
  let s' := (callWriteFunc f s).2 in
  _dataScheduledForWriting s' = _dataScheduledForWriting s
  ∧ _processWritesError s' = _processWritesError s.
Proof.
  set (I := λ s0 : State,
    _dataScheduledForWriting s0 = _dataScheduledForWriting s
    ∧ _processWritesError s0 = _processWritesError s).
  assert (IgnoresData I) as HI by by split.
  assert (inv I (callWriteFunc f)) as Hinv by auto with inv_db.
  by apply Hinv.
Qed.

Lemma writerFailed_ignores e : IgnoresData (writerFailed (Change:=Change) (B:=B) e).
Proof. by split. Qed.

Lemma writerFailed_scheduleDataWrite e k f c :
  inv (S:=State) (writerFailed e) (scheduleDataWrite k f c).
Proof.
  pose proof (writerFailed_ignores e) as HI.
  unfold scheduleDataWrite. apply inv_gets_bind. intros s Hs.
  destruct Hs as [He Hq]. rewrite Hq.
  assert (inv (S:=State) (writerFailed e)
    (reloadData (_writeKeyToPattern k) ;;
     match c with
     | Some c0 => awaitProxy c0 (messageFromServer
          "The data could not be saved."
          ("The edit has been reverted." ++ nl ++ nl ++
           "The Fontra server got itself into trouble, please contact an admin."))
     | None => raise AttributeError
     end)) as Hinv by inv_auto.
  by apply Hinv.
Qed.

(** Once the write task has ended on an error, no step of the handler
    brings it back or clears the error. *)
Lemma writerFailed_run e rs (s : State) :
  writerFailed e s → writerFailed e (run rs s).
Proof.
  apply (inv_run (writerFailed e) (writerFailed_ignores e)); [| |done|done].
  - intros change conn. apply inv_updateLocalDataAndWriteToBackend;
      [apply writerFailed_ignores|apply writerFailed_scheduleDataWrite].
  - intros s' [He Hq]. unfold writerTurn. by rewrite Hq.
Qed.

Lemma finishWriting_failed e (s : State) :
  writerFailed e s → finishWriting s = (inl e, s).
Proof. intros [He _]. unfold finishWriting, bind, gets. by rewrite He. Qed.

(** The passes of the loop add up. *)
Lemma processWritesLoop_add n m (s : State) :
  _processWritesLoop (n + m) s
  = match _processWritesLoop n s with
    | (inl e, s') => (inl e, s')
    | (inr _, s') => _processWritesLoop m s'
    end.
Proof.
  revert s. induction n as [|n IH]; intros s; [done|].
  cbn [Nat.add]. destruct (_dataScheduledForWriting s) as [[|x q]|] eqn:Hq.
  - rewrite (processWritesLoop_done (S (n + m))), (processWritesLoop_done (S n))
      by done.
    by rewrite processWritesLoop_done.
  - rewrite !(processWritesLoop_step _ _ _ _ Hq).
    destruct (_processWritesOneItem s) as [[e|[]] s1]; [done|]. apply IH.
  - cbn [_processWritesLoop]. unfold bind, gets. rewrite Hq.
    destruct m; [done|]. cbn [_processWritesLoop]. unfold bind, gets.
    cbn. by rewrite Hq.
Qed.

(** After as many passes as there are entries before it, an entry is at
    the head of the queue. *)
Lemma processWritesLoop_reaches pre rest (s s0 : State) :
  _dataScheduledForWriting s = Some (pre ++ rest) →
  _processWritesLoop (length pre) s = (inr tt, s0) →
  _dataScheduledForWriting s0 = Some rest
  ∧ _processWritesError s0 = _processWritesError s.
Proof.
  revert s. induction pre as [|[k [f c]] pre IH]; intros s Hq Hloop.
  - cbn in Hloop. unfold ret in Hloop. by simplify_eq.
  - cbn [length] in Hloop. rewrite (processWritesLoop_step _ _ _ _ Hq) in Hloop.
    destruct (processWritesOneItem_queue s k f c _ Hq) as [Hq1 He1].
    destruct (_processWritesOneItem s) as [[e|[]] s1]; [done|].
    cbn in Hq1, He1. destruct (IH s1 Hq1 Hloop) as [Hq0 He0].
    split; [done|congruence].
Qed.

(** A cycle that raises ends the task, and the error stays. *)
Lemma stopsOn_intro e (s sx : State) :
  _processWritesOneCycle s = (inl e, sx) → stopsOn e s.
Proof.
  intros Hcycle. eexists. split.
  - unfold processWrites, try_finally, try_except. rewrite Hcycle. cbn.
    reflexivity.
  - assert (writerFailed e (_processWritesTaskDone
              (set_writingInProgressEvent true
                 (set_processWritesEvent false
                    (set_processWritesError (Some e) sx))))) as Hfailed
      by by split.
    split; [done|].
    intros rs. by apply finishWriting_failed, writerFailed_run.
Qed.

(** C2.  A write of the queue raises [e] when the cycle of the scheduler
    comes to it: the passes for the entries before it have returned.  The
    handler then calls [reloadData] on the pattern of the write key, which
    drops the cache entry of the key and calls the subscribed clients.
    When that returns and the write came with a connection, the connection
    is sent the notice that the edit has been reverted; when that returns
    too, the scheduler stores no error and goes on with the rest of the
    queue.  When the write came without a connection, the exception leaves
    the cycle: [processWrites] stores it, the task ends, the queue
    reference becomes [None], and from then on every [finishWriting],
    after any further steps of the handler, raises it.  When the call on a
    client raises, in the reload or in the notice, the same happens with
    the exception of the client.  The calls on the clients return when
    the proxies do. *)
Theorem write_failure_handling (s s0 s1 : State) pre k f c post e :
  _dataScheduledForWriting s = Some (pre ++ (k, (f, c)) :: post) →
  writeKeyShape k →
  _processWritesLoop (length pre) s = (inr tt, s0) →
  callWriteFunc f (set_dataScheduledForWriting (Some post) s0) = (inl e, s1) →
  let s2 := set_effects (effects s1 ++ reloadNotices (_writeKeyToPattern k) s1)
              (set_localData (LRUCache.pop k (localData s1)) s1) in
  _dataScheduledForWriting s0 = Some ((k, (f, c)) :: post)
  ∧ (reloadData (_writeKeyToPattern k) s1).2 = s2
  ∧ LRUCache.peek k (localData s2) = VNone
  ∧ match (reloadData (_writeKeyToPattern k) s1).1 with
    | inl e' => stopsOn e' s
    | inr _ =>
        match c with
        | Some connection =>
            let s3 := set_effects (effects s2 ++ [revertNotice connection e]) s2 in
            match proxyOutcome connection s2 with
            | Some e' => stopsOn e' s
            | None =>
                _processWritesOneItem s0 = (inr tt, s3)
                ∧ _processWritesOneCycle s = _processWritesLoop (length post) s3
                ∧ _processWritesError s3 = _processWritesError s
                ∧ _dataScheduledForWriting s3 = Some post
            end
        | None => stopsOn e s
        end
    end
  ∧ ((∀ c', c' ∈ connections s1 → returns c') →
     (reloadData (_writeKeyToPattern k) s1).1 = inr tt)
  ∧ (∀ connection, returns connection → proxyOutcome connection s2 = None).
Proof.
  intros Hq Hk Hpre Hf s2.
  destruct (processWritesLoop_reaches _ _ _ _ Hq Hpre) as [Hq0 He0].
  assert (_processWritesOneItem s0
          = handleWriteError (_writeKeyToPattern k) c e s1) as Hitem.
  { rewrite (processWritesOneItem_eq _ _ _ _ _ Hq0). unfold try_except.
    by rewrite Hf. }
  assert (_processWritesOneCycle s
          = match _processWritesOneItem s0 with
            | (inl e', s') => (inl e', s')
            | (inr _, s') => _processWritesLoop (length post) s'
            end) as Hcycle.
  { unfold _processWritesOneCycle. rewrite Hq. cbn [default from_option id].
    rewrite length_app. cbn [length]. rewrite processWritesLoop_add, Hpre.
    by rewrite (processWritesLoop_step _ _ _ _ Hq0). }
  pose proof (callWriteFunc_frame f (set_dataScheduledForWriting (Some post) s0))
    as [Hfq Hfe]. rewrite Hf in Hfq, Hfe. cbn in Hfq, Hfe.
  pose proof (reloadData_writeKey_effects k s1 Hk) as Hst. fold s2 in Hst.
  split; [done|]. split; [done|]. split.
  { subst s2. cbn. rewrite peek_pop. by rewrite decide_True. }
  split; [|split].
  - unfold handleWriteError, bind in Hitem.
    destruct (reloadData (_writeKeyToPattern k) s1) as [[e'|[]] sx];
      cbn in Hst; subst sx; cbn [fst].
    + rewrite Hitem in Hcycle. by apply (stopsOn_intro _ _ _ Hcycle).
    + destruct c as [connection|].
      * rewrite awaitProxy_eq in Hitem. fold (revertNotice (Change:=Change) connection e) in Hitem.
        destruct (proxyOutcome connection s2) as [e'|].
        -- rewrite Hitem in Hcycle. by apply (stopsOn_intro _ _ _ Hcycle).
        -- split; [done|]. rewrite Hitem in Hcycle. split; [done|].
           split; [by rewrite <- He0, <- Hfe|done].
      * unfold raise in Hitem. rewrite Hitem in Hcycle.
        by apply (stopsOn_intro _ _ _ Hcycle).
  - intros Hret. by rewrite reloadData_writeKey.
  - intros connection Hc. by apply proxyOutcome_returns.
Qed.
End WriteFailure.

(** The backend refuses every write.  An edit of glyph "A" by Alice and
    one of "Aacute" that came without a connection are pending.  The write
    of "A" fails and Alice is told; the write of "Aacute" fails and ends
    the task. *)
Lemma write_failure_handling_witness :
  let s : Demo.State :=
    run [EditFinal Demo.editA false Demo.alice;
         UpdateLocalData (Demo.EditGlyph "Aacute" (Demo.glyphOf ["A"])) None]
      (Demo.session (Demo.refusing Demo.aFont) false false) in
  let kA := KTuple "glyphs" "A" in
  let k := KTuple "glyphs" "Aacute" in
  let fA := PutGlyph "A" (VRef 4) (VRef 1) in
  let f := PutGlyph "Aacute" (VRef 6) (VRef 2) in
  let s0 := (_processWritesLoop 1 s).2 in
  let s1 := (callWriteFunc f (set_dataScheduledForWriting (Some []) s0)).2 in
  _dataScheduledForWriting s = Some ([(kA, (fA, Some Demo.alice))] ++ [(k, (f, None))])
  ∧ writeKeyShape k
  ∧ _processWritesLoop 1 s = (inr tt, s0)
  ∧ callWriteFunc f (set_dataScheduledForWriting (Some []) s0)
    = (inl (BackendError 1), s1)
  ∧ last (effects s0) = Some (revertNotice Demo.alice (BackendError 1))
  ∧ LRUCache.peek k (localData s) = VRef 5
  ∧ LRUCache.peek k (localData (processWrites s).2) = VNone
  ∧ stopsOn (BackendError 1) s.
Proof.
  intros s kA k fA f s0 s1.
  assert (_dataScheduledForWriting s
          = Some ([(kA, (fA, Some Demo.alice))] ++ [(k, (f, None))])) as Hq
    by (vm_compute; reflexivity).
  assert (writeKeyShape k) as Hk by reflexivity.
  assert (_processWritesLoop 1 s = (inr tt, s0)) as Hpre
    by (vm_compute; reflexivity).
  assert (callWriteFunc f (set_dataScheduledForWriting (Some []) s0)
          = (inl (BackendError 1), s1)) as Hf by (vm_compute; reflexivity).
  split; [exact Hq|]. split; [exact Hk|]. split; [exact Hpre|].
  split; [exact Hf|].
  split; [vm_compute; reflexivity|].
  split; [vm_compute; reflexivity|].
  pose proof (write_failure_handling s s0 s1 [(kA, (fA, Some Demo.alice))]
                k f None [] (BackendError 1) Hq Hk Hpre Hf)
    as (_ & _ & _ & Hstop & Hret & _).
  rewrite Hret in Hstop.
  - split; [vm_compute; reflexivity|exact Hstop].
  - intros c Hc. vm_compute in Hc. apply list_elem_of_In in Hc. cbn in Hc.
    destruct Hc as [<-|[<-|[]]]; apply Forall_nil_2.
Defined.

(** C2 as stated fails when a call on a client raises.  The backend refuses
    every write.  Carol, whose connection is lost, and Alice have one edit
    each pending.  The write of Carol's edit fails, and a connection is
    recorded for it; the notice to her raises [ConnectionError], which ends
    the task: the scheduler does not go on with the write of Alice's edit,
    whose thunk is never called, and Alice is not told. *)
Lemma write_failure_handling_counterexample :
  let s : Demo.State :=
    run [Connect Demo.carol; EditFinal Demo.editA false Demo.carol;
         EditFinal (Demo.EditGlyph "Aacute" (Demo.glyphOf ["A"])) false Demo.alice]
      (Demo.session (Demo.refusing Demo.aFont) false false) in
  let k := KTuple "glyphs" "A" in
  let f := PutGlyph "A" (VRef 4) (VRef 1) in
  let next := (KTuple "glyphs" "Aacute",
               (PutGlyph "Aacute" (VRef 6) (VRef 2), Some Demo.alice)) in
  _dataScheduledForWriting s = Some [(k, (f, Some Demo.carol)); next]
  ∧ (callWriteFunc f (set_dataScheduledForWriting (Some [next]) s)).1
    = inl (BackendError 1)
  ∧ (_processWritesOneItem s).1 = inl ConnectionError
  ∧ (processWrites s).1 = inl ConnectionError
  ∧ writerFailed ConnectionError (processWrites s).2
  ∧ writesOf (effects (processWrites s).2) = [f]
  ∧ ¬ ∃ e, revertNotice Demo.alice e ∈ effects (processWrites s).2.
Proof.
  intros s k f next.
  split; [vm_compute; reflexivity|]. split; [vm_compute; reflexivity|].
  split; [vm_compute; reflexivity|]. split; [vm_compute; reflexivity|].
  split; [split; vm_compute; reflexivity|].
  split; [vm_compute; reflexivity|].
  intros [e He]. vm_compute in He.
  repeat (apply elem_of_cons in He as [He|He]; [discriminate He|]).
  by apply elem_of_nil in He.
Qed.

(** ** Entries of the cache *)

Lemma get_app_None {V} (k : DataKey) (l1 l2 : PyDict.t DataKey V) :
  PyDict.get k l1 = None → PyDict.get k (l1 ++ l2) = PyDict.get k l2.
Proof.
  induction l1 as [|[k' v'] l1 IH]; [done|]. cbn.
  case_decide; [done|apply IH].
Qed.

(** Right after [cache[k] = v] the entry is there, if the cache can hold
    anything at all. *)
Lemma get_setitem k v c :
  (0 < LRUCache.maxSize c)%nat →
  PyDict.get k (LRUCache.entries (LRUCache.setitem k v c)) = Some v.
Proof.
  intros Hsize. unfold LRUCache.setitem. cbn.
  set (l := LRUCache.without k (LRUCache.entries c)).
  assert (PyDict.get k l = None) as Hl.
  { subst l. rewrite get_without. by rewrite decide_True. }
  assert (PyDict.get k (l ++ [(k, v)]) = Some v) as Hget.
  { rewrite get_app_None by done. cbn. by rewrite decide_True. }
  case_decide as Hlen; [|done].
  destruct l as [|[k' v'] l'].
  - cbn in Hlen. lia.
  - cbn [app drop]. cbn [app PyDict.get] in Hl, Hget.
    destruct (decide (k = k')); [done|]. by rewrite drop_0.
Qed.

(** A stored [None] reads like a missing entry. *)
Lemma peek_setitem_None k c :
  LRUCache.peek k (LRUCache.setitem k VNone c) = VNone.
Proof.
  unfold LRUCache.peek, LRUCache.get.
  destruct (PyDict.get k (LRUCache.entries (LRUCache.setitem k VNone c)))
    as [v|] eqn:E; [|done].
  cbn. apply get_Some_elem in E.
  unfold LRUCache.setitem in E. cbn in E.
  assert ((k, v) ∈ LRUCache.without k (LRUCache.entries c) ++ [(k, VNone)]) as Hin.
  { case_decide; [|done]. by eapply subseteq_drop. }
  apply elem_of_app in Hin as [Hin|Hin].
  - unfold LRUCache.without in Hin. apply list_elem_of_In, filter_In in Hin as [_ Hne].
    by apply bool_decide_eq_true in Hne.
  - apply list_elem_of_singleton in Hin. congruence.
Qed.

(** ** Reads of the cache *)

Lemma get_touch k v c :
  PyDict.get k (LRUCache.entries (LRUCache.touch k v c)) = Some v.
Proof.
  unfold LRUCache.touch. cbn [LRUCache.entries].
  rewrite get_app_None by (rewrite get_without; by rewrite decide_True).
  cbn. by rewrite decide_True.
Qed.

Lemma get_app_Some {V} (k : DataKey) (v : V) (l1 l2 : PyDict.t DataKey V) :
  PyDict.get k l1 = Some v → PyDict.get k (l1 ++ l2) = Some v.
Proof.
  induction l1 as [|[k' v'] l1 IH]; [done|]. cbn.
  case_decide; [done|apply IH].
Qed.

(** A read refreshes the entry and leaves what the cache holds as it
    is. *)
Lemma peek_get k k' c :
  LRUCache.peek k (LRUCache.get k' c).2 = LRUCache.peek k c.
Proof.
  unfold LRUCache.peek, LRUCache.get.
  destruct (PyDict.get k' (LRUCache.entries c)) as [v'|] eqn:Hk'; [|done].
  cbn [snd LRUCache.touch LRUCache.entries].
  destruct (decide (k = k')) as [->|Hne].
  - rewrite get_app_None by (rewrite get_without; by rewrite decide_True).
    cbn. rewrite decide_True by done. by rewrite Hk'.
  - destruct (PyDict.get k (LRUCache.entries c)) as [v|] eqn:Hk.
    + erewrite get_app_Some; [done|].
      rewrite get_without. by rewrite decide_False.
    + rewrite get_app_None by (rewrite get_without; by rewrite decide_False).
      cbn. by rewrite decide_False.
Qed.

Lemma maxSize_get k c :
  LRUCache.maxSize (LRUCache.get k c).2 = LRUCache.maxSize c.
Proof.
  unfold LRUCache.get. by destruct (PyDict.get k (LRUCache.entries c)).
Qed.

Section RawReads.
Context {Change B : Type} `{!ChangeAlgebra Change, !Backend B}.
Local Abbreviation State := (FontHandler Change B).

(** [_getData] leaves the cache alone and returns an object. *)
Lemma getData_raw_frame key (s s' : State) v :
  _getData key s = (inr v, s') →
  (∃ a, v = VRef a) ∧ localData s' = localData s.
Proof.
  assert (∀ c m, hoare (λ s : State, localData s = c) (allocGlyphMap m)
                   (λ _ s, localData s = c) (λ _, True)) as Hmap.
  { intros c m. unfold allocGlyphMap. eapply hoare_bind.
    - apply (hoare_fold_ (λ _ s, localData s = c)). intros acc [n cps].
      eapply hoare_bind with (Q := λ _ s, localData s = c);
        [by intros s0 Hs0|intros a; by apply hoare_ret].
    - intros entries s0 Hs0. done. }
  unfold _getData, bind, callBackend, allocM, alloc, ret.
  repeat case_decide; try done.
  all: cbn [backend effects set_effects].
  - destruct (be_getGlobalAxes (backend s)) as [[e|d] b']; [done|].
    intros [= <- <-]. split; [by eexists|done].
  - destruct (be_getGlyphMap (backend s)) as [[e|m] b']; [done|].
    match goal with
    | |- (let (_, _) := allocGlyphMap m ?s0 in _) = _ → _ =>
        pose proof (Hmap (localData s) m s0 eq_refl) as Hm;
        destruct (allocGlyphMap m s0) as [[e|a] s1]; [done|]
    end.
    cbn in Hm. intros [= <- <-]. split; [by eexists|done].
  - destruct (be_getCustomData (backend s)) as [[e|d] b']; [done|].
    intros [= <- <-]. split; [by eexists|done].
  - destruct (be_getUnitsPerEm (backend s)) as [[e|d] b']; [done|].
    intros [= <- <-]. split; [by eexists|done].
Qed.

End RawReads.

(** *** The cache through a commit with writes off *)






Lemma elem_of_insert_sorted x y l : x ∈ insert_sorted y l ↔ x = y ∨ x ∈ l.
Proof.
  induction l as [|z l IH]; cbn.
  - rewrite list_elem_of_singleton, elem_of_nil. naive_solver.
  - destruct (String.leb y z); rewrite !elem_of_cons, ?IH; naive_solver.
Qed.

Lemma elem_of_sorted x l : x ∈ sorted l ↔ x ∈ l.
Proof.
  induction l as [|y l IH]; [done|].
  change (sorted (y :: l)) with (insert_sorted y (sorted l)).
  by rewrite elem_of_insert_sorted, elem_of_cons, IH.
Qed.

Section CacheCommit.
Context {Change B : Type} `{!ChangeAlgebra Change, !Backend B}.
Local Abbreviation State := (FontHandler Change B).

Lemma peek_cached k (s : State) :
  LRUCache.peek k (localData s) = default VNone (cached k s).
Proof.
  unfold LRUCache.peek, LRUCache.get, cached.
  by destruct (PyDict.get k (LRUCache.entries (localData s))).
Qed.









End CacheCommit.


(** ** Read-only handlers *)

Section ReadOnly.
Context {Change B : Type} `{!ChangeAlgebra Change, !Backend B}.
Local Abbreviation State := (FontHandler Change B).






(** With writes off, the three commit steps are the cache updates and
    nothing else. *)
Lemma commitRootKey_off root conn k v (s : State) :
  k ∈ _assignedAttributeNames root →
  PyDict.get k (attrs root) = Some v →
  commitRootKey root conn false k s
  = (inr tt, set_localData (LRUCache.setitem (KStr k) v (localData s)) s).
Proof.
  intros Hk Hv. unfold commitRootKey. rewrite decide_True by done. by rewrite Hv.
Qed.

Lemma commitGlyph_off glyphSet glyphMap conn n v (s : State) :
  n ∈ DictSetDelTracker.newKeys glyphSet →
  PyDict.get n (DictSetDelTracker.data glyphSet) = Some v →
  commitGlyph glyphSet glyphMap conn false n s
  = (inr tt, set_localData (LRUCache.setitem (KTuple "glyphs" n) v (localData s)) s).
Proof.
  intros Hn Hv. unfold commitGlyph. rewrite Hv. unfold bind at 1. cbn.
  by rewrite decide_True by done.
Qed.

Lemma commitDeletedGlyph_off conn n (s : State) :
  commitDeletedGlyph conn false n s
  = (inr tt, set_localData (LRUCache.pop (KTuple "glyphs" n) (localData s)) s).
Proof. done. Qed.




End ReadOnly.


(** ** Copies in the write queue *)

(** *** The store grows *)

Lemma reach_app h h2 v :
  (∀ a, a ∈ reach h v → (a < length h)%nat) →
  reach (h ++ h2) v = reach h v.
Proof.
  destruct v as [|a]; [done|]. unfold reach. intros H.
  rewrite lookup_app_l; [done|]. apply H. left.
Qed.

Lemma bind_reach_app {X} (f : X → pyval) (l : list X) h h2 :
  (∀ a, a ∈ l ≫= (λ x, reach h (f x)) → (a < length h)%nat) →
  l ≫= (λ x, reach (h ++ h2) (f x)) = l ≫= (λ x, reach h (f x)).
Proof.
  induction l as [|x l IH]; [done|]. rewrite !bind_cons. intros H.
  rewrite reach_app, IH; [done| |].
  - intros a Ha. apply H. apply elem_of_app. by right.
  - intros a Ha. apply H. apply elem_of_app. by left.
Qed.

Lemma elem_of_reach_insert h a o v x :
  a ∉ reach h v → x ∈ reach (<[a := o]> h) v ↔ x ∈ reach h v.
Proof.
  destruct v as [|b]; [done|]. unfold reach. intros Ha.
  rewrite list_lookup_insert_ne; [done|]. intros ->. apply Ha. left.
Qed.

Lemma comprehension_ext {A A'} (f g : A → exn + A') (l : list A) :
  (∀ x, x ∈ l → f x = g x) → comprehension f l = comprehension g l.
Proof.
  induction l as [|x l IH]; [done|]. intros H. cbn.
  rewrite (H x) by left. rewrite IH; [done|]. intros y Hy. apply H. by right.
Qed.

(** A value reads the same after a store update outside its objects. *)
Lemma resolved_insert h a o v :
  a ∉ reach h v → resolved (<[a := o]> h) v = resolved h v.
Proof.
  destruct v as [|b]; [done|]. unfold reach. intros Ha.
  assert (a ≠ b) as Hab by (intros ->; apply Ha; left).
  unfold resolved, resolveGlyph, resolveData, resolveGlyphMap.
  rewrite list_lookup_insert_ne by done.
  destruct (h !! b) as [[g|m|l|d]|] eqn:Hb; try done.
  f_equal. apply comprehension_ext. intros [n x] Hx. unfold resolveList.
  rewrite list_lookup_insert_ne; [done|]. intros ->. apply Ha. right.
  apply list_elem_of_fmap. by exists (n, x).
Qed.

(** *** What keeps the copies apart *)

Lemma elem_of_PyDict_set {K V} `{EqDecision K} (k : K) (v : V) d x :
  x ∈ PyDict.set k v d → x = (k, v) ∨ x ∈ d.
Proof.
  induction d as [|[k' v'] d IH]; cbn.
  - intros ->%list_elem_of_singleton. by left.
  - case_decide; subst.
    + intros [->|Hx]%elem_of_cons; [by left|right; by right].
    + intros [->|Hx]%elem_of_cons; [right; left|].
      destruct (IH Hx) as [->|Hd]; [by left|right; by right].
Qed.

Lemma elem_of_without k es x : x ∈ LRUCache.without k es → x ∈ es.
Proof.
  unfold LRUCache.without. rewrite !list_elem_of_In, filter_In. tauto.
Qed.

Lemma elem_of_setitem k v c x :
  x ∈ LRUCache.entries (LRUCache.setitem k v c) →
  x = (k, v) ∨ x ∈ LRUCache.entries c.
Proof.
  unfold LRUCache.setitem. cbn. intros Hx.
  assert (x ∈ LRUCache.without k (LRUCache.entries c) ++ [(k, v)]) as Hx'.
  { case_decide; [|done]. by eapply subseteq_drop. }
  apply elem_of_app in Hx' as [Hx'|Hx'].
  - right. by eapply elem_of_without.
  - left. by apply list_elem_of_singleton in Hx'.
Qed.

Section Separation.
Context {Change B : Type} `{!ChangeAlgebra Change, !Backend B}.
Local Abbreviation State := (FontHandler Change B).
Implicit Types (s : State) (R : list addr).

Lemma cacheReach_grow s h2 :
  (∀ a, a ∈ cacheReach s → (a < length (heap s))%nat) →
  cacheReach (set_heap (heap s ++ h2) s) = cacheReach s.
Proof. intros H. unfold cacheReach. cbn. by apply (bind_reach_app snd). Qed.

Lemma payloadReach_grow s h2 :
  (∀ a, a ∈ payloadReach s → (a < length (heap s))%nat) →
  payloadReach (set_heap (heap s ++ h2) s) = payloadReach s.
Proof.
  intros H. unfold payloadReach. cbn.
  by apply (bind_reach_app (λ kv : DataKey * (writeFunc * option Connection),
                              copiedValue kv.2.1)).
Qed.

Lemma separated_grow R s h2 :
  separated R s → separated R (set_heap (heap s ++ h2) s).
Proof.
  intros (Hc & HR & Hp). unfold separated.
  rewrite cacheReach_grow by done.
  rewrite payloadReach_grow by (intros a Ha; by apply Hp).
  cbn. rewrite length_app. split; [|split].
  - intros a Ha. specialize (Hc a Ha). lia.
  - intros a Ha. specialize (HR a Ha). lia.
  - intros p Hp'. destruct (Hp p Hp') as (? & ? & ?). split; [lia|done].
Qed.

Lemma separated_cache_sub R s c' :
  (∀ kv, kv ∈ LRUCache.entries c' → kv ∈ LRUCache.entries (localData s)) →
  separated R s → separated R (set_localData c' s).
Proof.
  intros Hsub (Hc & HR & Hp).
  assert (∀ a, a ∈ cacheReach (set_localData c' s) → a ∈ cacheReach s) as Hin.
  { intros a. unfold cacheReach. cbn. rewrite !list_elem_of_bind.
    intros (kv & Ha & Hkv). exists kv. split; [done|by apply Hsub]. }
  split; [|split].
  - intros a Ha. apply Hc. by apply Hin.
  - done.
  - intros p Hp'. destruct (Hp p Hp') as (? & Hnc & ?).
    split; [done|]. split; [|done]. intros Hx. apply Hnc. by apply Hin.
Qed.

(** A value may go into the cache when its objects exist and are not
    among the copies. *)
Lemma separated_cacheSet R s k v :
  separated R s →
  (∀ a, a ∈ reach (heap s) v →
        (a < length (heap s))%nat ∧ (a ∉ payloadReach s)) →
  separated R (set_localData (LRUCache.setitem k v (localData s)) s).
Proof.
  intros (Hc & HR & Hp) Hv.
  assert (∀ a, a ∈ cacheReach
                     (set_localData (LRUCache.setitem k v (localData s)) s) →
               a ∈ reach (heap s) v ∨ a ∈ cacheReach s) as Hin.
  { intros a. unfold cacheReach. cbn. rewrite !list_elem_of_bind.
    intros (kv & Ha & Hkv). apply elem_of_setitem in Hkv as [->|Hkv].
    - by left.
    - right. by exists kv. }
  split; [|split].
  - intros a Ha. destruct (Hin a Ha) as [Hv'|Hc']; [by apply Hv|by apply Hc].
  - done.
  - intros p Hp'. destruct (Hp p Hp') as (? & Hnc & ?).
    split; [done|]. split; [|done]. intros Hx.
    destruct (Hin p Hx) as [Hv'|Hc']; [|done].
    by destruct (Hv p Hv').
Qed.

(** A write may go into the queue when the objects of its copied value
    exist and are neither in the cache nor among [R]. *)
Lemma separated_schedule R s q k f c :
  _dataScheduledForWriting s = Some q →
  separated R s →
  (∀ p, p ∈ reach (heap s) (copiedValue f) →
        (p < length (heap s))%nat ∧ (p ∉ cacheReach s) ∧ (p ∉ R)) →
  separated R (set_dataScheduledForWriting (Some (PyDict.set k (f, c) q)) s).
Proof.
  intros Hq (Hc & HR & Hp) Hf. split; [done|]. split; [done|].
  intros p. unfold payloadReach. cbn. rewrite list_elem_of_bind.
  intros (kv & Hp' & Hkv). apply elem_of_PyDict_set in Hkv as [->|Hkv].
  - by apply Hf.
  - apply Hp. unfold payloadReach. rewrite Hq. cbn.
    apply list_elem_of_bind. by exists kv.
Qed.

Lemma sepRoot_grow R root s h2 :
  sepRoot R root s → sepRoot R root (set_heap (heap s ++ h2) s).
Proof.
  intros [Hsep Hroot]. split; [by apply separated_grow|].
  intros v a Hv Ha. change (heap (set_heap (heap s ++ h2) s)) with (heap s ++ h2) in Ha.
  rewrite reach_app in Ha; [by eapply Hroot|].
  intros x Hx. destruct Hsep as (_ & HR & _). apply HR. by eapply Hroot.
Qed.

Lemma unshared_grow R a s h2 :
  separated R s → unshared R a s → unshared R a (set_heap (heap s ++ h2) s).
Proof.
  intros (Hc & HR & Hp) (Hlen & Hnp & Hnc & HnR). unfold unshared.
  rewrite cacheReach_grow by done.
  rewrite payloadReach_grow by (intros x Hx; by apply Hp).
  change (heap (set_heap (heap s ++ h2) s)) with (heap s ++ h2).
  rewrite length_app. split; [lia|done].
Qed.

Lemma unsharedVal_grow R v s h2 :
  separated R s → unsharedVal R v s →
  unsharedVal R v (set_heap (heap s ++ h2) s).
Proof.
  intros Hsep Hv a Ha.
  change (heap (set_heap (heap s ++ h2) s)) with (heap s ++ h2) in Ha.
  rewrite reach_app in Ha by (intros x Hx; by apply Hv).
  apply unshared_grow; [done|by apply Hv].
Qed.

(** A new object is unshared. *)
Lemma unshared_new R s o :
  separated R s → unshared R (length (heap s)) (set_heap (heap s ++ [o]) s).
Proof.
  intros (Hc & HR & Hp). unfold unshared.
  rewrite cacheReach_grow by done.
  rewrite payloadReach_grow by (intros x Hx; by apply Hp).
  change (heap (set_heap (heap s ++ [o]) s)) with (heap s ++ [o]).
  rewrite length_app. cbn. split; [lia|].
  split; [|split]; intros Hx; [apply Hp in Hx|apply Hc in Hx|apply HR in Hx]; lia.
Qed.

(** A new object made of unshared objects is an unshared value. *)
Lemma unsharedVal_new R s o :
  separated R s →
  (∀ x, x ∈ match o with OGlyphMap m => m.*2 | _ => [] end → unshared R x s) →
  unsharedVal R (VRef (length (heap s))) (set_heap (heap s ++ [o]) s).
Proof.
  intros Hsep Ho a Ha.
  change (heap (set_heap (heap s ++ [o]) s)) with (heap s ++ [o]) in Ha.
  unfold reach in Ha. rewrite list_lookup_middle in Ha by done.
  apply elem_of_cons in Ha as [->|Ha].
  - by apply unshared_new.
  - apply unshared_grow; [done|by apply Ho].
Qed.
End Separation.

(** *** [copy.deepcopy] allocates what it returns *)

Lemma deepcopyEntries_fresh m memo h m' h' l0 :
  deepcopyEntries m memo h = Some (m', h') →
  (l0 ≤ length h)%nat →
  (∀ x, x ∈ memo.*2 → (l0 ≤ x < length h)%nat) →
  ∃ h2, h' = h ++ h2 ∧ ∀ x, x ∈ m'.*2 → (l0 ≤ x < length h')%nat.
Proof.
  revert memo h m' h'.
  induction m as [|[n a] m IH]; intros memo h m' h' Hc Hl0 Hmemo.
  - cbn in Hc. inversion Hc; subst. exists []. split; [by rewrite app_nil_r|].
    intros x Hx. by apply elem_of_nil in Hx.
  - cbn [deepcopyEntries] in Hc.
    destruct (PyDict.get a memo) as [a'|] eqn:Hget.
    + destruct (deepcopyEntries m memo h) as [[r h1]|] eqn:Hrec; [|done].
      cbn in Hc. inversion Hc; subst.
      destruct (IH _ _ _ _ Hrec Hl0 Hmemo) as (h2 & -> & Hr).
      exists h2. split; [done|]. cbn [fmap list_fmap snd].
      intros x Hx. apply elem_of_cons in Hx as [Hx|Hx]; [subst x|by apply Hr].
      apply get_Some_elem in Hget.
      assert (a' ∈ memo.*2) as Hin
        by (apply list_elem_of_fmap; by exists (a, a')).
      specialize (Hmemo _ Hin). rewrite length_app. lia.
    + destruct (h !! a) as [[| |l|]|] eqn:Ha; try done.
      unfold alloc in Hc.
      destruct (deepcopyEntries m ((a, length h) :: memo) (h ++ [OList l]))
        as [[r h1]|] eqn:Hrec; [|done].
      cbn in Hc. inversion Hc; subst.
      destruct (IH _ _ _ _ Hrec) as (h2 & -> & Hr).
      * rewrite length_app. lia.
      * cbn [fmap list_fmap snd]. intros x Hx. rewrite length_app. cbn.
        apply elem_of_cons in Hx as [->|Hx]; [lia|].
        specialize (Hmemo _ Hx). lia.
      * exists ([OList l] ++ h2). split; [by rewrite app_assoc|].
        cbn [fmap list_fmap snd].
        intros x Hx. apply elem_of_cons in Hx as [->|Hx]; [|by apply Hr].
        rewrite !length_app. cbn. lia.
Qed.

Lemma deepcopyVal_fresh v h v' h' :
  deepcopyVal v h = Some (v', h') →
  ∃ h2, h' = h ++ h2
        ∧ ∀ a, a ∈ reach h' v' → (length h ≤ a < length h')%nat.
Proof.
  destruct v as [|a]; cbn.
  - intros [= <- <-]. exists []. split; [by rewrite app_nil_r|].
    intros a Ha. by apply elem_of_nil in Ha.
  - destruct (h !! a) as [o|] eqn:Ha; [|done].
    assert (∀ o', (∀ m, o' ≠ OGlyphMap m) →
      ∀ a0, a0 ∈ reach (h ++ [o']) (VRef (length h)) →
            (length h ≤ a0 < length (h ++ [o']))%nat) as Hplain.
    { intros o' Ho' a0. unfold reach. rewrite list_lookup_middle by done.
      rewrite length_app. cbn.
      destruct o'; try (intros ->%list_elem_of_singleton; lia).
      by destruct (Ho' m). }
    destruct o as [g|m|l|d]; unfold alloc.
    + intros [= <- <-]. exists [OGlyph g]. split; [done|by apply Hplain].
    + destruct (deepcopyEntries m [] h) as [[m' h1]|] eqn:Hm; [|done].
      cbn. intros [= <- <-].
      destruct (deepcopyEntries_fresh _ _ _ _ _ (length h) Hm) as (h2 & -> & Hr);
        [done|by intros x Hx; apply elem_of_nil in Hx|].
      exists (h2 ++ [OGlyphMap m']). split; [by rewrite app_assoc|].
      intros a0. unfold reach. rewrite list_lookup_middle by done.
      rewrite !length_app. cbn.
      intros [->|Hx]%elem_of_cons; [lia|].
      specialize (Hr _ Hx). rewrite length_app in Hr. lia.
    + intros [= <- <-]. exists [OList l]. split; [done|by apply Hplain].
    + intros [= <- <-]. exists [OData d]. split; [done|by apply Hplain].
Qed.

(** *** ... and what it returns reads like the original *)

Lemma deepcopyEntries_same m memo h m' h' :
  deepcopyEntries m memo h = Some (m', h') →
  (∀ a a', (a, a') ∈ memo →
           ∃ l, h !! a = Some (OList l) ∧ h !! a' = Some (OList l)) →
  Forall2 (λ x x' : string * addr,
             x.1 = x'.1 ∧ ∃ l, h' !! x.2 = Some (OList l)
                               ∧ h' !! x'.2 = Some (OList l)) m m'.
Proof.
  revert memo h m' h'.
  induction m as [|[n a] m IH]; intros memo h m' h' Hc Hmemo.
  - cbn in Hc. inversion Hc; subst. constructor.
  - cbn [deepcopyEntries] in Hc.
    destruct (PyDict.get a memo) as [a'|] eqn:Hget.
    + destruct (deepcopyEntries m memo h) as [[r h1]|] eqn:Hrec; [|done].
      cbn in Hc. inversion Hc; subst.
      destruct (deepcopyEntries_fresh _ _ _ _ _ 0 Hrec) as (h2 & -> & _);
        [lia|intros x Hx; split; [lia|]|].
      { apply list_elem_of_fmap in Hx as ([a0 a1] & -> & Hx). cbn.
        destruct (Hmemo _ _ Hx) as (l & _ & Hl). by eapply lookup_lt_Some. }
      constructor; [|by eapply IH].
      cbn. split; [done|]. apply get_Some_elem in Hget.
      destruct (Hmemo _ _ Hget) as (l & Ha & Ha'). exists l.
      split; by apply lookup_app_l_Some.
    + destruct (h !! a) as [[| |l|]|] eqn:Ha; try done.
      unfold alloc in Hc.
      destruct (deepcopyEntries m ((a, length h) :: memo) (h ++ [OList l]))
        as [[r h1]|] eqn:Hrec; [|done].
      cbn in Hc. inversion Hc; subst.
      assert (∀ a0 a', (a0, a') ∈ (a, length h) :: memo →
                ∃ l0, (h ++ [OList l]) !! a0 = Some (OList l0)
                      ∧ (h ++ [OList l]) !! a' = Some (OList l0)) as Hmemo'.
      { intros a0 a' [[= -> ->]|Hin]%elem_of_cons.
        - exists l. split; [by apply lookup_app_l_Some|].
          by rewrite list_lookup_middle.
        - destruct (Hmemo _ _ Hin) as (l0 & H0 & H0'). exists l0.
          split; by apply lookup_app_l_Some. }
      destruct (deepcopyEntries_fresh _ _ _ _ _ 0 Hrec) as (h2 & Hh' & _);
        [lia|intros x Hx; split; [lia|]|].
      { apply list_elem_of_fmap in Hx as ([a0 a1] & -> & Hx). cbn.
        destruct (Hmemo' _ _ Hx) as (l0 & _ & Hl). by eapply lookup_lt_Some. }
      constructor; [|by eapply IH].
      cbn. split; [done|]. exists l. subst h'. rewrite <- app_assoc. split.
      * by apply lookup_app_l_Some.
      * cbn. by rewrite list_lookup_middle.
Qed.

Lemma comprehension_Forall2 {A A'} (f g : A → exn + A') (l l' : list A) :
  Forall2 (λ x x', f x = g x') l l' → comprehension f l = comprehension g l'.
Proof.
  induction 1 as [|x x' l l' Hx _ IH]; [done|]. cbn. by rewrite Hx, IH.
Qed.

(** The copy reads like the original, in the store after the copy. *)
Lemma deepcopyVal_same v h v' h' :
  deepcopyVal v h = Some (v', h') → resolved h' v' = resolved h' v.
Proof.
  destruct v as [|a]; cbn.
  - by intros [= <- <-].
  - destruct (h !! a) as [o|] eqn:Ha; [|done].
    assert (∀ o', h !! a = Some o' → (∀ m, o' ≠ OGlyphMap m) →
              resolved (h ++ [o']) (VRef (length h))
              = resolved (h ++ [o']) (VRef a)) as Hplain.
    { intros o' Ho' Hm. unfold resolved, resolveGlyph, resolveData, resolveGlyphMap.
      rewrite list_lookup_middle by done.
      rewrite (lookup_app_l_Some _ _ _ _ Ho').
      destruct o'; try done. }
    destruct o as [g|m|l|d]; unfold alloc.
    + intros [= <- <-]. by apply Hplain.
    + destruct (deepcopyEntries m [] h) as [[m' h1]|] eqn:Hm; [|done].
      cbn. intros [= <- <-].
      destruct (deepcopyEntries_fresh _ _ _ _ _ 0 Hm) as (h2 & -> & _);
        [lia|by intros x Hx; apply elem_of_nil in Hx|].
      pose proof (deepcopyEntries_same _ _ _ _ _ Hm) as Hsame.
      unfold resolved, resolveGlyph, resolveData, resolveGlyphMap.
      rewrite list_lookup_middle by done.
      rewrite <- app_assoc. rewrite (lookup_app_l_Some _ _ _ _ Ha).
      f_equal. symmetry. rewrite app_assoc. apply comprehension_Forall2.
      eapply Forall2_impl; [apply Hsame; by intros a0 a' Hin%elem_of_nil|].
      intros [n0 a0] [n1 a1] (Hn & l0 & H0 & H1). cbn in *. subst n1.
      unfold resolveList.
      rewrite (lookup_app_l_Some _ _ _ _ H0), (lookup_app_l_Some _ _ _ _ H1).
      done.
    + intros [= <- <-]. by apply Hplain.
    + intros [= <- <-]. by apply Hplain.
Qed.

(** *** The commit step keeps the copies apart *)

Section Commit.
Context {Change B : Type} `{!ChangeAlgebra Change, !Backend B}.
Local Abbreviation State := (FontHandler Change B).
Context (R : list addr) (root : Font).

Local Abbreviation J := (sepRoot (Change:=Change) (B:=B) R root).

Lemma J_cache_sub (s : State) c' :
  (∀ kv, kv ∈ LRUCache.entries c' → kv ∈ LRUCache.entries (localData s)) →
  J s → J (set_localData c' s).
Proof. intros Hsub [Hsep Hroot]. split; [by apply separated_cache_sub|done]. Qed.

Lemma J_cacheSet (s : State) k v :
  J s → (∀ a, a ∈ reach (heap s) v →
              (a < length (heap s))%nat ∧ (a ∉ payloadReach s)) →
  J (set_localData (LRUCache.setitem k v (localData s)) s).
Proof. intros [Hsep Hroot] Hv. split; [by apply separated_cacheSet|done]. Qed.

Lemma entries_touch k v c kv :
  PyDict.get k (LRUCache.entries c) = Some v →
  kv ∈ LRUCache.entries (LRUCache.touch k v c) → kv ∈ LRUCache.entries c.
Proof.
  intros Hget. unfold LRUCache.touch. cbn.
  intros [Hin|Hin]%elem_of_app; [by eapply elem_of_without|].
  apply list_elem_of_singleton in Hin. subst kv. by apply get_Some_elem.
Qed.

Lemma hoare_cacheGet k : hoare J (cacheGet k) (λ _, J) J.
Proof.
  intros s HJ. unfold cacheGet, LRUCache.get.
  destruct (PyDict.get k (LRUCache.entries (localData s))) as [v|] eqn:Hget; cbn.
  - apply J_cache_sub; [|done]. intros kv. by apply entries_touch.
  - apply J_cache_sub; [|done]. done.
Qed.

Lemma hoare_cacheGetItem k : hoare J (cacheGetItem k) (λ _, J) J.
Proof.
  intros s HJ. unfold cacheGetItem, LRUCache.getitem.
  destruct (PyDict.get k (LRUCache.entries (localData s))) as [v|] eqn:Hget; cbn.
  - apply J_cache_sub; [|done]. intros kv. by apply entries_touch.
  - done.
Qed.

Lemma hoare_cachePop k : hoare J (cachePop k) (λ _, J) J.
Proof.
  intros s HJ. cbn. apply J_cache_sub; [|done].
  intros kv. apply elem_of_without.
Qed.

(** A value of the root object may go into the cache. *)
Lemma hoare_cacheSet_root k v :
  v ∈ rootValues root → hoare J (cacheSet k v) (λ _, J) J.
Proof.
  intros Hv s HJ. cbn. apply J_cacheSet; [done|].
  destruct HJ as [(Hc & HR & Hp) Hroot]. intros a Ha.
  assert (a ∈ R) as HaR by by eapply Hroot.
  split; [by apply HR|]. intros Hx. by destruct (Hp a Hx) as (_ & _ & ?).
Qed.

(** So may a value that nothing refers to. *)
Lemma hoare_cacheSet_unshared k v :
  hoare (λ s, J s ∧ unsharedVal R v s) (cacheSet k v) (λ _, J) J.
Proof.
  intros s [HJ Hv]. cbn. apply J_cacheSet; [done|].
  intros a Ha. by destruct (Hv a Ha) as (? & ? & _).
Qed.

Lemma hoare_allocM_plain o :
  (∀ m, o ≠ OGlyphMap m) →
  hoare J (allocM o) (λ a s, J s ∧ unsharedVal R (VRef a) s) J.
Proof.
  intros Ho s HJ. cbn. split; [by apply sepRoot_grow|].
  apply unsharedVal_new; [by destruct HJ|].
  intros x Hx. destruct o; try by apply elem_of_nil in Hx. by destruct (Ho m).
Qed.

Lemma hoare_callBackend {A} c (f : B → (exn + A) * B) :
  hoare J (callBackend c f) (λ _, J) J.
Proof.
  intros s HJ. unfold callBackend. cbn.
  destruct (f (backend s)) as [[e|a] b]; cbn; exact HJ.
Qed.

Lemma hoare_allocGlyphMap m :
  hoare J (allocGlyphMap m) (λ a s, J s ∧ unsharedVal R (VRef a) s) J.
Proof.
  unfold allocGlyphMap.
  eapply hoare_bind with
    (Q := λ entries s, J s ∧ ∀ x, x ∈ entries.*2 → unshared R x s).
  - eapply hoare_conseq with
      (P := λ s, J s ∧ ∀ x, x ∈ ([] : list (string * addr)).*2 → unshared R x s)
      (E := λ s, J s ∧ True).
    + apply (hoare_fold_
        (λ (acc : list (string * addr)) s,
           J s ∧ ∀ x, x ∈ acc.*2 → unshared R x s)).
      intros acc [n cps] s [HJ Hacc]. cbn. split; [by apply sepRoot_grow|].
      intros x. rewrite fmap_app. cbn. intros [Hx|Hx]%elem_of_app.
      * apply unshared_grow; [by destruct HJ|by apply Hacc].
      * apply list_elem_of_singleton in Hx. subst x.
        apply unshared_new. by destruct HJ.
    + intros s HJ. split; [done|]. intros x Hx. by apply elem_of_nil in Hx.
    + done.
    + by intros s [HJ _].
  - intros entries s [HJ Hent]. cbn. split; [by apply sepRoot_grow|].
    apply unsharedVal_new; [by destruct HJ|done].
Qed.
Lemma hoare_getData_raw key :
  hoare J (_getData key) (λ v s, J s ∧ unsharedVal R v s) J.
Proof.
  unfold _getData.
  repeat case_decide; try (apply hoare_raise; done);
    (eapply hoare_bind; [apply hoare_callBackend|]); intros value;
    (eapply hoare_bind;
       [first [apply hoare_allocGlyphMap | by apply hoare_allocM_plain]|]);
    intros a; by apply hoare_ret.
Qed.

Lemma hoare_getData key : hoare J (getData key) (λ _, J) J.
Proof.
  unfold getData. eapply hoare_bind; [apply hoare_cacheGet|].
  intros [|a]; [|by apply hoare_ret].
  eapply hoare_bind; [apply hoare_getData_raw|]. intros v.
  eapply hoare_bind; [apply hoare_cacheSet_unshared|]. intros u.
  by apply hoare_ret.
Qed.

(** An object allocated after [s] is unshared. *)
Lemma unshared_later (s : State) h2 a :
  separated R s →
  (length (heap s) ≤ a < length (heap s ++ h2))%nat →
  unshared R a (set_heap (heap s ++ h2) s).
Proof.
  intros (Hc & HR & Hp) Ha. unfold unshared.
  rewrite cacheReach_grow by done.
  rewrite payloadReach_grow by (intros x Hx; by apply Hp).
  change (heap (set_heap (heap s ++ h2) s)) with (heap s ++ h2).
  split; [lia|].
  split; [|split]; intros Hx; [apply Hp in Hx|apply Hc in Hx|apply HR in Hx]; lia.
Qed.

(** [deepcopy] returns a value that nothing refers to. *)
Lemma hoare_deepcopy v :
  hoare J (deepcopy v) (λ v' s, J s ∧ unsharedVal R v' s) J.
Proof.
  intros s HJ. unfold deepcopy.
  destruct (deepcopyVal v (heap s)) as [[v' h']|] eqn:Hc; cbn; [|done].
  destruct (deepcopyVal_fresh _ _ _ _ Hc) as (h2 & -> & Hfresh).
  split; [by apply sepRoot_grow|].
  intros a Ha. apply unshared_later; [by destruct HJ|by apply Hfresh].
Qed.

Lemma hoare_glyphMapGet v glyphMap glyphName :
  hoare (λ s, J s ∧ unsharedVal R v s) (glyphMapGet glyphMap glyphName)
    (λ _ s, J s ∧ unsharedVal R v s) J.
Proof.
  intros s [HJ Hv]. unfold glyphMapGet.
  destruct glyphMap as [|a]; [done|]. unfold bind, gets.
  destruct (heap s !! a) as [[g|m|l|d]|]; try done.
  destruct (PyDict.get glyphName m); [done|]. cbn.
  split; [by apply sepRoot_grow|].
  apply unsharedVal_grow; [by destruct HJ|done].
Qed.

Lemma hoare_emit e : hoare J (emit e) (λ _, J) J.
Proof. by intros s HJ. Qed.

Lemma hoare_awaitProxy c call : hoare J (awaitProxy c call) (λ _, J) J.
Proof.
  intros s HJ. rewrite awaitProxy_eq. by destruct (proxyOutcome c s).
Qed.

Lemma hoare_gather calls : hoare J (gather calls) (λ _, J) J.
Proof.
  intros s HJ. rewrite gather_effects. by destruct (gather calls s).1.
Qed.

Lemma hoare_reloadData p : hoare J (reloadData p) (λ _, J) J.
Proof.
  unfold reloadData, dropLocalData.
  eapply hoare_bind.
  - apply hoare_for_. intros [rootKey value] _.
    case_decide.
    + destruct value as [sub|]; [|by apply hoare_raise].
      apply hoare_for_. intros glyphName _. apply hoare_cachePop.
    + apply hoare_cachePop.
  - intros u. eapply hoare_bind; [apply hoare_gets|]. intros conns.
    eapply hoare_conseq with (P := J) (Q := λ _, J) (E := J);
      [|by intros s [? _]|done|done].
    destruct conns; [by apply hoare_ret|apply hoare_gather].
Qed.

(** The invariant reads the heap, the cache and the queue only. *)
Lemma J_same (s s' : State) :
  heap s' = heap s → localData s' = localData s →
  _dataScheduledForWriting s' = _dataScheduledForWriting s →
  J s → J s'.
Proof.
  intros Hh Hl Hq.
  unfold sepRoot, separated, rootWithin, cacheReach, payloadReach.
  by rewrite Hh, Hl, Hq.
Qed.

(** A write whose copied value nothing refers to may be scheduled. *)
Lemma hoare_scheduleDataWrite k f c :
  hoare (λ s, J s ∧ unsharedVal R (copiedValue f) s)
    (scheduleDataWrite k f c) (λ _, J) J.
Proof.
  unfold scheduleDataWrite. eapply hoare_bind; [apply hoare_gets|].
  intros [q|].
  - intros s [[HJ Hf] Hq].
    assert (J (set_dataScheduledForWriting (Some (PyDict.set k (f, c) q)) s))
      as HJ'.
    { destruct HJ as [Hsep Hroot]. split; [|done].
      apply separated_schedule; [done|done|].
      intros p Hp. by destruct (Hf p Hp) as (? & ? & ? & ?). }
    unfold bind, modify. cbn. destruct (bool_decide (q = [])); [|done].
    by eapply J_same; [..|exact HJ'].
  - eapply hoare_conseq with (P := J) (Q := λ _, J) (E := J);
      [|by intros s [[? _] _]|done|done].
    eapply hoare_bind; [apply hoare_reloadData|]. intros u.
    destruct c; [apply hoare_awaitProxy|by apply hoare_raise].
Qed.

Lemma unsharedVal_None (s : State) : unsharedVal R VNone s.
Proof. intros a Ha. by apply elem_of_nil in Ha. Qed.

Lemma data_in_rootValues t n v :
  glyphs root = Some t →
  PyDict.get n (DictSetDelTracker.data t) = Some v → v ∈ rootValues root.
Proof.
  intros Ht Hv. unfold rootValues. rewrite Ht. apply elem_of_app. right.
  apply get_Some_elem in Hv. apply list_elem_of_fmap. by exists (n, v).
Qed.

Lemma attr_in_rootValues k v :
  PyDict.get k (attrs root) = Some v → v ∈ rootValues root.
Proof.
  intros Hv. unfold rootValues. apply elem_of_app. left.
  apply get_Some_elem in Hv. apply list_elem_of_fmap. by exists (k, v).
Qed.

Lemma hoare_commitGlyph t glyphMap conn w n :
  glyphs root = Some t →
  hoare J (commitGlyph t glyphMap conn w n) (λ _, J) J.
Proof.
  intros Ht. unfold commitGlyph.
  destruct (PyDict.get n (DictSetDelTracker.data t)) as [v|] eqn:Hv;
    [apply hoare_bind_ret|by apply hoare_bind_raise].
  eapply hoare_bind with (Q := λ _, J).
  { case_decide; [|by apply hoare_ret].
    apply hoare_cacheSet_root. by eapply data_in_rootValues. }
  intros u. destruct w; cbn [negb]; [|by apply hoare_ret].
  eapply hoare_bind; [by apply hoare_assert|]. intros u'.
  eapply hoare_bind; [apply hoare_deepcopy|]. intros copy.
  eapply hoare_bind; [apply hoare_glyphMapGet|]. intros codePoints.
  apply (hoare_scheduleDataWrite _ (PutGlyph n copy codePoints)).
Qed.

Lemma hoare_commitDeletedGlyph conn w n :
  hoare J (commitDeletedGlyph conn w n) (λ _, J) J.
Proof.
  unfold commitDeletedGlyph.
  eapply hoare_bind; [apply hoare_cachePop|]. intros u.
  destruct w; cbn [negb]; [|by apply hoare_ret].
  eapply hoare_bind; [by apply hoare_assert|]. intros u'.
  eapply hoare_conseq;
    [apply (hoare_scheduleDataWrite _ (DeleteGlyph n))| |done|done].
  intros s HJ. split; [done|apply unsharedVal_None].
Qed.

Lemma hoare_commitRootKey conn w rootKey :
  hoare J (commitRootKey root conn w rootKey) (λ _, J) J.
Proof.
  unfold commitRootKey.
  eapply hoare_bind with (Q := λ _, J).
  { case_decide; [|by apply hoare_ret].
    destruct (PyDict.get rootKey (attrs root)) as [v|] eqn:Hv;
      [|by apply hoare_raise].
    apply hoare_cacheSet_root. by eapply attr_in_rootValues. }
  intros u. destruct w; cbn [negb]; [|by apply hoare_ret].
  eapply hoare_bind; [by apply hoare_assert|]. intros u'.
  eapply hoare_bind; [apply hoare_cacheGetItem|]. intros value.
  eapply hoare_bind; [apply hoare_deepcopy|]. intros copy.
  apply (hoare_scheduleDataWrite _ (PutData rootKey copy)).
Qed.

(** The commit step keeps the copies apart from the cache and from the
    root object, whether it returns or raises. *)
Lemma hoare_updateLocalData rootKeys conn w :
  hoare J (_updateLocalData rootKeys root conn w) (λ _, J) J.
Proof.
  unfold _updateLocalData. apply hoare_for_. intros rootKey _.
  case_decide; [|apply hoare_commitRootKey].
  destruct (glyphs root) as [t|] eqn:Ht;
    [apply hoare_bind_ret|by apply hoare_bind_raise].
  eapply hoare_bind; [apply hoare_getData|]. intros glyphMap.
  eapply hoare_bind.
  - apply hoare_for_. intros n _. by apply hoare_commitGlyph.
  - intros u. apply hoare_for_. intros n _. apply hoare_commitDeletedGlyph.
Qed.
End Commit.

(** *** Later changes of cached objects *)

Lemma reach_insert h a o v :
  a ∉ reach h v → reach (<[a := o]> h) v = reach h v.
Proof.
  destruct v as [|b]; [done|]. unfold reach. intros Ha.
  rewrite list_lookup_insert_ne; [done|]. intros ->. apply Ha. left.
Qed.

(** A value reads the same after any number of changes of objects that
    are none of its own. *)
Lemma resolved_mutate changes h v :
  (∀ m, m ∈ changes → m.1 ∉ reach h v) →
  resolved (mutate changes h) v = resolved h v.
Proof.
  revert h. induction changes as [|[a o] changes IH]; intros h H; [done|].
  assert (a ∉ reach h v) as Ha by (apply (H (a, o)); left).
  change (mutate ((a, o) :: changes) h) with (mutate changes (<[a := o]> h)).
  rewrite IH, resolved_insert; [done|done|].
  intros m Hm. rewrite reach_insert by done. apply H. by right.
Qed.

(** *** What the commit of a glyph schedules *)

Lemma resolveGlyph_app v h h2 :
  (∀ a, v = VRef a → (a < length h)%nat) →
  resolveGlyph v (h ++ h2) = resolveGlyph v h.
Proof.
  intros Hv. destruct v as [|a]; [done|]. cbn.
  by rewrite lookup_app_l by by apply Hv.
Qed.

Lemma deepcopyVal_bound v h v' h' :
  deepcopyVal v h = Some (v', h') → ∀ a, v = VRef a → (a < length h)%nat.
Proof.
  intros Hc a ->. cbn in Hc.
  destruct (h !! a) eqn:E; [|done]. by apply lookup_lt_Some in E.
Qed.

(** The copy of a glyph reads, in the store after the copy, as the glyph
    read before it. *)
Lemma deepcopyVal_glyph v h v' h' :
  deepcopyVal v h = Some (v', h') →
  resolveGlyph v' h' = resolveGlyph v h
  ∧ (∀ a, v' = VRef a → (length h ≤ a < length h')%nat)
  ∧ ∃ h2, h' = h ++ h2.
Proof.
  intros Hc.
  pose proof (deepcopyVal_same _ _ _ _ Hc) as Hsame.
  destruct (deepcopyVal_fresh _ _ _ _ Hc) as (h2 & -> & Hfresh).
  split; [|split; [|by exists h2]].
  - injection Hsame as Hg _ _. rewrite Hg.
    apply resolveGlyph_app. by apply (deepcopyVal_bound _ _ _ _ Hc).
  - intros a ->. apply Hfresh. cbn. left.
Qed.

Section CommitGlyph.
Context {Change B : Type} `{!ChangeAlgebra Change, !Backend B}.
Local Abbreviation State := (FontHandler Change B).

(** The commit of a glyph with writes on, for a glyph set that has the
    name: the cache entry is written if the name is new, the value is
    copied, and the write is scheduled with the copy and with what
    [glyphMap.get(glyphName, [])] gives. *)
Lemma commitGlyph_on t glyphMap conn n value copy h' (s : State) :
  isWritableFontBackend = true →
  PyDict.get n (DictSetDelTracker.data t) = Some value →
  deepcopyVal value (heap s) = Some (copy, h') →
  commitGlyph t glyphMap conn true n s
  = (codePoints <- glyphMapGet glyphMap n ;;
     scheduleDataWrite (KTuple "glyphs" n) (PutGlyph n copy codePoints) conn)
      (set_heap h'
         (if decide (n ∈ DictSetDelTracker.newKeys t)
          then (cacheSet (KTuple "glyphs" n) value s).2 else s)).
Proof.
  intros Hw Hvalue Hcopy. unfold commitGlyph. rewrite Hvalue, Hw.
  unfold bind at 1. cbn [ret negb]. unfold bind at 1.
  case_decide.
  - cbn [cacheSet modify fst snd]. unfold bind at 1. cbn [assert_ ret].
    unfold bind at 1, deepcopy. cbn [heap set_localData]. by rewrite Hcopy.
  - cbn [ret]. unfold bind at 1. cbn [assert_ ret].
    unfold bind at 1, deepcopy. by rewrite Hcopy.
Qed.
(** C9, where the code departs from it.  The commit of a glyph whose name
    the cached glyph map has, with writes on and the write task alive,
    puts [putGlyph(glyphName, copy, codePoints)] into the queue.  The
    glyph is a copy: it is made of new objects and reads as the glyph of
    the glyph set.  The code points are not: they are the list object
    that the glyph map refers to, which existed before.  So a change of
    that list in place, as a later edit of the glyph map makes it, changes
    what the pending write hands to the backend as code points, while the
    copied glyph reads as before. *)
Theorem putGlyph_code_points_shared (t : DictSetDelTracker.t) (gm : addr)
    (m : list (string * addr)) (conn : option Connection) (n : string)
    (value copy : pyval) (cps : addr) (l : list Z) (h' : store)
    (q : WriteQueue) (s : State) :
  isWritableFontBackend = true →
  _dataScheduledForWriting s = Some q →
  PyDict.get n (DictSetDelTracker.data t) = Some value →
  heap s !! gm = Some (OGlyphMap m) →
  PyDict.get n m = Some cps →
  heap s !! cps = Some (OList l) →
  deepcopyVal value (heap s) = Some (copy, h') →
  let r := commitGlyph t (VRef gm) conn true n s in
  r.1 = inr tt
  ∧ _dataScheduledForWriting r.2
    = Some (PyDict.set (KTuple "glyphs" n) (PutGlyph n copy (VRef cps), conn) q)
  ∧ heap r.2 = h'
  ∧ resolveGlyph copy h' = resolveGlyph value (heap s)
  ∧ (∀ a, copy = VRef a → (length (heap s) ≤ a < length h')%nat)
  ∧ (cps < length (heap s))%nat
  ∧ resolveList (VRef cps) h' = inr l
  ∧ ∀ l', resolveList (VRef cps) (<[cps := OList l']> h') = inr l'
          ∧ resolveGlyph copy (<[cps := OList l']> h') = resolveGlyph copy h'.
Proof.
  intros Hw Hq Hvalue Hgm Hn Hcps Hcopy r.
  destruct (deepcopyVal_glyph _ _ _ _ Hcopy) as (Hglyph & Hfresh & h2 & ->).
  pose proof (lookup_lt_Some _ _ _ Hcps) as Hlt.
  subst r. rewrite (commitGlyph_on t (VRef gm) conn n value copy _ s Hw Hvalue Hcopy).
  set (s1 := set_heap (heap s ++ h2) _).
  assert (heap s1 = heap s ++ h2) as Hh1 by (subst s1; by case_decide).
  assert (_dataScheduledForWriting s1 = Some q) as Hq1 by (subst s1; by case_decide).
  assert ((codePoints <- glyphMapGet (VRef gm) n ;;
           scheduleDataWrite (KTuple "glyphs" n) (PutGlyph n copy codePoints)
             conn) s1
          = scheduleDataWrite (KTuple "glyphs" n) (PutGlyph n copy (VRef cps))
              conn s1) as ->.
  { unfold bind at 1, glyphMapGet, bind at 1, gets. rewrite Hh1.
    by rewrite (lookup_app_l_Some _ _ _ _ Hgm), Hn. }
  destruct (scheduleDataWrite_alive (KTuple "glyphs" n)
              (PutGlyph n copy (VRef cps)) conn s1 q Hq1)
    as (s' & -> & Hq' & _ & _ & _ & Hh' & _).
  cbn [fst snd]. split; [done|]. split; [done|]. split; [congruence|].
  split; [done|]. split; [done|]. split; [done|]. split.
  { cbn. by rewrite (lookup_app_l_Some _ _ _ _ Hcps). }
  intros l'. split.
  - cbn. rewrite list_lookup_insert_eq; [done|]. rewrite length_app. lia.
  - destruct copy as [|a]; [done|]. cbn.
    rewrite list_lookup_insert_ne; [done|].
    specialize (Hfresh a eq_refl). lia.
Qed.
End CommitGlyph.

(** The edit of glyph "A" of the demo at the commit of the glyph.  The
    cached glyph map, object 3, has the list object 1 for "A".  The pending
    write carries a copy of the glyph, object 4, and the list object 1
    itself: extending that list in place changes the code points that the
    write hands over. *)
Lemma putGlyph_code_points_shared_witness :
  let root := {| attrs := [];
                 glyphs := Some (DictSetDelTracker.init [("A", VRef 0)]);
                 _assignedAttributeNames := ∅ |} in
  let s0 : Demo.State := (_prepareRootObject Demo.editA
                            (Demo.session Demo.aFont false false)).2 in
  let s : Demo.State := (getData "glyphMap" (applyChangeM root Demo.editA s0).2).2 in
  let t := DictSetDelTracker.init [("A", VRef 0)] in
  let m := [("A", 1%nat); ("Aacute", 2%nat)] in
  let h' := heap s ++ [OGlyph (Demo.glyphOf ["acute"])] in
  let r := commitGlyph t (VRef 3) (Some Demo.alice) true "A" s in
  _dataScheduledForWriting s = Some []
  ∧ PyDict.get "A" (DictSetDelTracker.data t) = Some (VRef 0)
  ∧ LRUCache.peek (KStr "glyphMap") (localData s) = VRef 3
  ∧ heap s !! 3%nat = Some (OGlyphMap m)
  ∧ PyDict.get "A" m = Some 1%nat
  ∧ heap s !! 1%nat = Some (OList [65%Z])
  ∧ deepcopyVal (VRef 0) (heap s) = Some (VRef 4, h')
  ∧ r.1 = inr tt
  ∧ _dataScheduledForWriting r.2
    = Some [(KTuple "glyphs" "A",
             (PutGlyph "A" (VRef 4) (VRef 1), Some Demo.alice))]
  ∧ resolveGlyph (VRef 4) h' = inr (Some (Demo.glyphOf ["acute"]))
  ∧ resolveList (VRef 1) h' = inr [65%Z]
  ∧ resolveList (VRef 1) (<[1%nat := OList [65%Z; 97%Z]]> h') = inr [65%Z; 97%Z]
  ∧ resolveGlyph (VRef 4) (<[1%nat := OList [65%Z; 97%Z]]> h')
    = inr (Some (Demo.glyphOf ["acute"])).
Proof.
  intros root s0 s t m h' r.
  assert (_dataScheduledForWriting s = Some []) as Hq by reflexivity.
  assert (PyDict.get "A" (DictSetDelTracker.data t) = Some (VRef 0)) as Hv
    by reflexivity.
  assert (heap s !! 3%nat = Some (OGlyphMap m)) as Hgm
    by (vm_compute; reflexivity).
  assert (PyDict.get "A" m = Some 1%nat) as Hn by reflexivity.
  assert (heap s !! 1%nat = Some (OList [65%Z])) as Hcps
    by (vm_compute; reflexivity).
  assert (deepcopyVal (VRef 0) (heap s) = Some (VRef 4, h')) as Hc
    by (vm_compute; reflexivity).
  split; [exact Hq|]. split; [exact Hv|]. split; [vm_compute; reflexivity|].
  split; [exact Hgm|]. split; [exact Hn|]. split; [exact Hcps|].
  split; [exact Hc|].
  assert (isWritableFontBackend (B:=Demo.font) = true) as Hw by reflexivity.
  destruct (putGlyph_code_points_shared t 3%nat m (Some Demo.alice) "A"
              (VRef 0) (VRef 4) 1%nat [65%Z] h' [] s Hw Hq Hv Hgm Hn
              Hcps Hc)
    as (H1 & H2 & _ & H4 & _ & _ & H7 & H8).
  split; [exact H1|]. split; [exact H2|].
  split; [etrans; [exact H4|]; vm_compute; reflexivity|].
  split; [exact H7|].
  destruct (H8 [65%Z; 97%Z]) as [H9 H10].
  split; [exact H9|].
  etrans; [exact H10|]. etrans; [exact H4|]. vm_compute. reflexivity.
Defined.

Section Copies.
Context {Change B : Type} `{!ChangeAlgebra Change, !Backend B}.
Local Abbreviation State := (FontHandler Change B).

(** X24.  The commit step [_updateLocalData], with writes
    enabled or not, started in a state where the copied values of the
    pending writes share no object with the cache nor with the root
    object of the edit, ends in such a state, whether it returns or
    raises.  So the copied value of every pending write (the glyph of
    [putGlyph], the value of a root key) reads the same after any number
    of later changes in place of objects that the cache or the root
    object refer to.  The copy that [deepcopy] returns reads as the value
    it was taken from. *)
Theorem enqueued_copy_unchanged (R : list addr) (root : Font)
    (rootKeys : list string) (sourceConnection : option Connection)
    (writeToBackEnd : bool) (s : State) :
  sepRoot R root s →
  let s' := (_updateLocalData rootKeys root sourceConnection writeToBackEnd s).2 in
  sepRoot R root s'
  ∧ (∀ k f c changes,
       (k, (f, c)) ∈ default [] (_dataScheduledForWriting s') →
       (∀ m, m ∈ changes → m.1 ∈ cacheReach s' ∨ m.1 ∈ R) →
       resolved (mutate changes (heap s')) (copiedValue f)
       = resolved (heap s') (copiedValue f))
  ∧ (∀ v (s0 s1 : State) v',
       deepcopy v s0 = (inr v', s1) →
       resolved (heap s1) v' = resolved (heap s1) v).
Proof.
  intros HJ s'.
  assert (sepRoot R root s') as HJ'.
  { pose proof (hoare_updateLocalData R root rootKeys sourceConnection
                  writeToBackEnd s HJ) as H.
    fold s' in H. by destruct (_updateLocalData _ _ _ _ s).1. }
  split; [exact HJ'|]. split.
  - intros k f c changes Hin Hch. apply resolved_mutate.
    intros m Hm Hreach. destruct HJ' as [(_ & _ & Hp) _].
    destruct (Hp m.1) as (_ & Hnc & HnR).
    { unfold payloadReach. apply list_elem_of_bind. by exists (k, (f, c)). }
    by destruct (Hch m Hm).
  - intros v s0 s1 v'. unfold deepcopy.
    destruct (deepcopyVal v (heap s0)) as [[v1 h1]|] eqn:Hc; [|done].
    intros [= <- <-]. by apply deepcopyVal_same in Hc.
Qed.
End Copies.

(** The edit of glyph "A" of the demo, prepared and applied: the root
    object holds the cached glyph, no write is pending.  After the commit
    step the copy of the glyph is pending; it reads the same after the
    cached glyph is changed in place. *)
Lemma enqueued_copy_unchanged_witness :
  let root := {| attrs := [];
                 glyphs := Some (DictSetDelTracker.init [("A", VRef 0)]);
                 _assignedAttributeNames := ∅ |} in
  let s0 : Demo.State := (_prepareRootObject Demo.editA
                            (Demo.session Demo.aFont false false)).2 in
  let s : Demo.State := (applyChangeM root Demo.editA s0).2 in
  let s' := (_updateLocalData ["glyphs"] root (Some Demo.alice) true s).2 in
  let f := PutGlyph "A" (VRef 4) (VRef 1) in
  sepRoot [0%nat] root s
  ∧ _dataScheduledForWriting s'
    = Some [(KTuple "glyphs" "A", (f, Some Demo.alice))]
  ∧ LRUCache.peek (KTuple "glyphs" "A") (localData s') = VRef 0
  ∧ resolved (mutate [(0%nat, OGlyph (Demo.glyphOf ["A"]))] (heap s'))
      (copiedValue f)
    = resolved (heap s') (copiedValue f).
Proof.
  intros root s0 s s' f.
  assert (cacheReach s = [0%nat]) as Hc by (vm_compute; reflexivity).
  assert (payloadReach s = []) as Hp by (vm_compute; reflexivity).
  assert (length (heap s) = 1%nat) as Hl by (vm_compute; reflexivity).
  assert (sepRoot [0%nat] root s) as HJ.
  { split; [split; [|split]|].
    - rewrite Hc, Hl. intros a Ha. apply list_elem_of_singleton in Ha. lia.
    - rewrite Hl. intros a Ha. apply list_elem_of_singleton in Ha. lia.
    - rewrite Hp. intros a Ha. by apply elem_of_nil in Ha.
    - intros v a Hv Ha.
      replace (rootValues root) with [VRef 0] in Hv by (vm_compute; reflexivity).
      apply list_elem_of_singleton in Hv as ->.
      replace (reach (heap s) (VRef 0)) with [0%nat] in Ha
        by (vm_compute; reflexivity).
      exact Ha. }
  assert (_dataScheduledForWriting s'
          = Some [(KTuple "glyphs" "A", (f, Some Demo.alice))]) as Hq
    by (vm_compute; reflexivity).
  split; [exact HJ|]. split; [exact Hq|]. split; [vm_compute; reflexivity|].
  pose proof (enqueued_copy_unchanged [0%nat] root ["glyphs"]
                (Some Demo.alice) true s HJ) as (_ & H & _).
  apply (H (KTuple "glyphs" "A") f (Some Demo.alice)).
  - fold s'. rewrite Hq. cbn [default from_option id]. left.
  - intros m Hm. apply list_elem_of_singleton in Hm as ->. right. left.
Defined.

(** The same from end to end: after [editFinal] of an edit of glyph "A"
    the code points of the pending [putGlyph] are the list of the cached
    glyph map, and a later edit that extends the list in place changes
    what the pending write hands to the backend. *)
Lemma enqueued_code_points_shared :
  let s1 : Demo.State :=
    (editFinal Demo.editA false Demo.alice
       (Demo.session Demo.aFont false false)).2 in
  let s2 : Demo.State :=
    (editFinal (Demo.AppendCodePoint "A" 97) false Demo.alice s1).2 in
  let f := PutGlyph "A" (VRef 4) (VRef 1) in
  _dataScheduledForWriting s1
  = Some [(KTuple "glyphs" "A", (f, Some Demo.alice))]
  ∧ head (default [] (_dataScheduledForWriting s2))
    = Some (KTuple "glyphs" "A", (f, Some Demo.alice))
  ∧ resolveList (codePointsOf f) (heap s1) = inr [65%Z]
  ∧ resolveList (codePointsOf f) (heap s2) = inr [65%Z; 97%Z]
  ∧ PyDict.get "A" (Demo.fGlyphMap (backend (callWriteFunc f s1).2))
    = Some [65%Z]
  ∧ PyDict.get "A" (Demo.fGlyphMap (backend (callWriteFunc f s2).2))
    = Some [65%Z; 97%Z].
Proof. vm_compute. by repeat split. Qed.

(** * Further properties of the handler *)

(** ** The tracker of the glyph set *)

Section Tracker.
Import DictSetDelTracker.

Lemma mem_keys (k : string) (d : PyDict.t string pyval) :
  PyDict.mem k d = true ↔ k ∈ PyDict.keys d.
Proof.
  unfold PyDict.mem. rewrite bool_decide_eq_true.
  destruct (PyDict.get k d) as [v|] eqn:Hget.
  - split; [intros _|by eauto].
    destruct (decide (k ∈ PyDict.keys d)) as [|Hn]; [done|].
    apply get_None_keys in Hn. congruence.
  - split; [by intros [? ?]|]. intros Hin.
    apply get_None_keys in Hget. done.
Qed.

Lemma elem_of_keys_set (k k' : string) (v : pyval) (d : PyDict.t string pyval) :
  k' ∈ PyDict.keys (PyDict.set k v d) ↔ k' = k ∨ k' ∈ PyDict.keys d.
Proof.
  induction d as [|[k0 v0] d IH]; cbn.
  - rewrite list_elem_of_singleton. set_solver.
  - case_decide; subst; cbn; rewrite ?elem_of_cons, ?IH; naive_solver.
Qed.

Lemma tracked_applyOp d op t :
  tracked d t →
  tracked d (match applyOp op t with inr t' => t' | inl _ => t end).
Proof.
  intros (Hkeys & Hnew & Hdel). unfold tracked.
  destruct op as [key value|key]; cbn [applyOp].
  - unfold setitem.
    destruct (PyDict.mem key (data t)) eqn:Hmem; cbn [negb data newKeys deletedKeys].
    + apply mem_keys in Hmem.
      split; [|split]; [|done|].
      * intros k. rewrite elem_of_keys_set, <- Hkeys. naive_solver.
      * intros k Hk. rewrite elem_of_keys_set. intros [->|Hin]; by eapply Hdel.
    + assert (key ∉ PyDict.keys (data t)) as Hkey.
      { intros Hin%mem_keys. congruence. }
      split; [|split].
      * intros k. rewrite elem_of_keys_set, Hkeys. set_solver.
      * intros k [Hk| ->%elem_of_singleton]%elem_of_union; [by apply Hnew|].
        intros Hin. apply Hkey, Hkeys. by left.
      * intros k [Hk Hne]%elem_of_difference. rewrite elem_of_keys_set.
        intros [->|Hin]; [set_solver|by eapply Hdel].
  - unfold delitem. destruct (PyDict.mem key (data t)) eqn:Hmem; [done|].
    assert (key ∉ PyDict.keys (data t)) as Hkey.
    { intros Hin%mem_keys. congruence. }
    cbn [data newKeys deletedKeys]. split; [|split].
    + intros k. rewrite Hkeys. split; [|set_solver].
      intros [Hk|Hk]; [by left|]. right. apply elem_of_difference.
      split; [done|]. intros ->%elem_of_singleton. apply Hkey, Hkeys. by right.
    + intros k [Hk _]%elem_of_difference. by apply Hnew.
    + intros k [Hk| ->%elem_of_singleton]%elem_of_union; [by apply Hdel|done].
Qed.

(** X1.  Through any operations on a [DictSetDelTracker], starting from the
    dict it wraps: the keys of the dict are those it had at the start and
    the recorded new keys; a key it had at the start is never recorded as
    new; a recorded deleted key is not in the dict.  [del] of a key that
    is in the dict raises [RecursionError] and changes nothing, so no key
    ever leaves the dict and no key it had at the start is ever recorded
    as deleted. *)
Theorem tracker_invariant (d : PyDict.t string pyval) (ops : list trackerOp) :
  let t := applyOps ops (init d) in
  (∀ k, k ∈ PyDict.keys (data t) ↔ k ∈ PyDict.keys d ∨ k ∈ newKeys t)
  ∧ (∀ k, k ∈ newKeys t → k ∉ PyDict.keys d)
  ∧ (∀ k, k ∈ deletedKeys t →
          (k ∉ PyDict.keys (data t)) ∧ (k ∉ PyDict.keys d))
  ∧ (∀ k, k ∈ PyDict.keys (data t) → delitem k t = inl RecursionError).
Proof.
  intros t.
  assert (tracked d t) as (Hkeys & Hnew & Hdel).
  { subst t. unfold applyOps.
    assert (tracked d (init d)) as H0.
    { unfold tracked. cbn. split; [|split]; set_solver. }
    revert H0. generalize (init d). induction ops as [|op ops IH]; [done|].
    intros t0 H0. cbn [foldl]. apply IH. by apply tracked_applyOp. }
  split; [done|]. split; [done|]. split.
  - intros k Hk. split; [by apply Hdel|].
    intros Hin. apply (Hdel k Hk), Hkeys. by left.
  - intros k Hk%mem_keys. unfold delitem. by rewrite Hk.
Qed.
End Tracker.

(** ** Connections *)

Section Connections.
Context {Change B : Type} `{!ChangeAlgebra Change, !Backend B}.
Local Abbreviation State := (FontHandler Change B).

(** X2.  [useConnection] adds the connection on entry and removes it on
    exit.  After the exit the connection is not connected, whether it was
    before the entry or not, and the other connections are as before; a
    second exit raises [KeyError]. *)
Theorem useConnection_exit (c : Connection) (s : State) :
  ∃ s',
    removeConnection c (addConnection c s) = (inr tt, s')
    ∧ (c ∉ connections s')
    ∧ (∀ c', c' ≠ c → c' ∈ connections s' ↔ c' ∈ connections s)
    ∧ (c ∉ connections s → connections s' = connections s)
    ∧ removeConnection c s' = (inl (KeyError (clientUUID c)), s').
Proof.
  assert (∀ l : list Connection,
            c ∉ List.filter (λ c', bool_decide (c' ≠ c)) l) as Hnot.
  { intros l Hin. apply list_elem_of_In, List.filter_In in Hin as [_ Hc].
    by apply bool_decide_eq_true in Hc. }
  assert (∀ (l : list Connection) c', c' ≠ c →
            c' ∈ List.filter (λ c', bool_decide (c' ≠ c)) l ↔ c' ∈ l) as Hother.
  { intros l c' Hne. rewrite !list_elem_of_In, List.filter_In.
    rewrite bool_decide_eq_true. naive_solver. }
  assert (∀ l : list Connection,
            c ∉ l → List.filter (λ c', bool_decide (c' ≠ c)) l = l) as Hsame.
  { induction l as [|x l IH]; [done|]. intros Hx. cbn.
    rewrite bool_decide_true by (intros ->; apply Hx; left).
    f_equal. apply IH. intros ?. apply Hx. by right. }
  unfold removeConnection, addConnection, bind, gets, modify, raise.
  destruct (decide (c ∈ connections s)) as [Hin|Hin].
  - rewrite decide_True by done. eexists. split; [done|]. cbn.
    split; [apply Hnot|]. split; [apply Hother|]. split; [done|].
    by rewrite decide_False by apply Hnot.
  - cbn [connections set_connections].
    rewrite decide_True by (apply elem_of_app; right; left).
    eexists. split; [done|]. cbn.
    split; [apply Hnot|]. split; [|split].
    + intros c' Hne. rewrite Hother by done. rewrite elem_of_app.
      rewrite list_elem_of_singleton. naive_solver.
    + intros _. rewrite List.filter_app, Hsame by done. cbn.
      rewrite bool_decide_false by (by intros ?). by rewrite app_nil_r.
    + by rewrite decide_False by apply Hnot.
Qed.
End Connections.

(** ** Cached reads *)

Section CachedReads.
Context {Change B : Type} `{!ChangeAlgebra Change, !Backend B}.
Local Abbreviation State := (FontHandler Change B).

Lemma getData_unknown (key : string) (s : State) :
  key ∉ dataKeys →
  LRUCache.peek (KStr key) (localData s) = VNone →
  getData key s
  = (inl (KeyError key),
     set_localData (LRUCache.get (KStr key) (localData s)).2 s).
Proof.
  intros Hkey Hpeek.
  unfold getData, bind, cacheGet. unfold LRUCache.peek in Hpeek.
  destruct (LRUCache.get (KStr key) (localData s)) as [v c]. cbn in Hpeek.
  subst v. cbn [snd]. unfold _getData, dataKeys in *.
  rewrite !decide_False; [done|..]; intros ->; apply Hkey; set_solver.
Qed.

(** X3.  [getData] of a key other than ["axes"], ["glyphMap"],
    ["customData"] and ["unitsPerEm"], when the cache holds nothing for
    it, raises [KeyError(key)]: the backend is not called, nothing is
    cached, and every key reads from the cache as before. *)
Theorem getData_unknown_key (key : string) (s : State) :
  key ∉ dataKeys →
  LRUCache.peek (KStr key) (localData s) = VNone →
  getData key s
  = (inl (KeyError key),
     set_localData (LRUCache.get (KStr key) (localData s)).2 s)
  ∧ ∀ k, LRUCache.peek k (LRUCache.get (KStr key) (localData s)).2
         = LRUCache.peek k (localData s).
Proof.
  intros Hkey Hpeek. split; [by apply getData_unknown|].
  intros k. apply peek_get.
Qed.

(** X4.  What [getData] returns is cached: the next [getData] of the key
    returns the same object, without a call of the backend and with no
    change but the recency of the cache entry. *)
Theorem getData_cached (key : string) (s s1 : State) (v : pyval) :
  (0 < LRUCache.maxSize (localData s))%nat →
  getData key s = (inr v, s1) →
  v ≠ VNone
  ∧ getData key s1
    = (inr v, set_localData (LRUCache.get (KStr key) (localData s1)).2 s1).
Proof.
  intros Hsize. unfold getData at 1. unfold bind, cacheGet.
  destruct (LRUCache.get (KStr key) (localData s)) as [v0 c0] eqn:Hget.
  assert (LRUCache.maxSize c0 = LRUCache.maxSize (localData s)) as Hc0.
  { pose proof (maxSize_get (KStr key) (localData s)) as H0.
    by rewrite Hget in H0. }
  assert (∀ c, PyDict.get (KStr key) (LRUCache.entries c) = Some v →
               v ≠ VNone →
               getData key (set_localData c s1)
               = (inr v, set_localData
                           (LRUCache.get (KStr key) c).2 (set_localData c s1)))
    as Hnext.
  { intros c Hc Hv. unfold getData, bind, cacheGet, LRUCache.get.
    cbn [localData set_localData]. rewrite Hc. by destruct v. }
  destruct v0 as [|a].
  - destruct (_getData key (set_localData c0 s)) as [[e|data] s0] eqn:Hraw;
      [done|].
    apply getData_raw_frame in Hraw as [[a ->] Hframe].
    unfold cacheSet, modify, ret. intros [= <- <-]. split; [done|].
    rewrite <- (set_localData_same
                  (set_localData (LRUCache.setitem (KStr key) (VRef a)
                                    (localData s0)) s0)) at 1.
    apply Hnext; [|done]. cbn [localData set_localData].
    apply get_setitem. rewrite Hframe. cbn. lia.
  - unfold ret. intros [= <- <-]. split; [done|].
    rewrite <- (set_localData_same (set_localData c0 s)) at 1.
    apply Hnext; [|done]. cbn [localData set_localData].
    unfold LRUCache.get in Hget.
    destruct (PyDict.get (KStr key) (LRUCache.entries (localData s)))
      as [v'|] eqn:Hv'; simplify_eq.
    apply get_touch.
Qed.
End CachedReads.

(** The font has no data under ["kerning"]. *)
Lemma getData_unknown_key_witness :
  let s : Demo.State := Demo.session Demo.aFont false false in
  ("kerning" ∉ dataKeys)
  ∧ LRUCache.peek (KStr "kerning") (localData s) = VNone
  ∧ getData "kerning" s = (inl (KeyError "kerning"), s).
Proof.
  intros s.
  assert ("kerning" ∉ dataKeys) as Hkey
    by (apply (bool_decide_unpack _); vm_compute; exact I).
  assert (LRUCache.peek (KStr "kerning") (localData s) = VNone) as Hpeek
    by reflexivity.
  split; [exact Hkey|]. split; [exact Hpeek|].
  pose proof (getData_unknown_key "kerning" s Hkey Hpeek) as [H _].
  rewrite H. reflexivity.
Defined.

(** The units per em of the demo font, read twice. *)
Lemma getData_cached_witness :
  let s : Demo.State := Demo.session Demo.aFont false false in
  let s1 := (getData "unitsPerEm" s).2 in
  (0 < LRUCache.maxSize (localData s))%nat
  ∧ getData "unitsPerEm" s = (inr (VRef 0), s1)
  ∧ effects s1 = [BackendCalled (CallGetData "unitsPerEm")]
  ∧ (getData "unitsPerEm" s1).1 = inr (VRef 0)
  ∧ effects (getData "unitsPerEm" s1).2 = effects s1.
Proof.
  intros s s1.
  assert (0 < LRUCache.maxSize (localData s))%nat as Hsize by (vm_compute; lia).
  assert (getData "unitsPerEm" s = (inr (VRef 0), s1)) as Hget
    by (vm_compute; reflexivity).
  split; [exact Hsize|]. split; [exact Hget|]. split; [reflexivity|].
  pose proof (getData_cached "unitsPerEm" s s1 (VRef 0) Hsize Hget) as [_ H].
  rewrite H. split; reflexivity.
Defined.

(** ** Glyphs that the backend has *)

Section PresentGlyph.
Context {Change B : Type} `{!ChangeAlgebra Change, !Backend B}.
Local Abbreviation State := (FontHandler Change B).

Lemma updateGlyphDependencies_frame glyphName glyph (s : State) :
  let s' := updateGlyphDependencies glyphName glyph s in
  heap s' = heap s ∧ effects s' = effects s ∧ localData s' = localData s.
Proof. unfold updateGlyphDependencies. by repeat case_decide. Qed.

(** X5.  [getGlyph] of a name that the cache holds no glyph for and that
    the backend has a glyph for: the backend is called once, the glyph
    becomes a new object, its components are recorded (the glyph is a
    user of exactly its components, and the two indices stay symmetric),
    and the next [getGlyph] of the name returns the same object without a
    call of the backend. *)
Theorem getGlyph_loads (glyphName : string) (glyph : VariableGlyph) (b' : B)
    (s : State) :
  LRUCache.peek (KTuple "glyphs" glyphName) (localData s) = VNone →
  be_getGlyph glyphName (backend s) = (inr (Some glyph), b') →
  (0 < LRUCache.maxSize (localData s))%nat →
  depsConsistent s →
  ∃ s1,
    getGlyph glyphName s = (inr (VRef (length (heap s))), s1)
    ∧ heap s1 = heap s ++ [OGlyph glyph]
    ∧ effects s1 = effects s ++ [BackendCalled (CallGetGlyph glyphName)]
    ∧ depsConsistent s1
    ∧ (∀ c, glyphName ∈ setAt (glyphUsedBy s1) c ↔ c ∈ componentSet glyph)
    ∧ getGlyph glyphName s1
      = (inr (VRef (length (heap s))),
         set_localData
           (LRUCache.get (KTuple "glyphs" glyphName) (localData s1)).2 s1).
Proof.
  intros Hpeek Hbackend Hsize Hdeps.
  unfold getGlyph at 1. unfold bind, cacheGet, _getGlyph, _getGlyphFromBackend,
    bind, callBackend.
  unfold LRUCache.peek in Hpeek.
  destruct (LRUCache.get (KTuple "glyphs" glyphName) (localData s))
    as [v c0] eqn:Hget.
  cbn in Hpeek. subst v. cbn [backend set_effects set_localData].
  rewrite Hbackend. cbn -[updateGlyphDependencies LRUCache.setitem].
  set (s0 := set_heap _ _).
  assert (depsConsistent s0) as Hdeps0 by exact Hdeps.
  pose proof (updateGlyphDependencies_frame glyphName glyph s0)
    as (Hheap & Heffects & Hcache).
  eexists. split; [reflexivity|].
  cbn [heap effects localData set_localData glyphUsedBy glyphMadeOf].
  split; [by rewrite Hheap|]. split; [by rewrite Heffects|].
  split; [|split].
  - intros g c. unfold depsConsistent in Hdeps0. cbn [glyphUsedBy glyphMadeOf set_localData].
    rewrite glyphUsedBy_update, glyphMadeOf_update.
    specialize (Hdeps0 g c). case_decide; naive_solver.
  - intros c. rewrite glyphUsedBy_update. specialize (Hdeps0 glyphName c).
    naive_solver.
  - unfold getGlyph, bind, cacheGet, LRUCache.get.
    cbn [localData set_localData].
    rewrite get_setitem; [done|].
    pose proof (maxSize_get (KTuple "glyphs" glyphName) (localData s)) as Hm.
    rewrite Hget in Hm. rewrite Hcache. cbn in Hm |- *. lia.
Qed.
End PresentGlyph.

(** Glyph "Aacute" of the demo font, made of "A" and "acute". *)
Lemma getGlyph_loads_witness :
  let s : Demo.State := __post_init__ Demo.aFont false false 128 in
  let s1 := (getGlyph "Aacute" s).2 in
  LRUCache.peek (KTuple "glyphs" "Aacute") (localData s) = VNone
  ∧ be_getGlyph "Aacute" (backend s)
    = (inr (Some (Demo.glyphOf ["A"; "acute"])), backend s)
  ∧ (0 < LRUCache.maxSize (localData s))%nat
  ∧ depsConsistent s
  ∧ (getGlyph "Aacute" s).1 = inr (VRef 0)
  ∧ (∀ c, "Aacute" ∈ setAt (glyphUsedBy s1) c
          ↔ c ∈ componentSet (Demo.glyphOf ["A"; "acute"]))
  ∧ (getGlyph "Aacute" s1).1 = inr (VRef 0).
Proof.
  intros s s1.
  assert (LRUCache.peek (KTuple "glyphs" "Aacute") (localData s) = VNone)
    as Hpeek by reflexivity.
  assert (be_getGlyph "Aacute" (backend s)
          = (inr (Some (Demo.glyphOf ["A"; "acute"])), backend s)) as Hb
    by reflexivity.
  assert (0 < LRUCache.maxSize (localData s))%nat as Hsize by (vm_compute; lia).
  assert (depsConsistent s) as Hdeps.
  { intros g c. unfold setAt. cbn. by rewrite !lookup_empty. }
  split; [exact Hpeek|]. split; [exact Hb|]. split; [exact Hsize|].
  split; [exact Hdeps|].
  destruct (getGlyph_loads "Aacute" _ _ s Hpeek Hb Hsize Hdeps)
    as (s1' & H1 & _ & _ & _ & Hused & H2).
  assert (s1 = s1') as <- by (subst s1; by rewrite H1).
  split; [by rewrite H1|]. split; [exact Hused|]. by rewrite H2.
Defined.

(** ** The commit step and the cache *)

Section CommitCache.
Context {Change B : Type} `{!ChangeAlgebra Change, !Backend B}.
Local Abbreviation State := (FontHandler Change B).

(** X6.  The commit of a glyph of the glyph set writes the cache entry
    only when the glyph set has recorded the name as new.  With writes
    off nothing else happens.  With writes on and the write task alive,
    the write that goes into the queue is [putGlyph] of the name, of the
    copy that [deepcopy] makes of the value, which reads as the value,
    and of what [glyphMap.get(glyphName, [])] gives. *)
Theorem commitGlyph_cache (glyphSet : DictSetDelTracker.t) (glyphMap : pyval)
    (sourceConnection : option Connection) (writeToBackEnd : bool)
    (glyphName : string) (value : pyval) (s : State) :
  PyDict.get glyphName (DictSetDelTracker.data glyphSet) = Some value →
  let r := commitGlyph glyphSet glyphMap sourceConnection writeToBackEnd
             glyphName s in
  let s1 := if decide (glyphName ∈ DictSetDelTracker.newKeys glyphSet)
            then (cacheSet (KTuple "glyphs" glyphName) value s).2 else s in
  (writeToBackEnd = false → r = (inr tt, s1))
  ∧ ∀ q copy h' codePoints s2,
      writeToBackEnd = true →
      isWritableFontBackend = true →
      _dataScheduledForWriting s = Some q →
      deepcopyVal value (heap s) = Some (copy, h') →
      glyphMapGet glyphMap glyphName (set_heap h' s1) = (inr codePoints, s2) →
      r.1 = inr tt
      ∧ _dataScheduledForWriting r.2
        = Some (PyDict.set (KTuple "glyphs" glyphName)
                  (PutGlyph glyphName copy codePoints, sourceConnection) q)
      ∧ localData r.2 = localData s1
      ∧ resolveGlyph copy (heap r.2) = resolveGlyph value (heap s).
Proof.
  intros Hvalue r s1. split.
  - intros ->. subst r s1. unfold commitGlyph. rewrite Hvalue.
    unfold bind at 1. cbn [ret negb]. unfold bind.
    by case_decide.
  - intros q copy h' codePoints s2 -> Hw Hq Hcopy Hget. subst r.
    rewrite (commitGlyph_on glyphSet glyphMap sourceConnection glyphName value
               copy h' s Hw Hvalue Hcopy).
    fold s1. unfold bind. rewrite Hget.
    assert (_dataScheduledForWriting s2 = Some q
            ∧ localData s2 = localData s1
            ∧ ∃ h2, heap s2 = h' ++ h2) as (Hq2 & Hld2 & h2 & Hh2).
    { unfold glyphMapGet in Hget. destruct glyphMap as [|a]; [done|].
      unfold bind, gets in Hget. cbn [heap set_heap] in Hget.
      assert (_dataScheduledForWriting (set_heap h' s1) = Some q) as Hq1
        by (subst s1; by case_decide).
      destruct (h' !! a) as [[g|m|l|d]|]; try done.
      destruct (PyDict.get glyphName m).
      - unfold ret in Hget. simplify_eq. split; [done|]. split; [done|].
        exists []. cbn. by rewrite app_nil_r.
      - cbn in Hget. unfold ret in Hget. simplify_eq. split; [done|].
        split; [done|]. by eexists. }
    destruct (scheduleDataWrite_alive (KTuple "glyphs" glyphName)
                (PutGlyph glyphName copy codePoints) sourceConnection s2 q Hq2)
      as (s' & -> & Hq' & Hld' & _ & _ & Hh' & _).
    cbn [fst snd]. split; [done|]. split; [done|]. split; [congruence|].
    destruct (deepcopyVal_glyph _ _ _ _ Hcopy) as (Hglyph & Hfresh & _).
    rewrite Hh', Hh2, <- Hglyph. apply resolveGlyph_app.
    intros a Ha. by apply Hfresh.
Qed.
End CommitCache.

(** The edit of glyph "A" of the demo at the commit of the glyph: the glyph
    set has the name from the start, so it is not new and the cache is
    left alone; the write that is scheduled carries the copy of the edited
    glyph. *)
Lemma commitGlyph_cache_witness :
  let root := {| attrs := [];
                 glyphs := Some (DictSetDelTracker.init [("A", VRef 0)]);
                 _assignedAttributeNames := ∅ |} in
  let s0 : Demo.State := (_prepareRootObject Demo.editA
                            (Demo.session Demo.aFont false false)).2 in
  let s : Demo.State := (getData "glyphMap" (applyChangeM root Demo.editA s0).2).2 in
  let glyphSet := DictSetDelTracker.init [("A", VRef 0)] in
  let h' := heap s ++ [OGlyph (Demo.glyphOf ["acute"])] in
  let r := commitGlyph glyphSet (VRef 3) (Some Demo.alice) true "A" s in
  PyDict.get "A" (DictSetDelTracker.data glyphSet) = Some (VRef 0)
  ∧ _dataScheduledForWriting s = Some []
  ∧ deepcopyVal (VRef 0) (heap s) = Some (VRef 4, h')
  ∧ glyphMapGet (VRef 3) "A" (set_heap h' s) = (inr (VRef 1), set_heap h' s)
  ∧ r.1 = inr tt
  ∧ _dataScheduledForWriting r.2
    = Some [(KTuple "glyphs" "A",
             (PutGlyph "A" (VRef 4) (VRef 1), Some Demo.alice))]
  ∧ localData r.2 = localData s
  ∧ resolveGlyph (VRef 4) (heap r.2) = inr (Some (Demo.glyphOf ["acute"])).
Proof.
  intros root s0 s glyphSet h' r.
  assert (PyDict.get "A" (DictSetDelTracker.data glyphSet) = Some (VRef 0))
    as Hv by reflexivity.
  assert (_dataScheduledForWriting s = Some []) as Hq by reflexivity.
  assert (deepcopyVal (VRef 0) (heap s) = Some (VRef 4, h')) as Hc
    by (vm_compute; reflexivity).
  assert (glyphMapGet (VRef 3) "A" (set_heap h' s)
          = (inr (VRef 1), set_heap h' s)) as Hg by (vm_compute; reflexivity).
  split; [exact Hv|]. split; [exact Hq|]. split; [exact Hc|].
  split; [exact Hg|].
  pose proof (commitGlyph_cache glyphSet (VRef 3) (Some Demo.alice) true "A"
                (VRef 0) s Hv) as [_ H].
  cbv zeta in H.
  assert (DictSetDelTracker.newKeys glyphSet = ∅) as Hn by reflexivity.
  rewrite decide_False in H by (rewrite Hn; apply not_elem_of_empty).
  assert (isWritableFontBackend (B:=Demo.font) = true) as Hw by reflexivity.
  destruct (H [] (VRef 4) h' (VRef 1) (set_heap h' s) eq_refl Hw Hq Hc Hg)
    as (H1 & H2 & H3 & H4).
  split; [exact H1|]. split; [exact H2|]. split; [exact H3|].
  etrans; [exact H4|]. vm_compute. reflexivity.
Defined.

(** ** The write task *)

Section WriteTask.
Context {Change B : Type} `{!ChangeAlgebra Change, !Backend B}.
Local Abbreviation State := (FontHandler Change B).

(** X7.  One turn of the write task on a queue that is alive.  Whatever
    the writes do, the turn ends with the event of the task cleared and
    the event of [finishWriting] set.  When the turn returns, no write is
    pending and [finishWriting] returns at once, unless an error was
    stored before.  When the turn raises, the error is stored, the queue
    is gone and [finishWriting] raises the error. *)
Theorem processWrites_outcome (s : State) (q : WriteQueue) :
  _dataScheduledForWriting s = Some q →
  let r := processWrites s in
  _processWritesEvent r.2 = false
  ∧ _writingInProgressEvent r.2 = true
  ∧ match r.1 with
    | inr _ =>
        _dataScheduledForWriting r.2 = Some []
        ∧ _processWritesError r.2 = _processWritesError s
        ∧ (_processWritesError s = None → finishWriting r.2 = (inr true, r.2))
    | inl e =>
        _dataScheduledForWriting r.2 = None
        ∧ _processWritesError r.2 = Some e
        ∧ finishWriting r.2 = (inl e, r.2)
    end.
Proof.
  intros Hq r. subst r.
  unfold processWrites, try_finally, try_except, _processWritesOneCycle.
  rewrite Hq. cbn [default from_option id].
  destruct (processWritesLoop_drains (length q) s q Hq ltac:(lia))
    as (He & Hsome & Hempty).
  destruct (_processWritesLoop (length q) s) as [[e|[]] s1]; cbn in *.
  - split; [done|]. split; [done|]. split; [done|]. split; [done|].
    unfold finishWriting, bind, gets. done.
  - split; [done|]. split; [done|]. split; [by apply Hempty|].
    split; [done|]. intros Hnone. unfold finishWriting, bind, gets. cbn.
    by rewrite He, Hnone.
Qed.

(** X8.  Scheduling a write into an empty queue sets the event of the
    write task and clears the event of [finishWriting], which then
    waits; scheduling into a queue with pending writes changes neither
    event.  Nothing else changes but the queue. *)
Theorem scheduleDataWrite_signals (k : DataKey) (f : writeFunc)
    (c : option Connection) (s : State) (q : WriteQueue) :
  _dataScheduledForWriting s = Some q →
  let s' := (scheduleDataWrite k f c s).2 in
  (q = [] →
   _processWritesEvent s' = true
   ∧ _writingInProgressEvent s' = false
   ∧ (_processWritesError s = None → finishWriting s' = (inr false, s')))
  ∧ (q ≠ [] →
     _processWritesEvent s' = _processWritesEvent s
     ∧ _writingInProgressEvent s' = _writingInProgressEvent s)
  ∧ localData s' = localData s
  ∧ effects s' = effects s
  ∧ backend s' = backend s
  ∧ heap s' = heap s.
Proof.
  intros Hq s'. subst s'.
  destruct (scheduleDataWrite_alive k f c s q Hq)
    as (s' & -> & _ & Hc & Hfx & Hb & Hh & Herr & Hev & Hwr).
  cbn [snd]. split; [|split; [|done]].
  - intros ->. rewrite bool_decide_true in Hev, Hwr by done.
    split; [done|]. split; [done|]. intros Hnone.
    unfold finishWriting, bind, gets. by rewrite Herr, Hnone, Hwr.
  - intros Hne. by rewrite bool_decide_false in Hev, Hwr by done.
Qed.

(** ** The watcher of the backend *)

(** X9.  An item from the watcher of the backend never makes
    [processExternalChanges] raise, whatever the change, the pattern and
    the backend do, and it leaves the write scheduler alone: the queue,
    the stored error and the two events are as before, and so are the
    connections and their subscriptions. *)
Theorem processExternalChange_safe (change : option Change)
    (reloadPattern : option pattern) (s : State) :
  let r := processExternalChange change reloadPattern s in
  r.1 = inr tt
  ∧ _dataScheduledForWriting r.2 = _dataScheduledForWriting s
  ∧ _processWritesError r.2 = _processWritesError s
  ∧ _processWritesEvent r.2 = _processWritesEvent s
  ∧ _writingInProgressEvent r.2 = _writingInProgressEvent s
  ∧ connections r.2 = connections s
  ∧ clientData r.2 = clientData s.
Proof.
  intros r. subst r. split.
  - unfold processExternalChange, try_except.
    by destruct (bind _ _ s) as [[e|[]] s1].
  - set (I := λ s0 : State,
           _dataScheduledForWriting s0 = _dataScheduledForWriting s
           ∧ _processWritesError s0 = _processWritesError s
           ∧ _processWritesEvent s0 = _processWritesEvent s
           ∧ _writingInProgressEvent s0 = _writingInProgressEvent s
           ∧ connections s0 = connections s
           ∧ clientData s0 = clientData s).
    assert (IgnoresData I) as HI by by split.
    by apply (inv_processExternalChange I HI change reloadPattern s).
Qed.
End WriteTask.

(** Two writes are pending. *)
Lemma processWrites_outcome_witness :
  let s : Demo.State :=
    (editFinal (Demo.AppendCodePoint "A" 97) false Demo.alice
       (editFinal Demo.editA false Demo.alice
          (Demo.session Demo.aFont false false)).2).2 in
  let r := processWrites s in
  length (default [] (_dataScheduledForWriting s)) = 2%nat
  ∧ r.1 = inr tt
  ∧ _dataScheduledForWriting r.2 = Some []
  ∧ finishWriting s = (inr false, s)
  ∧ finishWriting r.2 = (inr true, r.2).
Proof.
  intros s r.
  destruct (_dataScheduledForWriting s) as [q|] eqn:Hq; [|by vm_compute in Hq].
  assert (length q = 2%nat) as Hlen by (vm_compute in Hq; by simplify_eq).
  assert (r.1 = inr tt) as Hr by (vm_compute; reflexivity).
  pose proof (processWrites_outcome s q Hq) as (_ & _ & H).
  fold r in H. rewrite Hr in H. destruct H as (Hempty & _ & Hfin).
  split; [exact Hlen|]. split; [exact Hr|]. split; [exact Hempty|].
  split; [vm_compute; reflexivity|]. by apply Hfin.
Defined.

(** The first write of a session. *)
Lemma scheduleDataWrite_signals_witness :
  let s : Demo.State := Demo.session Demo.aFont false false in
  let s' := (scheduleDataWrite (KTuple "glyphs" "A") (DeleteGlyph "A")
               (Some Demo.alice) s).2 in
  _dataScheduledForWriting s = Some []
  ∧ finishWriting s = (inr true, s)
  ∧ _processWritesEvent s' = true
  ∧ finishWriting s' = (inr false, s').
Proof.
  intros s s'.
  assert (_dataScheduledForWriting s = Some []) as Hq by reflexivity.
  split; [exact Hq|]. split; [reflexivity|].
  pose proof (scheduleDataWrite_signals (KTuple "glyphs" "A") (DeleteGlyph "A")
                (Some Demo.alice) s [] Hq) as [H _].
  destruct (H eq_refl) as (Hev & _ & Hfin).
  split; [exact Hev|]. by apply Hfin.
Defined.


(** ** The pattern of the local data *)

Section PyDictMore.
Context {K V : Type} `{EqDecision K}.
Implicit Types d : PyDict.t K V.

Lemma elem_of_set_NoDup k v d x :
  NoDup (PyDict.keys d) →
  x ∈ PyDict.set k v d ↔ x = (k, v) ∨ (x ∈ d ∧ x.1 ≠ k).
Proof.
  induction d as [|[k0 v0] d IH]; cbn.
  - intros _. rewrite list_elem_of_singleton. split; [auto|].
    intros [?|[?%elem_of_nil _]]; done.
  - intros [Hk0 Hd]%NoDup_cons. case_decide as Hk.
    + subst k0. rewrite !elem_of_cons. split.
      * intros [->|Hx]; [by left|]. right. split; [by right|].
        intros Hxk. apply Hk0. unfold PyDict.keys.
        apply list_elem_of_fmap. exists x. by rewrite Hxk.
      * intros [->|[[->|Hx] Hne]]; [by left|done|by right].
    + rewrite !elem_of_cons, IH by done. split.
      * intros [->|[->|[Hx Hne]]]; [|by left|].
        -- right. split; [by left|]. cbn. congruence.
        -- right. split; [by right|done].
      * intros [->|[[->|Hx] Hne]]; [right; by left|by left|].
        right. right. done.
Qed.

Lemma elem_of_keys_set_iff k k' v d :
  k' ∈ PyDict.keys (PyDict.set k v d) ↔ k' = k ∨ k' ∈ PyDict.keys d.
Proof.
  induction d as [|[k0 v0] d IH]; cbn.
  - rewrite list_elem_of_singleton. split; [auto|].
    intros [?|?%elem_of_nil]; done.
  - case_decide; subst; cbn; rewrite ?elem_of_cons, ?IH; naive_solver.
Qed.
End PyDictMore.

Lemma elem_of_droppedKeys k p :
  k ∈ droppedKeys p ↔ ∃ kv, kv ∈ items p ∧ k ∈ droppedBy kv.
Proof.
  unfold droppedKeys. rewrite list_elem_of_bind. unfold droppedBy.
  split; intros (kv & H1 & H2); exists kv; done.
Qed.

Lemma entries_popAll ks c kv :
  kv ∈ LRUCache.entries (popAll ks c) →
  kv ∈ LRUCache.entries c ∧ kv.1 ∉ ks.
Proof.
  revert c. induction ks as [|k ks IH]; intros c; cbn.
  - intros H. split; [done|]. by intros ?%elem_of_nil.
  - intros [Hin Hks]%IH. cbn in Hin. unfold LRUCache.without in Hin.
    apply list_elem_of_In, List.filter_In in Hin as [Hin Hne].
    apply bool_decide_eq_true in Hne. split; [by apply list_elem_of_In|].
    intros [?|?]%elem_of_cons; done.
Qed.

(** The loop of [_getLocalDataPattern] on keys of the two shapes: it
    returns, and the pattern makes [reloadData] pop the keys the pattern
    had before and the keys of the loop. *)
Lemma localPatternLoop_ok keys localPattern :
  Forall writeKeyShape keys →
  NoDup (PyDict.keys localPattern) →
  glyphsIsMapping (PDict localPattern) →
  ∃ p, localPatternLoop keys localPattern = inr p
       ∧ glyphsIsMapping p
       ∧ ∀ k, k ∈ droppedKeys p
              ↔ k ∈ droppedKeys (PDict localPattern) ∨ k ∈ keys.
Proof.
  intros Hkeys. revert localPattern.
  induction Hkeys as [|key keys Hkey _ IH]; intros acc Hnd Hmap.
  - exists (PDict acc). split; [done|]. split; [done|].
    intros k. rewrite elem_of_nil. naive_solver.
  - assert (∀ acc',
              NoDup (PyDict.keys acc') →
              glyphsIsMapping (PDict acc') →
              (∀ k, k ∈ droppedKeys (PDict acc')
                    ↔ k ∈ droppedKeys (PDict acc) ∨ k = key) →
              ∃ p, localPatternLoop keys acc' = inr p
                   ∧ glyphsIsMapping p
                   ∧ ∀ k, k ∈ droppedKeys p
                          ↔ k ∈ droppedKeys (PDict acc) ∨ k ∈ key :: keys)
      as Hnext.
    { intros acc' Hnd' Hmap' Hdrop.
      destruct (IH acc' Hnd' Hmap') as (p & Hp & Hpm & Hpk).
      exists p. split; [done|]. split; [done|].
      intros k. rewrite Hpk, Hdrop, elem_of_cons. naive_solver. }
    destruct key as [key|rootKey subKey]; cbn in Hkey.
    + (* a root key *)
      change (localPatternLoop (KStr key :: keys) acc)
        with (localPatternLoop keys (PyDict.set key None acc)).
      apply Hnext.
      * by apply NoDup_keys_set.
      * intros kv Hin Hg. cbn [items] in Hin.
        apply elem_of_set_NoDup in Hin as [->|[Hin _]]; [|by apply Hmap|done].
        done.
      * intros k. rewrite !elem_of_droppedKeys. cbn [items]. split.
        -- intros (kv & Hin & Hk).
           apply elem_of_set_NoDup in Hin as [->|[Hin Hne]]; [| |done].
           ++ right. unfold droppedBy in Hk. cbn in Hk.
              rewrite decide_False in Hk by done.
              by apply list_elem_of_singleton in Hk.
           ++ left. by exists kv.
        -- intros [(kv & Hin & Hk)| ->].
           ++ destruct (decide (kv.1 = key)) as [Heq|Hne].
              ** exists (key, None). split.
                 { apply elem_of_set_NoDup; [done|]. by left. }
                 unfold droppedBy in *. cbn. rewrite Heq in Hk.
                 by rewrite decide_False in Hk |- * by done.
              ** exists kv. split; [|done].
                 apply elem_of_set_NoDup; [done|]. by right.
           ++ exists (key, None). split.
              { apply elem_of_set_NoDup; [done|]. by left. }
              unfold droppedBy. cbn. rewrite decide_False by done.
              by apply list_elem_of_singleton.
    + (* a glyph key *)
      subst rootKey.
      destruct (PyDict.get "glyphs" acc) as [[subPattern|]|] eqn:Hget.
      * change (localPatternLoop (KTuple "glyphs" subKey :: keys) acc)
          with (match PyDict.get "glyphs" acc with
                | None =>
                    localPatternLoop keys
                      (PyDict.set "glyphs" (Some (PDict [(subKey, None)])) acc)
                | Some (Some subPattern) =>
                    localPatternLoop keys
                      (PyDict.set "glyphs"
                         (Some (PDict (PyDict.set subKey None (items subPattern))))
                         acc)
                | Some None => inl TypeError
                end).
        rewrite Hget. apply get_Some_elem in Hget. apply Hnext.
        -- by apply NoDup_keys_set.
        -- intros kv Hin Hg. cbn [items] in Hin.
           apply elem_of_set_NoDup in Hin as [->|[Hin _]]; [|by apply Hmap|done].
           by eexists.
        -- intros k. rewrite !elem_of_droppedKeys. cbn [items]. split.
           ++ intros (kv & Hin & Hk).
              apply elem_of_set_NoDup in Hin as [->|[Hin Hne]]; [| |done].
              ** unfold droppedBy in Hk. cbn in Hk.
                 apply list_elem_of_fmap in Hk as (n & -> & Hn).
                 apply elem_of_keys_set_iff in Hn as [->|Hn]; [by right|].
                 left. exists ("glyphs", Some subPattern). split; [done|].
                 unfold droppedBy. cbn. apply list_elem_of_fmap. by exists n.
              ** left. by exists kv.
           ++ intros [(kv & Hin & Hk)| ->].
              ** destruct (decide (kv.1 = "glyphs")) as [Heq|Hne].
                 { assert (kv = ("glyphs", Some subPattern)) as ->.
                   { destruct kv as [k0 v0]. cbn in Heq. subst k0.
                     f_equal.
                     pose proof (get_NoDup_elem _ _ _ Hnd Hin) as H1.
                     pose proof (get_NoDup_elem _ _ _ Hnd Hget) as H2.
                     congruence. }
                   eexists. split.
                   { apply elem_of_set_NoDup; [done|]. by left. }
                   unfold droppedBy in *. cbn in *.
                   apply list_elem_of_fmap in Hk as (n & -> & Hn).
                   apply list_elem_of_fmap. exists n. split; [done|].
                   apply elem_of_keys_set_iff. by right. }
                 exists kv. split; [|done].
                 apply elem_of_set_NoDup; [done|]. by right.
              ** eexists. split.
                 { apply elem_of_set_NoDup; [done|]. by left. }
                 unfold droppedBy. cbn. apply list_elem_of_fmap.
                 exists subKey. split; [done|].
                 apply elem_of_keys_set_iff. by left.
      * apply get_Some_elem in Hget. by destruct (Hmap _ Hget eq_refl).
      * change (localPatternLoop (KTuple "glyphs" subKey :: keys) acc)
          with (match PyDict.get "glyphs" acc with
                | None =>
                    localPatternLoop keys
                      (PyDict.set "glyphs" (Some (PDict [(subKey, None)])) acc)
                | Some (Some subPattern) =>
                    localPatternLoop keys
                      (PyDict.set "glyphs"
                         (Some (PDict (PyDict.set subKey None (items subPattern))))
                         acc)
                | Some None => inl TypeError
                end).
        rewrite Hget. apply Hnext.
        -- by apply NoDup_keys_set.
        -- intros kv Hin Hg. cbn [items] in Hin.
           apply elem_of_set_NoDup in Hin as [->|[Hin _]]; [|by apply Hmap|done].
           by eexists.
        -- intros k. rewrite !elem_of_droppedKeys. cbn [items]. split.
           ++ intros (kv & Hin & Hk).
              apply elem_of_set_NoDup in Hin as [->|[Hin Hne]]; [| |done].
              ** right. unfold droppedBy in Hk. cbn in Hk.
                 by apply list_elem_of_singleton in Hk.
              ** left. by exists kv.
           ++ intros [(kv & Hin & Hk)| ->].
              ** exists kv. split; [|done].
                 apply elem_of_set_NoDup; [done|]. right. split; [done|].
                 intros Heq. apply get_None_keys in Hget. apply Hget.
                 apply list_elem_of_fmap. exists kv. by rewrite Heq.
              ** eexists. split.
                 { apply elem_of_set_NoDup; [done|]. by left. }
                 unfold droppedBy. cbn. by apply list_elem_of_singleton.
Qed.

Section LocalPattern.
Context {Change B : Type} `{!ChangeAlgebra Change, !Backend B}.
Local Abbreviation State := (FontHandler Change B).

(** X10.  For a cache whose keys are root keys other than ["glyphs"] and
    pairs [("glyphs", glyphName)], [_getLocalDataPattern] returns a
    pattern that stands for the keys of the cache: [reloadData] on it
    pops exactly these keys, so it leaves the cache empty.  It returns
    when the calls on the clients return, and what it raises otherwise was
    raised by the call on a client. *)
Theorem getLocalDataPattern_covers (s : State) :
  cacheKeysOK s →
  ∃ p,
    _getLocalDataPattern s = inr p
    ∧ glyphsIsMapping p
    ∧ (∀ k, k ∈ droppedKeys p ↔ k ∈ LRUCache.keys (localData s))
    ∧ LRUCache.entries (localData (reloadData p s).2) = []
    ∧ ((∀ c, c ∈ connections s → returns c) → (reloadData p s).1 = inr tt)
    ∧ ∀ e, (reloadData p s).1 = inl e →
           ∃ c, c ∈ connections s ∧ Some e ∈ proxy c.
Proof.
  intros Hkeys.
  destruct (localPatternLoop_ok (LRUCache.keys (localData s)) [])
    as (p & Hp & Hmap & Hdrop).
  { by apply Forall_forall. }
  { constructor. }
  { by intros kv ?%elem_of_nil. }
  exists p. split; [exact Hp|]. split; [done|].
  assert (∀ k, k ∈ droppedKeys p ↔ k ∈ LRUCache.keys (localData s)) as Hdrop'.
  { intros k. rewrite Hdrop. cbn. rewrite elem_of_nil. naive_solver. }
  split; [done|]. split; [|split].
  - rewrite reloadData_effects by done.
    cbn [localData set_effects set_localData].
    destruct (LRUCache.entries (popAll (droppedKeys p) (localData s)))
      as [|kv l] eqn:Hentries; [done|].
    destruct (entries_popAll (droppedKeys p) (localData s) kv) as [Hin Hnot].
    { rewrite Hentries. left. }
    exfalso. apply Hnot, Hdrop'. unfold LRUCache.keys.
    apply list_elem_of_fmap. by exists kv.
  - intros Hret. by rewrite reloadData_ok.
  - intros e. by apply reloadData_raises.
Qed.
End LocalPattern.

(** The cache after glyph "A", the units per em and glyph "acute" have
    been read. *)
Lemma getLocalDataPattern_covers_witness :
  let s : Demo.State :=
    run [GetGlyph "A"; GetData "unitsPerEm"; GetGlyph "acute"]
      (Demo.session Demo.aFont false false) in
  cacheKeysOK s
  ∧ _getLocalDataPattern s
    = inr (PDict [("glyphs", Some (PDict [("A", None); ("acute", None)]));
                  ("unitsPerEm", None)])
  ∧ ∃ p, _getLocalDataPattern s = inr p
         ∧ (reloadData p s).1 = inr tt
         ∧ LRUCache.entries (localData (reloadData p s).2) = [].
Proof.
  intros s.
  assert (cacheKeysOK s) as Hkeys.
  { intros k Hk.
    replace (LRUCache.keys (localData s))
      with [KTuple "glyphs" "A"; KStr "unitsPerEm"; KTuple "glyphs" "acute"]
      in Hk by (vm_compute; reflexivity).
    repeat (apply elem_of_cons in Hk as [->|Hk]; [by cbn|]).
    by apply elem_of_nil in Hk. }
  split; [exact Hkeys|]. split; [vm_compute; reflexivity|].
  destruct (getLocalDataPattern_covers s Hkeys)
    as (p & Hp & _ & _ & Hempty & Hret & _).
  exists p. split; [exact Hp|]. split; [|exact Hempty].
  apply Hret. intros c Hc. vm_compute in Hc.
  apply list_elem_of_In in Hc. cbn in Hc.
  destruct Hc as [<-|[<-|[]]]; apply Forall_nil_2.
Defined.

(** ** The keys of the cache, in every run *)

Section CacheKeys.
Context {Change B : Type} `{!ChangeAlgebra Change, !Backend B}.
Local Abbreviation State := (FontHandler Change B).
Local Abbreviation K := (cacheKeysOK (Change:=Change) (B:=B)).

Lemma keys_frame (f : State → State) :
  (∀ s, localData (f s) = localData s) → inv K (modify f).
Proof.
  intros Hf. apply inv_modify. intros s Hs k. rewrite Hf. apply Hs.
Qed.

Lemma keys_sub (s : State) c :
  (∀ kv, kv ∈ LRUCache.entries c → kv ∈ LRUCache.entries (localData s)) →
  K s → K (set_localData c s).
Proof.
  intros Hsub Hs k Hk. apply Hs. unfold LRUCache.keys in *.
  apply list_elem_of_fmap in Hk as (kv & -> & Hkv).
  apply list_elem_of_fmap. exists kv. split; [done|]. by apply Hsub.
Qed.

Lemma keys_emit e : inv K (emit e).
Proof. by apply keys_frame. Qed.

Lemma keys_awaitProxy c call : inv K (awaitProxy c call).
Proof. intros s Hs. by rewrite awaitProxy_eq. Qed.

Lemma keys_gather calls : inv K (gather calls).
Proof. intros s Hs. by rewrite gather_effects. Qed.

Lemma keys_callBackend {A} c (f : B → (exn + A) * B) : inv K (callBackend c f).
Proof.
  intros s Hs. unfold callBackend. cbn. by destruct (f (backend s)) as [r b].
Qed.

Lemma keys_allocM o : inv K (allocM o).
Proof. by intros s Hs. Qed.

Lemma keys_deepcopy v : inv K (deepcopy v).
Proof.
  intros s Hs. unfold deepcopy.
  by destruct (deepcopyVal v (heap s)) as [[v' h]|].
Qed.

Lemma keys_cacheGet k : inv K (cacheGet k).
Proof.
  intros s Hs. unfold cacheGet, LRUCache.get.
  destruct (PyDict.get k (LRUCache.entries (localData s))) as [v|] eqn:Hget;
    cbn; [|done].
  apply keys_sub; [|done]. intros kv. by apply entries_touch.
Qed.

Lemma keys_cacheGetItem k : inv K (cacheGetItem k).
Proof.
  intros s Hs. unfold cacheGetItem, LRUCache.getitem.
  destruct (PyDict.get k (LRUCache.entries (localData s))) as [v|] eqn:Hget;
    cbn; [|done].
  apply keys_sub; [|done]. intros kv. by apply entries_touch.
Qed.

Lemma keys_cachePop k : inv K (cachePop k).
Proof.
  apply inv_modify. intros s Hs. apply keys_sub; [|done].
  intros kv. apply elem_of_without.
Qed.

Lemma keys_cacheSet k v : writeKeyShape k → inv K (cacheSet k v).
Proof.
  intros Hk. apply inv_modify. intros s Hs k' Hk'. unfold LRUCache.keys in Hk'.
  apply list_elem_of_fmap in Hk' as (kv & -> & Hkv). cbn in Hkv.
  apply elem_of_setitem in Hkv as [->|Hkv]; [done|].
  apply Hs. apply list_elem_of_fmap. by exists kv.
Qed.

Lemma keys_updateGlyphDependencies n g :
  inv K (modify (updateGlyphDependencies n g)).
Proof.
  apply keys_frame. intros s.
  by destruct (updateGlyphDependencies_frame n g s) as (_ & _ & ?).
Qed.

Create HintDb keys_db.

Hint Resolve keys_emit keys_awaitProxy keys_gather keys_callBackend keys_allocM keys_deepcopy
  keys_cacheGet keys_cacheGetItem keys_cachePop
  keys_updateGlyphDependencies : keys_db.

Ltac keys_auto :=
  repeat first [solve [auto with keys_db] | inv_rule | inv_split].

Lemma keys_getGlyph n : inv K (getGlyph n).
Proof.
  unfold getGlyph, _getGlyph, _getGlyphFromBackend.
  apply inv_bind; [keys_auto|]. intros [|a]; [|keys_auto].
  apply inv_bind; [keys_auto|]. intros glyph.
  apply inv_bind; [by apply keys_cacheSet|]. intros u. keys_auto.
Qed.

(** [getData] caches a key only after [_getData] has returned for it, and
    [_getData] raises for ["glyphs"]. *)
Lemma keys_getData key : inv K (getData key).
Proof.
  unfold getData. apply inv_bind; [keys_auto|]. intros [|a]; [|keys_auto].
  destruct (decide (key = "glyphs")) as [->|Hne].
  - intros s Hs. by cbn.
  - apply inv_bind; [unfold _getData, allocGlyphMap; keys_auto|]. intros data.
    apply inv_bind; [by apply keys_cacheSet|]. intros u. keys_auto.
Qed.

Lemma keys_reloadData p : inv K (reloadData p).
Proof. unfold reloadData, dropLocalData. keys_auto. Qed.

Lemma keys_broadcastChange c src live : inv K (broadcastChange c src live).
Proof. unfold broadcastChange. keys_auto. Qed.

Lemma keys_applyChangeM r c : inv K (applyChangeM r c).
Proof.
  intros s Hs. unfold applyChangeM.
  by destruct (applyChange r c (heap s)) as [[e|u] [r' h]].
Qed.

Hint Resolve keys_getGlyph keys_getData keys_reloadData keys_broadcastChange
  keys_applyChangeM : keys_db.

Lemma keys_prepareRootObject c : inv K (_prepareRootObject c).
Proof. unfold _prepareRootObject. keys_auto. Qed.

Lemma keys_glyphMapGet m n : inv K (glyphMapGet m n).
Proof. unfold glyphMapGet. keys_auto. Qed.

Lemma keys_scheduleDataWrite k f c : inv K (scheduleDataWrite k f c).
Proof.
  unfold scheduleDataWrite. apply inv_bind; [keys_auto|]. intros [q|].
  - apply inv_bind; [by apply keys_frame|]. intros u.
    destruct (bool_decide (q = [])); [by apply keys_frame|keys_auto].
  - keys_auto.
Qed.

Hint Resolve keys_prepareRootObject keys_glyphMapGet keys_scheduleDataWrite
  : keys_db.

Lemma keys_commitGlyph t glyphMap conn w n :
  inv K (commitGlyph t glyphMap conn w n).
Proof.
  unfold commitGlyph. apply inv_bind; [keys_auto|]. intros value.
  apply inv_bind; [case_decide; [by apply keys_cacheSet|keys_auto]|].
  intros u. keys_auto.
Qed.

Lemma keys_commitDeletedGlyph conn w n :
  inv K (commitDeletedGlyph conn w n).
Proof. unfold commitDeletedGlyph. keys_auto. Qed.

Lemma keys_commitRootKey root conn w rootKey :
  rootKey ≠ "glyphs" → inv K (commitRootKey root conn w rootKey).
Proof.
  intros Hne. unfold commitRootKey. apply inv_bind.
  - case_decide; [|keys_auto].
    destruct (PyDict.get rootKey (attrs root)); [by apply keys_cacheSet|keys_auto].
  - intros u. keys_auto.
Qed.

Lemma keys_updateLocalData rootKeys root conn w :
  inv K (_updateLocalData rootKeys root conn w).
Proof.
  unfold _updateLocalData. apply inv_for_. intros rootKey.
  case_decide; [|by apply keys_commitRootKey].
  apply inv_bind; [keys_auto|]. intros glyphMap.
  apply inv_bind; [keys_auto|]. intros glyphSet.
  apply inv_bind; [|intros u]; apply inv_for_; intros n;
    [apply keys_commitGlyph|apply keys_commitDeletedGlyph].
Qed.

Lemma keys_getLocalDataPattern : inv K getLocalDataPattern.
Proof.
  intros s Hs. unfold getLocalDataPattern. by destruct (_getLocalDataPattern s).
Qed.

Hint Resolve keys_updateLocalData keys_getLocalDataPattern : keys_db.

Lemma keys_update change conn ext :
  inv K (_updateLocalDataAndWriteToBackend change conn ext).
Proof. unfold _updateLocalDataAndWriteToBackend. keys_auto. Qed.

Lemma keys_callWriteFunc f : inv K (callWriteFunc f).
Proof. unfold callWriteFunc, _putData. keys_auto. Qed.

Lemma keys_processWritesOneItem : inv K _processWritesOneItem.
Proof.
  unfold _processWritesOneItem. apply inv_bind; [keys_auto|]. intros q.
  apply inv_bind; [keys_auto|]. intros [[k [f c]] q'].
  apply inv_bind; [by apply keys_frame|]. intros u.
  apply inv_try_except; [apply keys_callWriteFunc|].
  intros e. unfold handleWriteError. keys_auto.
Qed.

Lemma keys_processWritesLoop n : inv K (_processWritesLoop n).
Proof.
  induction n as [|n IH]; cbn; [apply inv_ret|].
  apply inv_bind; [apply inv_gets|]. intros [[|? ?]|]; try apply inv_ret.
  apply inv_bind; [apply keys_processWritesOneItem|by intros _].
Qed.

Lemma keys_writerTurn : inv K writerTurn.
Proof.
  intros s Hs. unfold writerTurn.
  destruct (_dataScheduledForWriting s) eqn:E; [|done].
  destruct (_processWritesEvent s); [|done].
  unfold processWrites.
  assert (inv K
    (try_finally
       (try_except _processWritesOneCycle
          (λ e, modify (set_processWritesError (Some e));; raise e))
       (λ s0, set_writingInProgressEvent true (set_processWritesEvent false s0))))
    as Hinv.
  { apply inv_try_finally; [|done]. apply inv_try_except.
    - intros s0 Hs0. apply keys_processWritesLoop, Hs0.
    - intros e. apply inv_bind; [by apply keys_frame|intros _; apply inv_raise]. }
  specialize (Hinv s Hs).
  by destruct (try_finally _ _ s) as [[e|r] s'].
Qed.

Lemma keys_handle r : inv K (handle r).
Proof.
  destruct r; cbn [handle].
  - apply keys_frame. intros s. unfold addConnection. by case_decide.
  - unfold removeConnection. apply inv_bind; [apply inv_gets|]. intros conns.
    case_decide; [by apply keys_frame|apply inv_raise].
  - keys_auto.
  - keys_auto.
  - by apply keys_frame.
  - by apply keys_frame.
  - unfold editIncremental. keys_auto.
  - unfold editFinal, updateLocalDataAndWriteToBackend.
    apply inv_bind; [apply keys_update|]. intros u. keys_auto.
  - apply keys_update.
  - unfold processExternalChange, updateLocalDataWithExternalChange.
    apply inv_try_except; [|intros e; apply inv_ret].
    apply inv_bind; [|intros u; destruct reloadPattern; keys_auto].
    destruct change; [|apply inv_ret].
    apply inv_bind; [apply keys_update|]. intros u. keys_auto.
  - apply keys_writerTurn.
  - unfold finishWriting. keys_auto.
Qed.

(** X11.  In every run of the handler, every key of the cache is a root key
    other than ["glyphs"] or a pair [("glyphs", glyphName)]; so
    [_getLocalDataPattern] returns a pattern at every point of every run:
    it never meets a root key that stands for a single entry and for a
    mapping at once. *)
Theorem cache_keys_invariant (b : B) (ro de : bool) (n : nat)
    (rs : list Request) :
  let s : State := run rs (__post_init__ b ro de n) in
  cacheKeysOK s
  ∧ ∃ p, _getLocalDataPattern s = inr p
         ∧ ∀ k, k ∈ droppedKeys p ↔ k ∈ LRUCache.keys (localData s).
Proof.
  intros s.
  assert (cacheKeysOK s) as Hs.
  { subst s. assert (K (__post_init__ b ro de n)) as H0.
    { by intros k ?%elem_of_nil. }
    revert H0. generalize (__post_init__ (Change:=Change) b ro de n).
    induction rs as [|r rs IH]; intros s0 H0; [done|].
    cbn. apply IH. by apply keys_handle. }
  split; [exact Hs|].
  destruct (localPatternLoop_ok (LRUCache.keys (localData s)) [])
    as (p & Hp & _ & Hdrop).
  { by apply Forall_forall. }
  { constructor. }
  { by intros kv ?%elem_of_nil. }
  exists p. split; [exact Hp|].
  intros k. rewrite Hdrop. cbn. rewrite elem_of_nil. naive_solver.
Qed.
End CacheKeys.

(** ** Glyphs that the backend does not have, and what stays of them *)

Section AbsentGlyph.
Context {Change B : Type} `{!ChangeAlgebra Change, !Backend B}.
Local Abbreviation State := (FontHandler Change B).

(** One call of [getGlyph] for a name that the cache has no glyph for and
    that the backend reports as absent. *)
Lemma getGlyph_absent_once n (s : State) b' :
  LRUCache.peek (KTuple "glyphs" n) (localData s) = VNone →
  be_getGlyph n (backend s) = (inr None, b') →
  getGlyph n s
  = (inr VNone,
     set_localData
       (LRUCache.setitem (KTuple "glyphs" n) VNone
          (LRUCache.get (KTuple "glyphs" n) (localData s)).2)
       (set_backend b'
          (set_effects (effects s ++ [BackendCalled (CallGetGlyph n)]) s))).
Proof.
  intros Hpeek Hbe. unfold LRUCache.peek in Hpeek.
  destruct (LRUCache.get (KTuple "glyphs" n) (localData s)) as [v c'] eqn:Hget.
  cbn in Hpeek. subst v.
  unfold getGlyph, bind at 1, cacheGet. rewrite Hget.
  unfold _getGlyph, _getGlyphFromBackend, bind, callBackend. cbn.
  rewrite Hbe. done.
Qed.

(** C10 (amended).  For a name that the backend reports as absent and for
    which the cache holds no glyph, [getGlyph] returns [None] and records
    no dependency.  It stores [None] under the key of the glyph: the cache
    after the call is the cache after [cache[key] = None].  To [getGlyph]
    the entry reads like a missing one, so each of any number of further
    calls asks the backend again and ends in the same way.  But the entry
    is there: when the cache can hold anything, the key is among the keys
    of the cache, and [_getLocalDataPattern] lists it. *)
Theorem getGlyph_absent n (absent : B → Prop) (s : State) :
  (∀ b, absent b →
        (be_getGlyph n b).1 = inr None ∧ absent (be_getGlyph n b).2) →
  absent (backend s) →
  LRUCache.peek (KTuple "glyphs" n) (localData s) = VNone →
  let s1 := (getGlyph n s).2 in
  (getGlyph n s).1 = inr VNone
  ∧ glyphUsedBy s1 = glyphUsedBy s
  ∧ glyphMadeOf s1 = glyphMadeOf s
  ∧ localData s1
    = LRUCache.setitem (KTuple "glyphs" n) VNone
        (LRUCache.get (KTuple "glyphs" n) (localData s)).2
  ∧ ((0 < LRUCache.maxSize (localData s))%nat →
     PyDict.get (KTuple "glyphs" n) (LRUCache.entries (localData s1))
     = Some VNone
     ∧ KTuple "glyphs" n ∈ LRUCache.keys (localData s1)
     ∧ (cacheKeysOK s →
        ∃ p, _getLocalDataPattern s1 = inr p
             ∧ KTuple "glyphs" n ∈ droppedKeys p))
  ∧ ∀ m, let s' := getGlyphTimes n m s in
      effects s' = effects s ++ replicate m (BackendCalled (CallGetGlyph n))
      ∧ absent (backend s')
      ∧ glyphUsedBy s' = glyphUsedBy s
      ∧ glyphMadeOf s' = glyphMadeOf s
      ∧ LRUCache.peek (KTuple "glyphs" n) (localData s') = VNone
      ∧ (getGlyph n s').1 = inr VNone.
Proof.
  intros Habsent Hb Hpeek s1.
  assert (∀ s0 : State,
    absent (backend s0) →
    LRUCache.peek (KTuple "glyphs" n) (localData s0) = VNone →
    ∃ b', getGlyph n s0
      = (inr VNone,
         set_localData
           (LRUCache.setitem (KTuple "glyphs" n) VNone
              (LRUCache.get (KTuple "glyphs" n) (localData s0)).2)
           (set_backend b'
              (set_effects (effects s0 ++ [BackendCalled (CallGetGlyph n)]) s0)))
      ∧ absent b') as Hone.
  { intros s0 Hb0 Hp. destruct (Habsent (backend s0) Hb0) as [Hr Hb'].
    destruct (be_getGlyph n (backend s0)) as [r b'] eqn:Hbe. cbn in Hr, Hb'.
    subst r. exists b'. split; [|done]. by apply getGlyph_absent_once. }
  destruct (Hone s Hb Hpeek) as (b1 & Hrun & _).
  split; [by rewrite Hrun|]. subst s1. rewrite Hrun. cbn [snd].
  split; [done|]. split; [done|]. split; [done|]. split.
  - intros Hsize.
    assert (PyDict.get (KTuple "glyphs" n)
              (LRUCache.entries
                 (LRUCache.setitem (KTuple "glyphs" n) VNone
                    (LRUCache.get (KTuple "glyphs" n) (localData s)).2))
            = Some VNone) as Hget.
    { apply get_setitem. by rewrite maxSize_get. }
    cbn [localData set_localData]. split; [exact Hget|].
    assert (KTuple "glyphs" n
            ∈ LRUCache.keys
                (LRUCache.setitem (KTuple "glyphs" n) VNone
                   (LRUCache.get (KTuple "glyphs" n) (localData s)).2)) as Hkey.
    { apply get_Some_elem in Hget. unfold LRUCache.keys.
      apply list_elem_of_fmap. by eexists (_, _). }
    split; [exact Hkey|]. intros Hkeys.
    pose proof (keys_getGlyph n s Hkeys) as Hkeys1. rewrite Hrun in Hkeys1.
    cbn [snd] in Hkeys1.
    match type of Hkeys1 with
    | cacheKeysOK ?s0 =>
        destruct (localPatternLoop_ok (LRUCache.keys (localData s0)) [])
          as (p & Hp & _ & Hdrop);
        [by apply Forall_forall|constructor|by intros kv ?%elem_of_nil|]
    end.
    exists p. split; [exact Hp|]. apply Hdrop. by right.
  - intros m. cbn zeta. induction m as [|m IH].
    + cbn. rewrite app_nil_r. repeat split; try done. by rewrite Hrun.
    + destruct IH as (IHe & IHb & IHu & IHm & IHp & _).
      change (getGlyphTimes n (S m) s)
        with ((getGlyph n (getGlyphTimes n m s)).2).
      destruct (Hone _ IHb IHp) as (b' & Hg & Hb'). rewrite Hg. cbn.
      rewrite IHe, IHu, IHm.
      assert (LRUCache.peek (KTuple "glyphs" n)
                (LRUCache.setitem (KTuple "glyphs" n) VNone
                   (LRUCache.get (KTuple "glyphs" n)
                      (localData (getGlyphTimes n m s))).2) = VNone) as Hp'
        by apply peek_setitem_None.
      repeat split; try done.
      * rewrite <- app_assoc. f_equal. by rewrite <- replicate_cons_app.
      * match goal with |- (getGlyph n ?s1).1 = _ =>
          destruct (Hone s1 Hb' Hp') as (b'' & -> & _) end. done.
Qed.
End AbsentGlyph.

(** The font has no glyph "Z". *)
Lemma getGlyph_absent_witness :
  let s : Demo.State := Demo.session Demo.aFont false false in
  let absent := λ b : Demo.font, PyDict.get "Z" (Demo.fGlyphs b) = None in
  absent (backend s)
  ∧ LRUCache.peek (KTuple "glyphs" "Z") (localData s) = VNone
  ∧ (getGlyph "Z" s).1 = inr VNone
  ∧ LRUCache.entries (localData (getGlyph "Z" s).2)
    = [(KTuple "glyphs" "Z", VNone)]
  ∧ effects (getGlyphTimes "Z" 3 s)
    = replicate 3 (BackendCalled (CallGetGlyph "Z")).
Proof.
  intros s absent.
  assert (∀ b, absent b →
            (be_getGlyph "Z" b).1 = inr None ∧ absent (be_getGlyph "Z" b).2)
    as Habsent.
  { intros b Hb. cbn. by rewrite Hb. }
  assert (absent (backend s)) as Hb by reflexivity.
  assert (LRUCache.peek (KTuple "glyphs" "Z") (localData s) = VNone) as Hp
    by reflexivity.
  pose proof (getGlyph_absent "Z" absent s Habsent Hb Hp)
    as (H1 & _ & _ & H4 & _ & H6).
  destruct (H6 3%nat) as (He & _).
  split; [exact Hb|]. split; [exact Hp|]. split; [exact H1|].
  split; [rewrite H4; reflexivity|exact He].
Defined.

(** C10 as stated fails: the stored [None] is not like a missing entry.
    After [getGlyph("Z")] for a glyph that the font does not have,
    [_getLocalDataPattern] lists the glyph, so an external change of "Z",
    which was filtered out before, now runs through the pipeline and makes
    it ask the backend; and in a cache for one entry that holds glyph "A",
    the entry of "Z" takes the place of "A". *)
Lemma getGlyph_absent_counterexample :
  let s : Demo.State := Demo.session Demo.aFont false false in
  let s1 := (getGlyph "Z" s).2 in
  let change := Demo.EditGlyph "Z" (Demo.glyphOf []) in
  let small : Demo.State :=
    (getGlyph "A" (__post_init__ Demo.aFont false false 1)).2 in
  (getGlyph "Z" s).1 = inr VNone
  ∧ LRUCache.peek (KTuple "glyphs" "Z") (localData s) = VNone
  ∧ LRUCache.peek (KTuple "glyphs" "Z") (localData s1) = VNone
  ∧ _getLocalDataPattern s = inr (PDict [])
  ∧ _getLocalDataPattern s1
    = inr (PDict [("glyphs", Some (PDict [("Z", None)]))])
  ∧ updateLocalDataWithExternalChange change s = (inr tt, s)
  ∧ (updateLocalDataWithExternalChange change s1).1 = inl AttributeError
  ∧ effects (updateLocalDataWithExternalChange change s1).2
    = effects s1 ++ [BackendCalled (CallGetGlyph "Z")]
  ∧ LRUCache.peek (KTuple "glyphs" "A") (localData small) = VRef 0
  ∧ LRUCache.peek (KTuple "glyphs" "A") (localData (getGlyph "Z" small).2)
    = VNone.
Proof. vm_compute. by repeat split. Qed.

(** * Properties of the workflow set-up *)

(** ** Structuring the raw steps *)

Lemma raw_nested_ind (P : Workflow.raw → Prop) :
  P Workflow.RNone →
  (∀ b, P (Workflow.RBool b)) →
  (∀ n, P (Workflow.RInt n)) →
  (∀ s, P (Workflow.RStr s)) →
  (∀ l, Forall P l → P (Workflow.RList l)) →
  (∀ d, Forall (λ kv, P kv.2) d → P (Workflow.RDict d)) →
  ∀ v, P v.
Proof.
  intros HN HB HI HS HL HD.
  fix IH 1. intros [| | | |l|d]; [done|done|done|done| |].
  - apply HL. induction l as [|x l IHl]; constructor; [apply IH|exact IHl].
  - apply HD. induction d as [|[k x] d IHd]; constructor; [apply IH|exact IHd].
Qed.

Lemma ActionStep_nested_ind (P : Workflow.ActionStep → Prop) :
  (∀ name arguments steps,
     Forall P steps → P (Workflow.mkActionStep name arguments steps)) →
  ∀ step, P step.
Proof.
  intros H. fix IH 1. intros [name arguments steps]. apply H.
  induction steps as [|st steps IHs]; constructor; [apply IH|exact IHs].
Qed.

Section Structure.
Import Workflow.

Lemma get_remove_ne {V} (k k' : string) (d : PyDict.t string V) :
  k ≠ k' → PyDict.get k (PyDict.remove k' d) = PyDict.get k d.
Proof.
  intros Hne. induction d as [|[k0 v] d IH]; [done|]. cbn.
  repeat (case_decide; simplify_eq; cbn; try done).
  all: repeat (case_decide; simplify_eq; cbn; try done).
Qed.

(** The look-up of ["steps"] inside [_structureSteps] is
    [arguments.pop("steps", [])]. *)
Lemma pop_steps_eq (rawStep : list (string * raw)) :
  (fix pop (d : list (string * raw)) : exn + list ActionStep :=
     match d with
     | [] => inr []
     | (k, v) :: d' =>
         if decide ("steps" = k) then _structureSteps v else pop d'
     end) rawStep
  = _structureSteps
      (default (RList [])
         (PyDict.get "steps" (PyDict.remove "action" rawStep))).
Proof.
  rewrite get_remove_ne by done.
  induction rawStep as [|[k v] d IH]; [done|]. cbn [PyDict.get].
  case_decide; [done|exact IH].
Qed.

(** [_structureSteps] is the loop of the source over the body
    [_structureStep]. *)
Lemma _structureSteps_eq rawSteps :
  _structureSteps rawSteps
  = match iter rawSteps with
    | inl e => inl e
    | inr l => comprehension _structureStep l
    end.
Proof.
  destruct rawSteps as [| | |s|l|d]; [done|done|done| | |].
  - cbn [_structureSteps iter]. case_decide as Hs; [by subst|].
    by destruct s.
  - cbn [iter]. induction l as [|x l IH]; [done|].
    cbn [comprehension]. rewrite <- IH. clear IH.
    destruct x as [| | | | |d]; try done.
    cbn [_structureSteps]. unfold _structureStep. cbn [getitem].
    destruct (PyDict.get "action" d) as [actionName|]; [|done].
    rewrite <- pop_steps_eq.
    match goal with
    | |- match ?p with inl _ => _ | inr _ => _ end = _ =>
        destruct p as [e|subSteps]; [done|]
    end.
    match goal with
    | |- match ?p with inl _ => _ | inr _ => _ end = _ => by destruct p
    end.
  - by destruct d as [|[k v] d].
Qed.

(** Induction on a value for a property of [_structureSteps]: for a list,
    the property may be assumed of every value inside a dict of the
    list. *)
Lemma raw_steps_ind (P : raw → Prop) :
  (∀ l, Forall (λ x, ∀ d, x = RDict d → Forall (λ kv, P kv.2) d) l →
        P (RList l)) →
  (∀ v, (∀ l, v ≠ RList l) → P v) →
  ∀ v, P v.
Proof.
  intros HL HO v.
  enough (P v ∧ ∀ d, v = RDict d → Forall (λ kv, P kv.2) d) as [H _] by done.
  induction v as [| | | |l IH|d IH] using raw_nested_ind;
    try (split; [by apply HO|done]).
  - split; [|done]. apply HL. eapply Forall_impl; [exact IH|].
    intros x [_ Hx]. exact Hx.
  - split; [by apply HO|]. intros d' [= <-].
    eapply Forall_impl; [exact IH|]. by intros kv [Hkv _].
Qed.

Lemma comprehension_inl {A A'} (f : A → exn + A') l e :
  comprehension f l = inl e → ∃ x, x ∈ l ∧ f x = inl e.
Proof.
  induction l as [|x l IH]; [done|]. cbn.
  destruct (f x) as [e'|y] eqn:Hx.
  - intros [= ->]. exists x. split; [left|done].
  - destruct (comprehension f l) as [e'|ys]; [|done].
    intros [= ->]. destruct IH as (x' & Hin & Hx'); [done|].
    exists x'. split; [by right|done].
Qed.

Lemma comprehension_inr {A A'} (f : A → exn + A') l ys :
  comprehension f l = inr ys → Forall2 (λ x y, f x = inr y) l ys.
Proof.
  revert ys. induction l as [|x l IH]; intros ys; cbn.
  - intros [= <-]. constructor.
  - destruct (f x) as [e'|y] eqn:Hx; [done|].
    destruct (comprehension f l) as [e'|ys']; [done|].
    intros [= <-]. constructor; [done|by apply IH].
Qed.

Lemma comprehension_all {A A'} (f : A → exn + A') l ys :
  Forall2 (λ x y, f x = inr y) l ys → comprehension f l = inr ys.
Proof.
  induction 1 as [|x y l ys Hx _ IH]; [done|]. cbn. by rewrite Hx, IH.
Qed.

(** What the body of the loop returns. *)
Lemma _structureStep_inr rawStep step :
  _structureStep rawStep = inr step →
  ∃ d actionName,
    rawStep = RDict d
    ∧ PyDict.get "action" d = Some actionName
    ∧ Workflow.name step = actionName
    ∧ Workflow.arguments step
      = PyDict.remove "steps" (PyDict.remove "action" d)
    ∧ _structureSteps (default (RList []) (PyDict.get "steps" d))
      = inr (Workflow.steps step).
Proof.
  unfold _structureStep. destruct rawStep as [| | | | |d]; try done.
  cbn [getitem]. destruct (PyDict.get "action" d) as [actionName|] eqn:Ha;
    [|done].
  rewrite get_remove_ne by done.
  destruct (_structureSteps _) as [e|subSteps] eqn:Hs; [done|].
  intros [= <-]. by exists d, actionName.
Qed.

Lemma not_elem_of_keys_remove {V} (k : string) (d : PyDict.t string V) :
  NoDup (PyDict.keys d) → k ∉ PyDict.keys (PyDict.remove k d).
Proof.
  induction d as [|[k0 v] d IH]; cbn; [by intros _ ?%elem_of_nil|].
  intros [Hk0 Hd]%NoDup_cons. case_decide as Hk.
  - by subst.
  - cbn. intros [?|?]%elem_of_cons; [done|by apply IH].
Qed.

Lemma get_app_absent {V} (k : string) (l1 l2 : PyDict.t string V) :
  k ∉ PyDict.keys l1 → PyDict.get k (l1 ++ l2) = PyDict.get k l2.
Proof.
  induction l1 as [|[k0 v] l1 IH]; [done|]. cbn.
  intros Hk. case_decide.
  - subst. exfalso. apply Hk. left.
  - apply IH. intros ?. apply Hk. by right.
Qed.

Lemma remove_app_absent {V} (k : string) (v : V) (l : PyDict.t string V) :
  k ∉ PyDict.keys l → PyDict.remove k (l ++ [(k, v)]) = l.
Proof.
  induction l as [|[k0 v0] l IH]; cbn.
  - intros _. by case_decide.
  - intros Hk. case_decide.
    + subst. exfalso. apply Hk. left.
    + f_equal. apply IH. intros ?. apply Hk. by right.
Qed.

(** X12.  [_structureSteps] raises nothing but [TypeError] (the raw steps
    are not a list of dicts) and [KeyError("action")] (a raw step has no
    action); [Workflow.__post_init__] raises these and
    [KeyError("steps")] for a configuration without steps. *)
Theorem structureSteps_raises (config : raw) (e : exn) :
  (_structureSteps config = inl e → e = TypeError ∨ e = KeyError "action")
  ∧ (__post_init__ config = inl e →
     e = TypeError ∨ e = KeyError "action" ∨ e = KeyError "steps").
Proof.
  assert (∀ v e, _structureSteps v = inl e
                 → e = TypeError ∨ e = KeyError "action") as H.
  { clear. intros v. induction v as [l IH|v Hv] using raw_steps_ind; intros e.
    - rewrite _structureSteps_eq. cbn [iter].
      intros (x & Hin & Hx)%comprehension_inl.
      rewrite Forall_forall in IH. specialize (IH x Hin).
      unfold _structureStep in Hx. destruct x as [| | | | |d]; cbn in Hx;
        try (left; congruence).
      specialize (IH d eq_refl). rewrite Forall_forall in IH.
      destruct (PyDict.get "action" d) as [actionName|]; [|right; congruence].
      rewrite get_remove_ne in Hx by done.
      destruct (PyDict.get "steps" d) as [v|] eqn:Hsteps; [|done].
      cbn [default from_option id] in Hx.
      destruct (_structureSteps v) as [e'|subSteps] eqn:Hv; [|done].
      simplify_eq. apply get_Some_elem in Hsteps.
      apply (IH _ Hsteps). exact Hv.
    - destruct v as [| | |s|l|[|[k x] d]]; cbn;
        [left; congruence|left; congruence|left; congruence| | |done|
         left; congruence].
      + case_decide; [done|left; congruence].
      + by destruct (Hv l). }
  split; [apply H|].
  unfold __post_init__, getitem.
  destruct config as [| | | | |d]; try (left; congruence).
  destruct (PyDict.get "steps" d) as [v|]; [|right; right; congruence].
  intros [?|?]%H; auto.
Qed.

(** A list with a raw step that lacks its action. *)
Lemma structureSteps_raises_witness :
  let config := RDict [("steps", RList [RDict [("action", RStr "input")];
                                          RDict [("source", RStr "a.ufo")]])] in
  __post_init__ config = inl (KeyError "action")
  ∧ (KeyError "action" = TypeError ∨ KeyError "action" = KeyError "action"
     ∨ KeyError "action" = KeyError "steps").
Proof.
  intros config.
  assert (__post_init__ config = inl (KeyError "action")) as H by reflexivity.
  split; [exact H|].
  exact (proj2 (structureSteps_raises config (KeyError "action")) H).
Defined.

Lemma forallb_Forall' {A} (f : A → bool) (l : list A) :
  forallb f l = true ↔ Forall (λ x, f x = true) l.
Proof.
  induction l as [|x l IH]; cbn; [by split; [constructor|]|].
  rewrite andb_true_iff, IH, Forall_cons. done.
Qed.

(** X13.  The arguments of a structured step never hold the keys ["action"]
    and ["steps"], at any depth of nesting. *)
Theorem structureSteps_noReservedKey (rawSteps : raw)
    (steps : list ActionStep) :
  wfRaw rawSteps = true →
  _structureSteps rawSteps = inr steps →
  forallb noReservedKey steps = true.
Proof.
  revert steps. induction rawSteps as [l IH|v Hv] using raw_steps_ind;
    intros steps Hwf.
  - rewrite _structureSteps_eq. cbn [iter]. intros H%comprehension_inr.
    apply forallb_Forall'. cbn [wfRaw] in Hwf. apply forallb_Forall' in Hwf.
    induction H as [|x step l steps Hx _ IHl]; [constructor|].
    apply Forall_cons in IH as [IHx IH]. apply Forall_cons in Hwf as [Hwfx Hwf].
    constructor; [|by apply IHl].
    apply _structureStep_inr in Hx as (d & actionName & -> & Ha & Hn & Hargs & Hs).
    destruct step as [name arguments subSteps]. cbn in Hn, Hargs, Hs. subst.
    cbn [wfRaw] in Hwfx. apply andb_true_iff in Hwfx as [Hnd Hwfd].
    apply bool_decide_eq_true in Hnd. apply forallb_Forall' in Hwfd.
    cbn [noReservedKey]. rewrite !andb_true_iff, !bool_decide_eq_true.
    split; [split|].
    + intros Hin%keys_remove_sub.
      by apply (not_elem_of_keys_remove "action" d).
    + apply not_elem_of_keys_remove. by apply NoDup_keys_remove.
    + destruct (PyDict.get "steps" d) as [v|] eqn:Hsteps;
        cbn [default from_option id] in Hs.
      * apply get_Some_elem in Hsteps. specialize (IHx d eq_refl).
        rewrite Forall_forall in IHx, Hwfd.
        apply (IHx _ Hsteps); [apply (Hwfd _ Hsteps)|exact Hs].
      * cbn in Hs. by simplify_eq.
  - destruct v as [| | |s|l|[|[k x] d]]; cbn;
      [done|done|done| | |by intros [= <-]|done].
    + case_decide; [by intros [= <-]|done].
    + by destruct (Hv l).
Qed.

(** The configuration of the demo. *)
Lemma structureSteps_noReservedKey_witness :
  ∃ steps,
    wfRaw Registry.config = true
    ∧ __post_init__ Registry.config = inr steps
    ∧ length steps = 4%nat
    ∧ forallb noReservedKey steps = true.
Proof.
  assert (wfRaw (RList [
    Registry.step "input" "source" "a.designspace" [];
    Registry.step "input" "source" "b.ufo" [];
    Registry.step "filter" "label" "scale" [];
    Registry.step "output" "destination" "out.fontra"
      [Registry.step "filter" "label" "subset" []]]) = true) as Hwf
    by (vm_compute; reflexivity).
  destruct (__post_init__ Registry.config) as [e|steps] eqn:H;
    [by vm_compute in H|].
  exists steps. split; [vm_compute; reflexivity|]. split; [done|].
  split; [by vm_compute in H; simplify_eq|].
  exact (structureSteps_noReservedKey _ steps Hwf H).
Defined.

(** X14.  Structuring the raw steps written out from steps gives the steps
    back, when no argument is named ["action"] or ["steps"]. *)
Theorem structureSteps_rawOfStep (steps : list ActionStep) :
  forallb noReservedKey steps = true →
  _structureSteps (RList (rawOfStep <$> steps)) = inr steps.
Proof.
  assert (∀ step, noReservedKey step = true →
                  _structureStep (rawOfStep step) = inr step) as Hstep.
  { induction step as [name arguments subSteps IH] using ActionStep_nested_ind.
    cbn [noReservedKey rawOfStep].
    rewrite !andb_true_iff, !bool_decide_eq_true.
    intros [[Ha Hs] Hsub].
    unfold _structureStep. cbn [getitem PyDict.get PyDict.remove].
    rewrite !decide_True by done.
    rewrite get_app_absent by done. cbn [PyDict.get].
    rewrite decide_True by done. cbn [default from_option id].
    rewrite remove_app_absent by done.
    rewrite _structureSteps_eq. cbn [iter].
    rewrite (comprehension_all _ _ subSteps); [done|].
    apply forallb_Forall' in Hsub.
    apply Forall2_fmap_l, Forall_Forall2_diag.
    rewrite Forall_forall in IH, Hsub. apply Forall_forall.
    intros st Hst. apply (IH _ Hst), Hsub, Hst. }
  intros H. rewrite _structureSteps_eq. cbn [iter].
  apply comprehension_all. apply forallb_Forall' in H.
  apply Forall2_fmap_l, Forall_Forall2_diag.
  eapply Forall_impl; [exact H|]. exact Hstep.
Qed.

(** The steps of the demo, structured, written out and structured
    again. *)
Lemma structureSteps_rawOfStep_witness :
  ∃ steps,
    __post_init__ Registry.config = inr steps
    ∧ forallb noReservedKey steps = true
    ∧ _structureSteps (RList (rawOfStep <$> steps)) = inr steps.
Proof.
  destruct (__post_init__ Registry.config) as [e|steps] eqn:H;
    [by vm_compute in H|].
  assert (forallb noReservedKey steps = true) as Hk
    by (vm_compute in H; simplify_eq; vm_compute; reflexivity).
  exists steps. split; [done|]. split; [exact Hk|].
  exact (structureSteps_rawOfStep steps Hk).
Defined.
End Structure.

(** ** Preparing the end points *)

Section Prepare.
Import Workflow.
Context {W obj cls : Type} `{!Actions W obj cls}.
Local Abbreviation St := (State W obj).
Local Abbreviation Result := (option obj * list (option obj))%type.

Lemma prepareStep_eq step currentInput outputs :
  prepareStep step currentInput outputs
  = loopBody (λ currentInput steps, prepareSteps steps currentInput [])
      step currentInput outputs.
Proof. by destruct step. Qed.

Ltac destruct_match :=
  match goal with
  | |- context [match ?x with _ => _ end] => destruct x eqn:?
  end.

(** The outputs found so far are a prefix of the result. *)
Lemma loopBody_outputs nested step currentInput outputs (s : St) :
  loopBody nested step currentInput outputs s
  = extend outputs (loopBody nested step currentInput [] s).
Proof.
  unfold loopBody, extend, bind, call, assert_, enter_async_context, ret, raise.
  repeat (destruct_match; cbn [fst snd]; simplify_eq; try done).
  all: cbn [app]; by rewrite ?app_assoc.
Qed.

Lemma prepareSteps_outputs steps currentInput outputs (s : St) :
  prepareSteps steps currentInput outputs s
  = extend outputs (prepareSteps steps currentInput [] s).
Proof.
  revert currentInput outputs s.
  induction steps as [|step steps IH]; intros currentInput outputs s.
  - unfold extend. cbn. by rewrite app_nil_r.
  - cbn [prepareSteps]. unfold bind.
    rewrite !prepareStep_eq, loopBody_outputs. unfold extend at 1.
    destruct (loopBody _ step currentInput [] s) as [[e|[c o]] s1];
      cbn [fst snd]; [done|].
    rewrite IH, (IH c o). unfold extend.
    destruct (prepareSteps steps c [] s1) as [[e|[c' o']] s2];
      cbn [fst snd]; [done|].
    by rewrite app_assoc.
Qed.

(** The loop over two lists of steps, one after the other. *)
Lemma prepareSteps_app steps1 steps2 currentInput outputs (s : St) :
  prepareSteps (steps1 ++ steps2) currentInput outputs s
  = (r <- prepareSteps steps1 currentInput outputs ;;
     prepareSteps steps2 r.1 r.2) s.
Proof.
  revert currentInput outputs s.
  induction steps1 as [|step steps1 IH]; intros currentInput outputs s;
    [done|].
  cbn [app prepareSteps]. unfold bind.
  destruct (prepareStep step currentInput outputs s) as [[e|r] s1]; [done|].
  by rewrite IH.
Qed.

(** X15.  Preparing the steps [steps1 ++ steps2] is preparing [steps1], then
    [steps2] from the end point reached; the outputs are those of
    [steps1] followed by those of [steps2]. *)
Theorem prepareEndPoints_app steps1 steps2 currentInput (s : St) :
  _prepareEndPoints currentInput (steps1 ++ steps2) s
  = (e1 <- _prepareEndPoints currentInput steps1 ;;
     e2 <- _prepareEndPoints (endPoint e1) steps2 ;;
     ret {| endPoint := endPoint e2;
            outputs := outputs e1 ++ outputs e2 |}) s.
Proof.
  unfold _prepareEndPoints. unfold bind.
  rewrite prepareSteps_app. unfold bind.
  destruct (prepareSteps steps1 currentInput [] s) as [[e|[c o]] s1];
    cbn [fst snd ret endPoint outputs]; [done|].
  rewrite prepareSteps_outputs. unfold extend.
  by destruct (prepareSteps steps2 c [] s1) as [[e|[c' o']] s2].
Qed.

(** *** The exit stack *)

Lemma hoare_exist {S A X} (P : X → S → Prop) (m : M S A) Q E :
  (∀ x, hoare (P x) m Q E) → hoare (λ s, ∃ x, P x s) m Q E.
Proof. intros H s [x Hx]. by apply (H x). Qed.

Lemma hoare_call {A} (f : W → (exn + A) * W) (b : list (ContextManager obj)) :
  hoare (λ s : St, exitStack s = b) (call f)
    (λ _ s, exitStack s = b) (λ s, exitStack s = b).
Proof.
  intros s Hs. unfold call. by destruct (f (world s)) as [[e|a] w].
Qed.

Lemma hoare_enter (cm : ContextManager obj) (b : list (ContextManager obj)) :
  hoare (λ s : St, exitStack s = b) (enter_async_context cm)
    (λ _ s, exitStack s = b ++ [cm]) (λ s, exitStack s = b).
Proof.
  intros s Hs. unfold enter_async_context.
  destruct (match cm with
            | Connect action input => connect action input (world s)
            | Prepare action => prepare action (world s)
            end) as [[e|y] w]; cbn; by rewrite ?Hs.
Qed.

(** What is on the stack after [n] steps from the stack [base]: the
    context managers [new], one for each step, on top of [base]. *)
Local Abbreviation returned base n k :=
  (λ (r : Result) (s : St),
     ∃ new, exitStack s = base ++ new
            ∧ length new = n
            ∧ length r.2 = (k + length (List.filter isOutputContext new))%nat).

Local Abbreviation raised base n :=
  (λ s : St, ∃ new, exitStack s = base ++ new ∧ (length new ≤ n)%nat).

Lemma raised_base base n (s : St) : exitStack s = base → raised base n s.
Proof. intros <-. exists []. split; [by rewrite app_nil_r|cbn; lia]. Qed.

Lemma loopBody_exitStack nested step n base currentInput outputs :
  (∀ currentInput b,
     hoare (λ s, exitStack s = b) (nested currentInput (steps step))
       (returned b n 0%nat) (raised b n)) →
  hoare (λ s, exitStack s = base)
    (loopBody nested step currentInput outputs)
    (returned base (S n) (length outputs)) (raised base (S n)).
Proof.
  intros Hnested. unfold loopBody.
  eapply hoare_bind;
    [eapply hoare_conseq; [apply (hoare_call _ base)|done|done|apply raised_base]|].
  intros actionClass.
  eapply hoare_bind;
    [eapply hoare_conseq; [apply (hoare_call _ base)|done|done|apply raised_base]|].
  intros action. cbn beta.
  destruct (isOutputAction action) eqn:Hout;
    [|destruct (isConnectableAction action) eqn:Hconn;
      [|destruct (isInputAction action) eqn:Hin]].
  - (* output *)
    eapply hoare_bind; [apply hoare_assert, raised_base|]. intros ?.
    eapply hoare_bind; [apply hoare_assert, raised_base|]. intros ?.
    eapply hoare_bind.
    { eapply hoare_conseq; [apply (Hnested currentInput base)|done|done|].
      intros s (new & Hs & Hlen). exists new. split; [done|lia]. }
    intros [outputStepsResult moreOutput]. cbn [fst snd].
    apply hoare_exist. intros new.
    eapply hoare_bind with
      (Q := λ _ s, exitStack s = base ++ new
                   ∧ length new = n
                   ∧ length moreOutput
                     = length (List.filter isOutputContext new)).
    { intros s (Hs & Hlen & Hout'). destruct (isReadable outputStepsResult);
        cbn; [done|]. exists new. split; [done|lia]. }
    intros u1. destruct outputStepsResult as [result|].
    + eapply hoare_bind with
        (Q := λ _ s, exitStack s = (base ++ new) ++ [Connect action result]
                     ∧ length new = n
                     ∧ length moreOutput
                       = length (List.filter isOutputContext new)).
      { intros s (Hs & Hlen & Hout').
        pose proof (hoare_enter (Connect action result) (base ++ new) s Hs) as H.
        destruct (enter_async_context _ s) as [[e|y] s1]; cbn in H |- *.
        - exists new. split; [done|lia].
        - done. }
      intros yielded. apply hoare_ret. intros s (Hs & Hlen & Hout').
      exists (new ++ [Connect action result]).
      rewrite Hs, <- app_assoc, List.filter_app. cbn.
      rewrite Hout, !length_app. cbn. split; [done|]. split; lia.
    + apply hoare_raise. intros s (Hs & Hlen & _). exists new.
      split; [done|lia].
  - (* filter *)
    eapply hoare_bind; [apply hoare_assert, raised_base|]. intros ?.
    destruct currentInput as [input|]; [|apply hoare_raise, raised_base].
    eapply hoare_bind;
      [eapply hoare_conseq;
         [apply (hoare_enter (Connect action input) base)|done|done|
          apply raised_base]|].
    intros connected.
    eapply hoare_bind.
    { eapply hoare_conseq;
        [apply (Hnested connected (base ++ [Connect action input]))|done|done|].
      intros s (new & Hs & Hlen). exists (Connect action input :: new).
      rewrite Hs, <- app_assoc. cbn. split; [done|lia]. }
    intros [result moreOutput]. apply hoare_ret.
    intros s (new & Hs & Hlen & Hout').
    exists (Connect action input :: new).
    rewrite Hs, <- app_assoc. cbn in Hout' |- *. rewrite Hout.
    rewrite length_app. split; [done|]. split; lia.
  - (* input *)
    eapply hoare_bind;
      [eapply hoare_conseq;
         [apply (hoare_enter (Prepare action) base)|done|done|
          apply raised_base]|].
    intros prepared.
    eapply hoare_bind.
    { apply hoare_assert. intros s Hs. exists [Prepare action].
      split; [done|cbn; lia]. }
    intros u2.
    eapply hoare_bind.
    { eapply hoare_conseq;
        [apply (Hnested prepared (base ++ [Prepare action]))|done|done|].
      intros s (new & Hs & Hlen). exists (Prepare action :: new).
      rewrite Hs, <- app_assoc. cbn. split; [done|lia]. }
    intros [result moreOutput].
    assert (∀ r : option obj,
              hoare (returned (base ++ [Prepare action]) n 0%nat (result, moreOutput))
                (ret (r, outputs ++ moreOutput))
                (returned base (S n) (length outputs)) (raised base (S n))) as Hret.
    { intros r. apply hoare_ret. intros s (new & Hs & Hlen & Hout').
      exists (Prepare action :: new).
      rewrite Hs, <- app_assoc. cbn in Hout' |- *.
      rewrite length_app. split; [done|]. split; lia. }
    destruct currentInput; apply Hret.
  - apply hoare_raise, raised_base.
Qed.

Lemma prepareSteps_exitStack steps :
  Forall (λ step, ∀ base currentInput outputs,
            hoare (λ s, exitStack s = base)
              (prepareStep step currentInput outputs)
              (returned base (countSteps step) (length outputs))
              (raised base (countSteps step))) steps →
  ∀ base currentInput outputs,
    hoare (λ s, exitStack s = base) (prepareSteps steps currentInput outputs)
      (returned base (countAll steps) (length outputs))
      (raised base (countAll steps)).
Proof.
  induction 1 as [|step steps Hstep _ IH]; intros base currentInput outputs.
  - apply hoare_ret. intros s Hs. exists [].
    split; [by rewrite Hs, app_nil_r|]. cbn. split; [done|lia].
  - cbn [prepareSteps].
    eapply hoare_bind
      with (Q := returned base (countSteps step) (length outputs)).
    + eapply hoare_conseq; [apply (Hstep base)|done|done|].
      intros s (new & Hs & Hlen). exists new. split; [done|].
      change (countAll (step :: steps))
        with (countSteps step + countAll steps)%nat. lia.
    + intros [c o]. cbn [fst snd]. apply hoare_exist. intros new.
      intros s (Hs & Hlen & Hout).
      pose proof (IH (base ++ new) c o s Hs) as H.
      change (countAll (step :: steps))
        with (countSteps step + countAll steps)%nat.
      destruct (prepareSteps steps c o s) as [[e|[c' o']] s'];
        cbn [fst snd] in H |- *;
        destruct H as (new' & Hs' & H); exists (new ++ new');
        rewrite Hs', <- app_assoc, ?List.filter_app, ?length_app.
      * split; [done|lia].
      * cbn [snd] in Hout. split; [done|]. split; lia.
Qed.

Lemma prepareStep_exitStack step base currentInput outputs :
  hoare (λ s, exitStack s = base) (prepareStep step currentInput outputs)
    (returned base (countSteps step) (length outputs))
    (raised base (countSteps step)).
Proof.
  revert base currentInput outputs.
  induction step as [name arguments steps IH] using ActionStep_nested_ind.
  intros base currentInput outputs. rewrite prepareStep_eq.
  apply (loopBody_exitStack _ _ (countAll steps)).
  intros c b. by apply (prepareSteps_exitStack steps IH b c []).
Qed.

(** X16.  [_prepareEndPoints] only pushes on the exit stack.  When it
    returns, every step, nested ones included, has entered one context
    manager, and the outputs are as many as the context managers of
    output actions among them.  When it raises, the stack holds what was
    there before and the context managers entered until then. *)
Theorem prepareEndPoints_exitStack currentInput steps (s : St) :
  let r := _prepareEndPoints currentInput steps s in
  ∃ new,
    exitStack r.2 = exitStack s ++ new
    ∧ match r.1 with
      | inr e =>
          length new = countAll steps
          ∧ length (outputs e) = length (List.filter isOutputContext new)
      | inl _ => (length new ≤ countAll steps)%nat
      end.
Proof.
  intros r. subst r. unfold _prepareEndPoints, bind.
  pose proof (prepareSteps_exitStack steps) as H.
  specialize (H ltac:(apply Forall_forall; intros st _ b c o;
                      apply prepareStep_exitStack)
                (exitStack s) currentInput [] s eq_refl).
  destruct (prepareSteps steps currentInput [] s) as [[e|[c o]] s'];
    cbn [fst snd ret] in H |- *; exact H.
Qed.

(** *** The kinds of steps *)

Lemma call_eq {A} (f : W → (exn + A) * W) (s : St) r w :
  f (world s) = (r, w) →
  call f s = (r, {| world := w; exitStack := exitStack s |}).
Proof. unfold call. by intros ->. Qed.

(** X17.  Without a current input, a first step whose action is an output
    or a filter fails with [AssertionError] before any context manager is
    entered: a workflow starts with an input. *)
Theorem prepareEndPoints_needs_input step steps (s : St)
    actionClass action w1 w2 :
  getActionClass (name step) (world s) = (inr actionClass, w1) →
  construct actionClass (arguments step) w1 = (inr action, w2) →
  isOutputAction action || isConnectableAction action = true →
  _prepareEndPoints None (step :: steps) s
  = (inl AssertionError, {| world := w2; exitStack := exitStack s |}).
Proof.
  intros Hclass Haction Hkind.
  unfold _prepareEndPoints. cbn [prepareSteps]. unfold bind.
  rewrite prepareStep_eq. unfold loopBody, bind.
  rewrite (call_eq _ s _ _ Hclass).
  rewrite (call_eq _ {| world := w1; exitStack := exitStack s |} _ _ Haction).
  cbn [exitStack world].
  destruct (isOutputAction action); cbn in Hkind |- *.
  - by destruct (isConnectableAction action).
  - rewrite Hkind. by destruct (isReadableFontBackend action).
Qed.

(** X18.  An output step needs a connectable action.  Its nested steps
    start from the current input and must reach a [ReadableFontBackend];
    the action connects to that end point, the connection is the context
    manager entered last, and what it yields is appended to the outputs
    after those of the nested steps.  The current input stays as it is:
    what follows the step in the list goes on from the same end point. *)
Theorem prepareEndPoints_output step input (s s' : St)
    actionClass action w1 w2 e :
  getActionClass (name step) (world s) = (inr actionClass, w1) →
  construct actionClass (arguments step) w1 = (inr action, w2) →
  isOutputAction action = true →
  _prepareEndPoints (Some input) [step] s = (inr e, s') →
  isConnectableAction action = true
  ∧ endPoint e = Some input
  ∧ ∃ result moreOutput s1 yielded w3,
      prepareSteps (steps step) (Some input) []
        {| world := w2; exitStack := exitStack s |}
      = (inr (Some result, moreOutput), s1)
      ∧ isReadableFontBackend result = true
      ∧ connect action result (world s1) = (inr yielded, w3)
      ∧ outputs e = moreOutput ++ [yielded]
      ∧ s' = {| world := w3;
                exitStack := exitStack s1 ++ [Connect action result] |}.
Proof.
  intros Hclass Haction Hkind.
  unfold _prepareEndPoints. cbn [prepareSteps]. unfold bind.
  rewrite prepareStep_eq. unfold loopBody, bind.
  rewrite (call_eq _ s _ _ Hclass).
  rewrite (call_eq _ {| world := w1; exitStack := exitStack s |} _ _ Haction).
  rewrite Hkind. unfold assert_, enter_async_context.
  destruct (isConnectableAction action); [|done]. cbn.
  destruct (prepareSteps (steps step) (Some input) [] _)
    as [[e'|[[result|] moreOutput]] s1] eqn:Hsteps; [done| |done].
  cbn. destruct (isReadableFontBackend result) eqn:Hreadable; [|done]. cbn.
  destruct (connect action result (world s1)) as [[e'|yielded] w3] eqn:Hc;
    [done|].
  cbn. intros [= <- <-]. cbn. split; [done|]. split; [done|].
  by exists result, moreOutput, s1, yielded, w3.
Qed.

(** X19.  An input step enters its [prepare()] context first, which must
    yield a [ReadableFontBackend]; its nested steps start from what the
    context yields.  With a current input the end point after the step is
    the [FontBackendMerger] of the current input and of the end point of
    the nested steps; without one it is that end point itself.  The
    outputs of the step are those of the nested steps. *)
Theorem prepareEndPoints_input step currentInput (s s' : St)
    actionClass action w1 w2 e :
  getActionClass (name step) (world s) = (inr actionClass, w1) →
  construct actionClass (arguments step) w1 = (inr action, w2) →
  isOutputAction action = false →
  isConnectableAction action = false →
  _prepareEndPoints currentInput [step] s = (inr e, s') →
  isInputAction action = true
  ∧ ∃ prepared w3 nestedEndPoint,
      prepare action w2 = (inr prepared, w3)
      ∧ isReadable prepared = true
      ∧ prepareSteps (steps step) prepared []
          {| world := w3; exitStack := exitStack s ++ [Prepare action] |}
        = (inr (nestedEndPoint, outputs e), s')
      ∧ endPoint e
        = match currentInput with
          | None => nestedEndPoint
          | Some inputA => Some (FontBackendMerger inputA nestedEndPoint)
          end.
Proof.
  intros Hclass Haction Hout Hconn.
  unfold _prepareEndPoints. cbn [prepareSteps]. unfold bind.
  rewrite prepareStep_eq. unfold loopBody, bind.
  rewrite (call_eq _ s _ _ Hclass).
  rewrite (call_eq _ {| world := w1; exitStack := exitStack s |} _ _ Haction).
  rewrite Hout, Hconn. unfold assert_, enter_async_context.
  destruct (isInputAction action); [|done]. cbn [world exitStack].
  destruct (prepare action w2) as [[e'|prepared] w3] eqn:Hprep; [done|].
  cbn [fst snd].
  destruct (isReadable prepared) eqn:Hreadable; [|done]. cbn [ret].
  destruct (prepareSteps (steps step) prepared [] _)
    as [[e'|[nestedEndPoint moreOutput]] s2] eqn:Hsteps; [done|].
  cbn [fst snd app]. intros He. split; [done|].
  exists prepared, w3, nestedEndPoint.
  assert (s' = s2 ∧ outputs e = moreOutput
          ∧ endPoint e = match currentInput with
                         | None => nestedEndPoint
                         | Some inputA =>
                             Some (FontBackendMerger inputA nestedEndPoint)
                         end) as (-> & -> & Hend).
  { destruct currentInput; cbn in He; unfold ret in He; by simplify_eq. }
  done.
Qed.
End Prepare.

Section PrepareDemo.
Import Workflow Workflow.Registry.

(** An output as the first step. *)
Lemma prepareEndPoints_needs_input_witness :
  let step := mkActionStep (RStr "output")
                [("destination", RStr "out.fontra")] [] in
  let s := {| world := tt; exitStack := [] |} in
  isOutputAction (OutputAction "out.fontra")
  || isConnectableAction (OutputAction "out.fontra") = true
  ∧ _prepareEndPoints None [step] s = (inl AssertionError, s).
Proof.
  intros step s. split; [reflexivity|].
  exact (prepareEndPoints_needs_input step [] s OutputClass
           (OutputAction "out.fontra") tt tt eq_refl eq_refl eq_refl).
Defined.

(** An output with a filter of its own, after a source. *)
Lemma prepareEndPoints_output_witness :
  let step := mkActionStep (RStr "output")
                [("destination", RStr "out.fontra")]
                [mkActionStep (RStr "filter") [("label", RStr "subset")] []] in
  let s := {| world := tt; exitStack := [Prepare (InputAction "a.ufo")] |} in
  let input := Source "a.ufo" in
  ∃ e s',
    _prepareEndPoints (Some input) [step] s = (inr e, s')
    ∧ endPoint e = Some input
    ∧ outputs e = [Some (Sink "out.fontra" (Filtered "subset" input))]
    ∧ exitStack s'
      = [Prepare (InputAction "a.ufo");
         Connect (FilterAction "subset") input;
         Connect (OutputAction "out.fontra") (Filtered "subset" input)].
Proof.
  intros step s input.
  destruct (_prepareEndPoints (Some input) [step] s) as [[e0|e] s'] eqn:H;
    [by vm_compute in H|].
  exists e, s'. split; [done|].
  pose proof (prepareEndPoints_output step input s s' OutputClass
                (OutputAction "out.fontra") tt tt e eq_refl eq_refl eq_refl H)
    as (_ & Hend & result & moreOutput & s1 & yielded & w3
        & Hsteps & _ & Hc & Hout & Hs').
  split; [exact Hend|].
  vm_compute in Hsteps. simplify_eq.
  vm_compute in Hc. simplify_eq. by rewrite Hout.
Defined.

(** A second source. *)
Lemma prepareEndPoints_input_witness :
  let step := mkActionStep (RStr "input") [("source", RStr "b.ufo")] [] in
  let s := {| world := tt; exitStack := [Prepare (InputAction "a.ufo")] |} in
  ∃ e s',
    _prepareEndPoints (Some (Source "a.ufo")) [step] s = (inr e, s')
    ∧ endPoint e = Some (Merged (Source "a.ufo") (Some (Source "b.ufo"))).
Proof.
  intros step s.
  destruct (_prepareEndPoints (Some (Source "a.ufo")) [step] s)
    as [[e0|e] s'] eqn:H; [by vm_compute in H|].
  exists e, s'. split; [done|].
  pose proof (prepareEndPoints_input step (Some (Source "a.ufo")) s s'
                InputClass (InputAction "b.ufo") tt tt e
                eq_refl eq_refl eq_refl eq_refl H)
    as (_ & prepared & w3 & nested & Hprep & _ & Hnested & Hend).
  rewrite Hend. vm_compute in Hprep. simplify_eq.
  vm_compute in Hnested. by simplify_eq.
Defined.
End PrepareDemo.

(** ** An edit at a root key that the handler does not know *)

Section UnknownRootKey.
Context {Change B : Type} `{!ChangeAlgebra Change, !Backend B}.
Local Abbreviation State := (FontHandler Change B).

(** X20.  [editFinal] of a change whose first root key is neither
    ["glyphs"] nor a key that [_getData] knows, and for which the cache
    holds nothing, raises [KeyError] when the root object is prepared:
    the change is not applied, no write is scheduled, no client is told,
    the backend is not called, and every key reads from the cache as
    before. *)
Theorem editFinal_unknown_root_key (change : Change) (key : string)
    (rootKeys : list string) (broadcast : bool) (connection : Connection)
    (s : State) :
  comprehension first (collectChangePaths change 1) = inr (key :: rootKeys) →
  key ≠ "glyphs" →
  key ∉ dataKeys →
  LRUCache.peek (KStr key) (localData s) = VNone →
  ∃ cache,
    editFinal change broadcast connection s
    = (inl (KeyError key), set_localData cache s)
    ∧ ∀ k, LRUCache.peek k cache = LRUCache.peek k (localData s).
Proof.
  intros Hpaths Hglyphs Hkey Hpeek.
  exists (LRUCache.get (KStr key) (localData s)).2.
  split; [|intros k; apply peek_get].
  unfold editFinal, updateLocalDataAndWriteToBackend,
    _updateLocalDataAndWriteToBackend, _prepareRootObject.
  cbn [negb]. unfold bind at 1 2 3 4. cbn [ret].
  rewrite Hpaths. cbn [lift ret fold_]. unfold bind at 1 2.
  rewrite decide_False by done. unfold bind at 1.
  by rewrite getData_unknown.
Qed.
End UnknownRootKey.

(** The demo font has no data under ["kerning"]. *)
Lemma editFinal_unknown_root_key_witness :
  let s : Demo.State := Demo.session Demo.aFont false false in
  let change := Demo.SetRoot "kerning" (DDict []) in
  comprehension first (collectChangePaths change 1) = inr ["kerning"]
  ∧ "kerning" ≠ "glyphs"
  ∧ ("kerning" ∉ dataKeys)
  ∧ LRUCache.peek (KStr "kerning") (localData s) = VNone
  ∧ editFinal change true Demo.alice s = (inl (KeyError "kerning"), s).
Proof.
  intros s change.
  assert (comprehension first (collectChangePaths change 1) = inr ["kerning"])
    as Hpaths by reflexivity.
  assert ("kerning" ≠ "glyphs") as Hg by done.
  assert ("kerning" ∉ dataKeys) as Hkey
    by (apply (bool_decide_unpack _); vm_compute; exact I).
  assert (LRUCache.peek (KStr "kerning") (localData s) = VNone) as Hpeek
    by reflexivity.
  split; [exact Hpaths|]. split; [exact Hg|]. split; [exact Hkey|].
  split; [exact Hpeek|].
  destruct (editFinal_unknown_root_key change "kerning" [] true Demo.alice s
              Hpaths Hg Hkey Hpeek) as (cache & H & _).
  rewrite H. vm_compute in H. injection H as H. rewrite <- H. reflexivity.
Defined.

(** ** Filter steps *)

Section PrepareFilter.
Import Workflow.
Context {W obj cls : Type} `{!Actions W obj cls}.
Local Abbreviation St := (State W obj).

(** X21.  A filter step connects to the current input and becomes the
    current input: the end point of the step is the end point that the
    steps nested in it reach from what the connection yields.  A filter
    that is not a [ReadableFontBackend] fails the step. *)
Theorem prepareEndPoints_filter step currentInput (s s' : St)
    actionClass action w1 w2 e :
  getActionClass (name step) (world s) = (inr actionClass, w1) →
  construct actionClass (arguments step) w1 = (inr action, w2) →
  isOutputAction action = false →
  isConnectableAction action = true →
  _prepareEndPoints currentInput [step] s = (inr e, s') →
  isReadableFontBackend action = true
  ∧ ∃ input connected w3,
      currentInput = Some input
      ∧ connect action input w2 = (inr connected, w3)
      ∧ prepareSteps (steps step) connected []
          {| world := w3; exitStack := exitStack s ++ [Connect action input] |}
        = (inr (endPoint e, outputs e), s').
Proof.
  intros Hclass Haction Hout Hconn.
  unfold _prepareEndPoints. cbn [prepareSteps]. unfold bind.
  rewrite prepareStep_eq. unfold loopBody, bind.
  rewrite (call_eq _ s _ _ Hclass).
  rewrite (call_eq _ {| world := w1; exitStack := exitStack s |} _ _ Haction).
  rewrite Hout, Hconn. unfold assert_, enter_async_context.
  destruct (isReadableFontBackend action); [|done]. cbn [ret].
  destruct currentInput as [input|]; [|done]. cbn [world exitStack].
  destruct (connect action input w2) as [[e'|connected] w3] eqn:Hc; [done|].
  destruct (prepareSteps (steps step) connected [] _)
    as [[e'|[nestedEndPoint moreOutput]] s2] eqn:Hsteps; [done|].
  unfold ret. intros [= <- <-]. split; [done|].
  exists input, connected, w3. split; [done|]. split; [done|].
  cbn [endPoint outputs fst snd app]. exact Hsteps.
Qed.
End PrepareFilter.

(** A filter after a source. *)
Lemma prepareEndPoints_filter_witness :
  let step := Workflow.mkActionStep (Workflow.RStr "filter")
                [("label", Workflow.RStr "scale")] [] in
  let s := {| Workflow.world := tt;
              Workflow.exitStack :=
                [Workflow.Prepare (Workflow.Registry.InputAction "a.ufo")] |} in
  let input := Workflow.Registry.Source "a.ufo" in
  ∃ e s',
    Workflow._prepareEndPoints (Some input) [step] s = (inr e, s')
    ∧ Workflow.endPoint e = Some (Workflow.Registry.Filtered "scale" input).
Proof.
  intros step s input.
  destruct (Workflow._prepareEndPoints (Some input) [step] s)
    as [[e0|e] s'] eqn:H; [by vm_compute in H|].
  exists e, s'. split; [done|].
  pose proof (prepareEndPoints_filter step (Some input) s s'
                Workflow.Registry.FilterClass
                (Workflow.Registry.FilterAction "scale") tt tt e
                eq_refl eq_refl eq_refl eq_refl H)
    as (_ & input' & connected & w3 & Hin & Hc & Hsteps).
  vm_compute in Hc. vm_compute in Hin. simplify_eq.
  vm_compute in Hsteps. by simplify_eq.
Defined.

(** ** Subscriptions over time *)

Section SubscriptionsPersist.
Context {Change B : Type} `{!ChangeAlgebra Change, !Backend B}.
Local Abbreviation State := (FontHandler Change B).

(** Adjusting the pattern of another client, or of another tier, leaves
    the subscription alone. *)
Lemma subscription_adjust_other func pat live' c' c live (s : State) :
  ¬ (clientUUID c' = clientUUID c ∧ live' = live) →
  subscription c live (_adjustMatchPattern func pat live' c' s)
  = subscription c live s.
Proof.
  intros Hother.
  unfold subscription, _adjustMatchPattern, _getClientData, _setClientData.
  fold (tierKey live'). cbn [clientData set_clientData].
  destruct (decide (clientUUID c' = clientUUID c)) as [Heq|Hne].
  - rewrite Heq, lookup_insert_eq.
    assert (tierKey live ≠ tierKey live') as Hk.
    { destruct live, live'; try done; exfalso; by apply Hother. }
    rewrite lookup_insert_ne by done.
    by destruct (clientData s !! clientUUID c).
  - by rewrite lookup_insert_ne.
Qed.

Section Scheduler.
Context (I : State → Prop) (HI : IgnoresData I).
Context (Hqueue : ∀ q s, I s → I (set_dataScheduledForWriting q s)).
Context (Herror : ∀ e s, I s → I (set_processWritesError e s)).
Context (Hevent : ∀ b s, I s → I (set_processWritesEvent b s)).
Context (Hwriting : ∀ b s, I s → I (set_writingInProgressEvent b s)).

(** An invariant that looks at neither the data nor the write scheduler
    is kept by scheduling a write and by the write task. *)
Lemma inv_scheduleDataWrite_any k f c : inv I (scheduleDataWrite k f c).
Proof.
  unfold scheduleDataWrite. apply inv_bind; [apply inv_gets|]. intros [q|].
  - apply inv_bind; [apply inv_modify; intros s Hs; by apply Hqueue|].
    intros u. destruct (bool_decide (q = [])); [|apply inv_ret].
    apply inv_modify. intros s Hs. by apply Hwriting, Hevent.
  - apply inv_bind; [by apply inv_reloadData|]. intros u.
    destruct c; [by apply inv_awaitProxy|apply inv_raise].
Qed.

Lemma inv_writerTurn_any : inv I writerTurn.
Proof.
  assert (inv I _processWritesOneItem) as Hitem.
  { unfold _processWritesOneItem. apply inv_bind; [apply inv_gets|]. intros q.
    apply inv_bind; [apply inv_lift|]. intros [[k [f c]] q'].
    apply inv_bind; [apply inv_modify; intros s Hs; by apply Hqueue|].
    intros u. apply inv_try_except; [by apply inv_callWriteFunc|].
    intros e. by apply inv_handleWriteError. }
  assert (∀ n, inv I (_processWritesLoop n)) as Hloop.
  { induction n as [|n IH]; cbn; [apply inv_ret|].
    apply inv_bind; [apply inv_gets|]. intros [[|? ?]|]; try apply inv_ret.
    apply inv_bind; [apply Hitem|by intros _]. }
  intros s Hs. unfold writerTurn.
  destruct (_dataScheduledForWriting s) eqn:E; [|done].
  destruct (_processWritesEvent s); [|done].
  unfold processWrites.
  assert (inv I
    (try_finally
       (try_except _processWritesOneCycle
          (λ e, modify (set_processWritesError (Some e));; raise e))
       (λ s0, set_writingInProgressEvent true (set_processWritesEvent false s0))))
    as Hinv.
  { apply inv_try_finally; [|intros s0 Hs0; by apply Hwriting, Hevent].
    apply inv_try_except.
    - intros s0 Hs0. apply Hloop, Hs0.
    - intros e. apply inv_bind; [|intros _; apply inv_raise].
      apply inv_modify. intros s0 Hs0. by apply Herror. }
  specialize (Hinv s Hs).
  destruct (try_finally _ _ s) as [[e|r] s']; cbn in *; [|done].
  by apply Hqueue.
Qed.
End Scheduler.

(** X22.  The subscription of a client on a tier changes only when that
    client subscribes or unsubscribes on that tier.  Every other step of
    the handler leaves it as it is: edits, reads, the write task, the
    watcher, other clients, and the connecting and disconnecting of the
    client itself, so a client that comes back finds its subscription.
    Subscriptions are kept by client UUID: a connection with the UUID of
    another reads and changes the same subscription. *)
Theorem subscription_persists (c : Connection) (live : bool)
    (rs : list Request) (s : State) :
  Forall (λ r, ¬ adjusts c live r) rs →
  subscription c live (run rs s) = subscription c live s
  ∧ ∀ c' pathOrPattern,
      clientUUID c' = clientUUID c →
      subscription c live (subscribeChanges pathOrPattern live c' s)
      = patternUnion (subscription c live s) (_ensurePattern pathOrPattern).
Proof.
  intros Hrs. split.
  - set (P := subscription c live s).
    set (I := λ s0 : State, subscription c live s0 = P).
    assert (IgnoresData I) as HI by by split.
    assert (∀ k f c0, inv I (scheduleDataWrite k f c0)) as Hsched.
    { intros k f c0. by apply inv_scheduleDataWrite_any. }
    assert (∀ change conn,
              inv I (updateLocalDataAndWriteToBackend change conn)) as Hupdate.
    { intros change conn. by apply inv_updateLocalDataAndWriteToBackend. }
    enough (∀ s0, I s0 → I (run rs s0)) as Hrun by by apply Hrun.
    induction Hrs as [|r rs Hr _ IH]; intros s0 Hs0; [done|].
    cbn. apply IH. clear IH.
    destruct r; cbn [handle adjusts] in *.
    + unfold modify, addConnection. cbn. by case_decide.
    + unfold removeConnection, bind, gets. cbn. by case_decide.
    + apply inv_bind; [by apply inv_getGlyph|intros ?; apply inv_ret|done].
    + apply inv_bind; [by apply inv_getData|intros ?; apply inv_ret|done].
    + unfold modify, subscribeChanges. cbn [snd]. unfold I.
      by rewrite subscription_adjust_other.
    + unfold modify, unsubscribeChanges. cbn [snd]. unfold I.
      by rewrite subscription_adjust_other.
    + by apply inv_editIncremental.
    + by apply inv_editFinal.
    + by apply Hupdate.
    + by apply inv_processExternalChange.
    + by apply inv_writerTurn_any.
    + apply inv_bind; [apply inv_finishWriting|intros ?; apply inv_ret|done].
  - intros c' p Huuid. unfold subscribeChanges.
    unfold subscription, _adjustMatchPattern, _getClientData, _setClientData.
    fold (tierKey live). cbn [clientData set_clientData].
    by rewrite Huuid, !lookup_insert_eq.
Qed.
End SubscriptionsPersist.

(** Bob, subscribed to glyph "A", goes away and comes back while Alice
    edits the glyph and the write task runs. *)
Lemma subscription_persists_witness :
  let s : Demo.State := Demo.session Demo.aFont false false in
  let rs := [Disconnect Demo.bob;
             EditFinal Demo.editA true Demo.alice;
             WriterTurn;
             SubscribeChanges (inl ["glyphs"; "B"]) false Demo.alice;
             Connect Demo.bob] in
  Forall (λ r, ¬ adjusts Demo.bob false r) rs
  ∧ subscription Demo.bob false (run rs s) = patternFromPath ["glyphs"; "A"].
Proof.
  intros s rs.
  assert (Forall (λ r, ¬ adjusts Demo.bob false r) rs) as Hrs.
  { repeat constructor; cbn; try tauto. by intros [? _]. }
  split; [exact Hrs|].
  destruct (subscription_persists Demo.bob false rs s Hrs) as [H _].
  rewrite H. reflexivity.
Defined.

(** ** What the commit step schedules *)

Section PendingWrites.
Context {Change B : Type} `{!ChangeAlgebra Change, !Backend B}.
Local Abbreviation State := (FontHandler Change B).
Local Abbreviation T := (λ _ : State, True).

Lemma pendingAll_ignores keys :
  IgnoresData (pendingAll (Change:=Change) (B:=B) keys).
Proof. by split. Qed.

(** A step that leaves the queue alone keeps the pending writes. *)
Lemma hoare_pending {A} keys (m : M State A) :
  inv (pendingAll keys) m → hoare (pendingAll keys) m (λ _, pendingAll keys) T.
Proof.
  intros Hinv s Hs. specialize (Hinv s Hs). by destruct (m s) as [[e|a] s'].
Qed.

Lemma hoare_schedule keys k f c :
  hoare (pendingAll keys) (scheduleDataWrite k f c)
    (λ _, pendingAll (λ k', keys k' ∨ k' = k)) T.
Proof.
  intros s (q & Hq & Hkeys).
  destruct (scheduleDataWrite_alive k f c s q Hq) as (s' & -> & Hq' & _).
  cbn. exists (PyDict.set k (f, c) q). split; [done|].
  intros k' [Hk'| ->]; apply elem_of_keys_set_iff; [right; by apply Hkeys|by left].
Qed.

Lemma pendingAll_mono (keys keys' : DataKey → Prop) (s : State) :
  (∀ k, keys' k → keys k) → pendingAll keys s → pendingAll keys' s.
Proof. intros Hsub (q & Hq & Hkeys). exists q. split; [done|]. auto. Qed.

(** A loop whose passes each add pending writes. *)
Lemma hoare_for_pending {A} (added : A → DataKey → Prop) l keys
    (body : A → M State unit) :
  (∀ x keys, hoare (pendingAll keys) (body x)
               (λ _, pendingAll (λ k, keys k ∨ added x k)) T) →
  hoare (pendingAll keys) (for_ l body)
    (λ _, pendingAll (λ k, keys k ∨ ∃ x, x ∈ l ∧ added x k)) T.
Proof.
  intros Hbody. revert keys. induction l as [|x l IH]; intros keys.
  - apply hoare_ret. intros s. apply pendingAll_mono.
    intros k [?|(x & Hx%elem_of_nil & _)]; done.
  - cbn [for_]. eapply hoare_bind; [apply Hbody|]. intros u.
    eapply hoare_conseq; [apply IH|done| |done].
    intros ? s. apply pendingAll_mono.
    intros k [Hk|(y & [->|Hy]%elem_of_cons & Hk)].
    + by left; left.
    + by left; right.
    + right. by exists y.
Qed.

Lemma hoare_commitGlyph_pending keys t glyphMap conn n :
  hoare (pendingAll keys) (commitGlyph t glyphMap conn true n)
    (λ _, pendingAll (λ k, keys k ∨ k = KTuple "glyphs" n)) T.
Proof.
  pose proof (pendingAll_ignores keys) as HI.
  unfold commitGlyph. cbn [negb].
  eapply hoare_bind with (Q := λ _, pendingAll keys).
  { destruct (PyDict.get n (DictSetDelTracker.data t));
      [by apply hoare_ret|by apply hoare_raise]. }
  intros value.
  eapply hoare_bind with (Q := λ _, pendingAll keys).
  { case_decide; [|by apply hoare_ret].
    by apply hoare_pending, inv_cacheSet. }
  intros u.
  eapply hoare_bind; [by apply hoare_assert|]. intros u1.
  eapply hoare_bind; [by apply hoare_pending, inv_deepcopy|]. intros copy.
  eapply hoare_bind; [by apply hoare_pending, inv_glyphMapGet|].
  intros codePoints. apply hoare_schedule.
Qed.

Lemma hoare_commitDeletedGlyph_pending keys conn n :
  hoare (pendingAll keys) (commitDeletedGlyph conn true n)
    (λ _, pendingAll (λ k, keys k ∨ k = KTuple "glyphs" n)) T.
Proof.
  pose proof (pendingAll_ignores keys) as HI.
  unfold commitDeletedGlyph. cbn [negb].
  eapply hoare_bind; [by apply hoare_pending, inv_cachePop|]. intros u.
  eapply hoare_bind; [by apply hoare_assert|]. intros u1.
  apply hoare_schedule.
Qed.

Lemma hoare_commitRootKey_pending keys root conn rootKey :
  hoare (pendingAll keys) (commitRootKey root conn true rootKey)
    (λ _, pendingAll (λ k, keys k ∨ k = KStr rootKey)) T.
Proof.
  pose proof (pendingAll_ignores keys) as HI.
  unfold commitRootKey. cbn [negb].
  eapply hoare_bind with (Q := λ _, pendingAll keys).
  { case_decide; [|by apply hoare_ret].
    destruct (PyDict.get rootKey (attrs root));
      [by apply hoare_pending, inv_cacheSet|by apply hoare_raise]. }
  intros u.
  eapply hoare_bind; [by apply hoare_assert|]. intros u1.
  eapply hoare_bind; [by apply hoare_pending, inv_cacheGetItem|]. intros value.
  eapply hoare_bind; [by apply hoare_pending, inv_deepcopy|]. intros copy.
  apply hoare_schedule.
Qed.

(** X23.  When the commit step of an edit returns, with writes on and the
    write task alive, a write is pending for every key that the edit
    touches: for every root key of the change and every assigned
    attribute, for every glyph of the glyph set and for every deleted
    glyph.  The writes that were pending before are still pending. *)
Theorem updateLocalData_schedules (rootKeys : list string) (rootObject : Font)
    (sourceConnection : option Connection) (s s' : State) (q : WriteQueue) :
  _dataScheduledForWriting s = Some q →
  _updateLocalData rootKeys rootObject sourceConnection true s = (inr tt, s') →
  ∃ q',
    _dataScheduledForWriting s' = Some q'
    ∧ (∀ k, k ∈ PyDict.keys q → k ∈ PyDict.keys q')
    ∧ ∀ rootKey k,
        rootKey ∈ rootKeys ∨ rootKey ∈ _assignedAttributeNames rootObject →
        keysOf rootObject rootKey k →
        k ∈ PyDict.keys q'.
Proof.
  intros Hq Hrun.
  set (loopKeys := rootKeys ++ sorted (elements (_assignedAttributeNames rootObject))).
  assert (hoare (pendingAll (λ k, k ∈ PyDict.keys q))
            (_updateLocalData rootKeys rootObject sourceConnection true)
            (λ _, pendingAll (λ k, k ∈ PyDict.keys q
                                   ∨ ∃ rootKey, rootKey ∈ loopKeys
                                                ∧ keysOf rootObject rootKey k))
            T) as Hh.
  { unfold _updateLocalData. apply hoare_for_pending.
    intros rootKey keys. unfold keysOf. case_decide as Hg.
    - pose proof (pendingAll_ignores keys) as HI.
      destruct (glyphs rootObject) as [t|];
        [apply hoare_bind_ret|by apply hoare_bind_raise].
      eapply hoare_bind; [by apply hoare_pending, inv_getData|].
      intros glyphMap.
      eapply hoare_bind.
      { apply (hoare_for_pending (λ n k, k = KTuple "glyphs" n)).
        intros n keys'. apply hoare_commitGlyph_pending. }
      intros u. eapply hoare_conseq.
      { apply (hoare_for_pending (λ n k, k = KTuple "glyphs" n)).
        intros n keys'. apply hoare_commitDeletedGlyph_pending. }
      { done. }
      { intros ? s0. apply pendingAll_mono.
        intros k [Hk|(t' & n & [= <-] & Hn & ->)]; [by left; left|].
        destruct Hn as [Hn|Hn].
        - left. right. exists n. split; [|done]. by apply elem_of_sorted.
        - right. exists n. split; [|done].
          by apply elem_of_sorted, elem_of_elements. }
      { done. }
    - apply hoare_commitRootKey_pending. }
  specialize (Hh s). rewrite Hrun in Hh. cbn in Hh.
  destruct Hh as (q' & Hq' & Hkeys); [by exists q|].
  exists q'. split; [done|]. split; [intros k Hk; apply Hkeys; by left|].
  intros rootKey k Hin Hk. apply Hkeys. right. exists rootKey. split; [|done].
  subst loopKeys. apply elem_of_app. destruct Hin as [Hin|Hin]; [by left|].
  right. by apply elem_of_sorted, elem_of_elements.
Qed.
End PendingWrites.

(** The edit of glyph "A" of the demo, prepared and applied. *)
Lemma updateLocalData_schedules_witness :
  let root := {| attrs := [];
                 glyphs := Some (DictSetDelTracker.init [("A", VRef 0)]);
                 _assignedAttributeNames := ∅ |} in
  let s0 : Demo.State := (_prepareRootObject Demo.editA
                            (Demo.session Demo.aFont false false)).2 in
  let s : Demo.State := (applyChangeM root Demo.editA s0).2 in
  let r := _updateLocalData ["glyphs"] root (Some Demo.alice) true s in
  _dataScheduledForWriting s = Some []
  ∧ r.1 = inr tt
  ∧ ∃ q', _dataScheduledForWriting r.2 = Some q'
          ∧ KTuple "glyphs" "A" ∈ PyDict.keys q'.
Proof.
  intros root s0 s r.
  assert (_dataScheduledForWriting s = Some []) as Hq by reflexivity.
  destruct r as [[e|[]] s'] eqn:Hr; [by vm_compute in Hr|].
  split; [exact Hq|]. split; [reflexivity|].
  destruct (updateLocalData_schedules ["glyphs"] root (Some Demo.alice)
              s s' [] Hq Hr) as (q' & Hq' & _ & Hkeys).
  exists q'. split; [exact Hq'|].
  apply (Hkeys "glyphs"); [left; left|].
  unfold keysOf. rewrite decide_True by done.
  eexists _, "A". split; [reflexivity|]. split; [left; left|reflexivity].
Defined.
